(** * Verification of the MediaPipe profiler trace builder

    Shallow embedding of [mediapipe/framework/profiler/trace_builder.cc]:
    the two identifier interners ([StringIdMap], [AddressIdMap]), the
    time-base calibration ([SetBaseTime]), the event indexer and the two
    trace assemblers ([CreateTrace], [CreateLog]) of [TraceBuilder::Impl].

    Modelling conventions.
    - [int32] and [int64] values are integers of [Z]; the arithmetic the
      code performs on them ([next_id++], [ts.Value() - base_ts_]) is
      written with its two's-complement wrap-around.
    - Pointers ([const std::string*], [const void*]) are addresses of [Z],
      [nullptr] being address 0.  The strings they point to are read
      through a heap [deref]; stream names are immutable while a builder
      lives, so the heap is fixed.
    - [absl::Time] is an instant at microsecond resolution, or one of the
      two infinite instants.
    - [std::unordered_map] is stdpp's [gmap]; [operator[]] on a map inserts
      the default value for an absent key, and the model does the same.
    - The event lists and the hop index hold [const TraceEvent*] pointing
      into the snapshot of the call that indexed them; the model stores the
      events pointed to.  Within a call this is what the pointers denote.
      An entry that outlives its call points, in C++, into a vector that
      has been destroyed; the model reads it as the event it was indexed
      from, which is the reading under which the persisted indices mean
      anything.
    - Optional protobuf fields are [option] values: [None] is "not set". *)

From stdpp Require Import base gmap list strings numbers option.

Local Open Scope Z_scope.

(** ** Machine integers *)

Definition INT32_MAX : Z := 2 ^ 31 - 1.
Definition INT64_MAX : Z := 2 ^ 63 - 1.
Definition INT64_MIN : Z := - 2 ^ 63.

(** Two's-complement reduction to [w] bits. *)
Definition wrap (w : Z) (z : Z) : Z :=
  (z + 2 ^ (w - 1)) `mod` 2 ^ w - 2 ^ (w - 1).

Definition int32 (z : Z) : Z := wrap 32 z.
Definition int64 (z : Z) : Z := wrap 64 z.

Definition nullptr : Z := 0.

(** ** absl::Time *)

Inductive Time : Type :=
  | InfinitePast
  | UnixMicros (us : Z)
  | InfiniteFuture.

#[global] Instance Time_eq_dec : EqDecision Time.
Proof. solve_decision. Defined.

Definition Time_lt (a b : Time) : bool :=
  match a, b with
  | _, InfinitePast => false
  | InfinitePast, _ => true
  | InfiniteFuture, _ => false
  | UnixMicros _, InfiniteFuture => true
  | UnixMicros x, UnixMicros y => bool_decide (x < y)
  end.

(** [a >= b] *)
Definition Time_ge (a b : Time) : bool := negb (Time_lt a b).

(** [std::min(a, b)]: returns [b] only when [b < a]. *)
Definition Time_min (a b : Time) : Time := if Time_lt b a then b else a.

Definition ToUnixMicros (t : Time) : Z :=
  match t with
  | InfinitePast => INT64_MIN
  | UnixMicros us => us
  | InfiniteFuture => INT64_MAX
  end.

(** ** Event kinds and the two per-kind tables *)

Inductive EventType : Type :=
  | UNKNOWN | OPEN | PROCESS | CLOSE
  | NOT_READY | READY_FOR_PROCESS | READY_FOR_CLOSE | THROTTLED | UNTHROTTLED
  | CPU_TASK_USER | CPU_TASK_SYSTEM | GPU_TASK | DSP_TASK | TPU_TASK.

#[global] Instance EventType_eq_dec : EqDecision EventType.
Proof. solve_decision. Defined.

(** [static_cast<int>(event_type)] *)
Definition EventType_to_int (t : EventType) : Z :=
  match t with
  | UNKNOWN => 0 | OPEN => 1 | PROCESS => 2 | CLOSE => 3
  | NOT_READY => 4 | READY_FOR_PROCESS => 5 | READY_FOR_CLOSE => 6
  | THROTTLED => 7 | UNTHROTTLED => 8
  | CPU_TASK_USER => 9 | CPU_TASK_SYSTEM => 10
  | GPU_TASK => 11 | DSP_TASK => 12 | TPU_TASK => 13
  end.

Definition kProfilerPacketEvents : list bool :=
  [ false; true;  true;  true;
    false; false; false; false; false;
    true;  true;  true;  true;  true ].

Definition kProfilerStreamEvents : list bool :=
  [ false; true;  true;  true;
    false; false; false; false; false;
    true;  true;  false; false; false ].

(** [table[static_cast<int>(t)]] *)
Definition table_at (table : list bool) (t : EventType) : bool :=
  table !!! Z.to_nat (EventType_to_int t).

(** ** TraceEvent (the fields the builder reads) *)

Module TraceEvent.

Record t : Type := mk {
  event_time : Time;
  event_type : EventType;
  is_finish : bool;
  input_ts : Z;          (* Timestamp::Value() of the input timestamp *)
  packet_ts : Z;         (* Timestamp::Value() of the packet timestamp *)
  node_id : Z;
  stream_id : Z;         (* const std::string*, possibly nullptr *)
  thread_id : Z;
  packet_data_id : Z     (* const void*, possibly nullptr *)
}.

#[global] Instance eq_dec : EqDecision t.
Proof. solve_decision. Defined.

End TraceEvent.

(** ** TaskId: the key of both indices *)

Module TaskId.

Record t : Type := mk { id : Z; ts : Z; event_type : Z }.

#[global] Instance eq_dec : EqDecision t.
Proof. solve_decision. Defined.

#[global] Program Instance countable : Countable t :=
  inj_countable' (fun k => (id k, ts k, event_type k))
                 (fun '(a, b, c) => mk a b c) _.
Next Obligation. by intros []. Qed.

End TaskId.

(** ** The string heap

    [deref p] is the content of the [std::string] at address [p];
    [empty_string] is the address of the function-local static
    [new std::string("")] of the constructor of [Impl]. *)

Record Heap : Type := mkHeap {
  deref : Z → string;
  empty_string : Z;
  empty_string_content : deref empty_string = "";
  empty_string_nonnull : empty_string ≠ nullptr
}.

(** ** StringIdMap *)

Module StringIdMap.

Record t : Type := mk {
  pointer_id_map_ : gmap Z Z;
  string_id_map_ : gmap string Z;
  next_id : Z
}.

(** A default-constructed map. *)
Definition empty : t := mk ∅ ∅ 0.

(** [operator[]]: the identifier returned and the map after the lookup.
    After [string_id_map_[*id] = next_id++] the second [find] returns the
    entry just stored, so [string_id->second] is the old [next_id]. *)
Definition op_index (H : Heap) (m : t) (id : Z) : Z * t :=
  if decide (id = nullptr) then (0, m)
  else
    match pointer_id_map_ m !! id with
    | Some v => (v, m)
    | None =>
        let '(v, m1) :=
          match string_id_map_ m !! deref H id with
          | Some v => (v, m)
          | None =>
              (next_id m,
               mk (pointer_id_map_ m)
                  (<[deref H id := next_id m]> (string_id_map_ m))
                  (int32 (next_id m + 1)))
          end in
        (v, mk (<[id := v]> (pointer_id_map_ m1))
               (string_id_map_ m1) (next_id m1))
    end.

Definition clear (m : t) : t := mk ∅ ∅ (next_id m).

Definition map (m : t) : gmap string Z := string_id_map_ m.

End StringIdMap.

(** ** AddressIdMap *)

Module AddressIdMap.

Record t : Type := mk {
  pointer_id_map_ : gmap Z Z;
  next_id : Z
}.

Definition empty : t := mk ∅ 0.

(** [operator[]]: [return pointer_id_map_[id] = next_id++] on a miss. *)
Definition op_index (m : t) (id : Z) : Z * t :=
  match pointer_id_map_ m !! id with
  | Some v => (v, m)
  | None =>
      (next_id m,
       mk (<[id := next_id m]> (pointer_id_map_ m))
          (int32 (next_id m + 1)))
  end.

Definition clear (m : t) : t := mk ∅ (next_id m).

Definition map (m : t) : gmap Z Z := pointer_id_map_ m.

End AddressIdMap.

(** [GetIdNames]: a vector of names indexed by identifier. *)
Definition GetIdNames (id_map : StringIdMap.t) : list string :=
  fold_left
    (fun result (it : string * Z) =>
       <[Z.to_nat it.2 := it.1]>
         (resize (Nat.max (length result) (Z.to_nat (it.2 + 1))) "" result))
    (map_to_list (StringIdMap.map id_map)) [].

(** ** The output messages (calculator_profile.proto) *)

Module StreamTrace.

Record t : Type := mk {
  start_time : option Z;
  finish_time : option Z;
  packet_timestamp : option Z;
  stream_id : option Z;
  packet_id : option Z
}.

(** A freshly added message: no field set. *)
Definition empty : t := mk None None None None None.

Definition set_start_time (v : Z) (r : t) : t :=
  mk (Some v) (finish_time r) (packet_timestamp r) (stream_id r) (packet_id r).
Definition set_finish_time (v : Z) (r : t) : t :=
  mk (start_time r) (Some v) (packet_timestamp r) (stream_id r) (packet_id r).
Definition set_packet_timestamp (v : Z) (r : t) : t :=
  mk (start_time r) (finish_time r) (Some v) (stream_id r) (packet_id r).
Definition set_stream_id (v : Z) (r : t) : t :=
  mk (start_time r) (finish_time r) (packet_timestamp r) (Some v) (packet_id r).
Definition set_packet_id (v : Z) (r : t) : t :=
  mk (start_time r) (finish_time r) (packet_timestamp r) (stream_id r) (Some v).

End StreamTrace.

Module CalculatorTrace.

Record t : Type := mk {
  node_id : option Z;
  input_timestamp : option Z;
  event_type : option EventType;
  start_time : option Z;
  finish_time : option Z;
  input_trace : list StreamTrace.t;
  output_trace : list StreamTrace.t;
  thread_id : option Z
}.

Definition empty : t := mk None None None None None [] [] None.

Definition set_node_id (v : Z) (r : t) : t :=
  mk (Some v) (input_timestamp r) (event_type r) (start_time r)
     (finish_time r) (input_trace r) (output_trace r) (thread_id r).
Definition set_input_timestamp (v : Z) (r : t) : t :=
  mk (node_id r) (Some v) (event_type r) (start_time r)
     (finish_time r) (input_trace r) (output_trace r) (thread_id r).
Definition set_event_type (v : EventType) (r : t) : t :=
  mk (node_id r) (input_timestamp r) (Some v) (start_time r)
     (finish_time r) (input_trace r) (output_trace r) (thread_id r).
Definition set_start_time (v : Z) (r : t) : t :=
  mk (node_id r) (input_timestamp r) (event_type r) (Some v)
     (finish_time r) (input_trace r) (output_trace r) (thread_id r).
Definition set_finish_time (v : Z) (r : t) : t :=
  mk (node_id r) (input_timestamp r) (event_type r) (start_time r)
     (Some v) (input_trace r) (output_trace r) (thread_id r).
Definition set_thread_id (v : Z) (r : t) : t :=
  mk (node_id r) (input_timestamp r) (event_type r) (start_time r)
     (finish_time r) (input_trace r) (output_trace r) (Some v).
(** [add_input_trace()] followed by the filling of the new entry. *)
Definition add_input_trace (s : StreamTrace.t) (r : t) : t :=
  mk (node_id r) (input_timestamp r) (event_type r) (start_time r)
     (finish_time r) (input_trace r ++ [s]) (output_trace r) (thread_id r).
Definition add_output_trace (s : StreamTrace.t) (r : t) : t :=
  mk (node_id r) (input_timestamp r) (event_type r) (start_time r)
     (finish_time r) (input_trace r) (output_trace r ++ [s]) (thread_id r).

End CalculatorTrace.

Module GraphTrace.

Record t : Type := mk {
  base_time : option Z;
  base_timestamp : option Z;
  stream_name : list string;
  calculator_trace : list CalculatorTrace.t
}.

End GraphTrace.

(** ** mediapipe::Timestamp

    [timestamp.h] is not part of the sources at hand; the builder uses a
    timestamp through its [int64] value, the constant [Timestamp::Unset()]
    and the predicate [IsSpecialValue()].  Both are parameters of the
    model. *)

Record TimestampApi : Type := mkTimestampApi {
  Unset : Z;
  IsSpecialValue : Z → bool
}.

(** ** TraceBuilder::Impl *)

Module Impl.

Record t : Type := mk {
  (* TraceEvents indexed by task-id. *)
  task_events_ : gmap TaskId.t (list TraceEvent.t);
  (* Output TraceEvents indexed by stream-hop-id; [None] is a null pointer. *)
  hop_events_ : gmap TaskId.t (option TraceEvent.t);
  stream_id_map_ : StringIdMap.t;
  packet_data_id_map_ : AddressIdMap.t;
  base_ts_ : Z;
  base_time_ : Z
}.

Definition set_task_events_ (v : gmap TaskId.t (list TraceEvent.t)) (st : t) : t :=
  mk v (hop_events_ st) (stream_id_map_ st) (packet_data_id_map_ st)
     (base_ts_ st) (base_time_ st).
Definition set_hop_events_ (v : gmap TaskId.t (option TraceEvent.t)) (st : t) : t :=
  mk (task_events_ st) v (stream_id_map_ st) (packet_data_id_map_ st)
     (base_ts_ st) (base_time_ st).
Definition set_stream_id_map_ (v : StringIdMap.t) (st : t) : t :=
  mk (task_events_ st) (hop_events_ st) v (packet_data_id_map_ st)
     (base_ts_ st) (base_time_ st).
Definition set_packet_data_id_map_ (v : AddressIdMap.t) (st : t) : t :=
  mk (task_events_ st) (hop_events_ st) (stream_id_map_ st) v
     (base_ts_ st) (base_time_ st).
Definition set_base_ts_ (v : Z) (st : t) : t :=
  mk (task_events_ st) (hop_events_ st) (stream_id_map_ st)
     (packet_data_id_map_ st) v (base_time_ st).
Definition set_base_time_ (v : Z) (st : t) : t :=
  mk (task_events_ st) (hop_events_ st) (stream_id_map_ st)
     (packet_data_id_map_ st) (base_ts_ st) v.

(** [TaskId{event.node_id, event.input_ts, event.event_type}] *)
Definition task_id_of (event : TraceEvent.t) : TaskId.t :=
  TaskId.mk (TraceEvent.node_id event) (TraceEvent.input_ts event)
            (EventType_to_int (TraceEvent.event_type event)).

(** [task_events_[task_id]]: the list under the key, default-inserted
    when the key is absent. *)
Definition task_events_at (st : t) (task_id : TaskId.t) : list TraceEvent.t * t :=
  match task_events_ st !! task_id with
  | Some l => (l, st)
  | None => ([], set_task_events_ (<[task_id := []]> (task_events_ st)) st)
  end.

(** [hop_events_[hop_id]] read as an rvalue. *)
Definition hop_events_at (st : t) (hop_id : TaskId.t) : option TraceEvent.t * t :=
  match hop_events_ st !! hop_id with
  | Some p => (p, st)
  | None => (None, set_hop_events_ (<[hop_id := None]> (hop_events_ st)) st)
  end.

(** [packet_data_id_map_[id]] *)
Definition packet_data_id (st : t) (id : Z) : Z * t :=
  let '(v, m) := AddressIdMap.op_index (packet_data_id_map_ st) id in
  (v, set_packet_data_id_map_ m st).

(** [void Clear()] *)
Definition Clear (st : t) : t := set_hop_events_ ∅ (set_task_events_ ∅ st).

(** Return a timestamp in micros relative to the base timestamp. *)
Definition LogTimestamp (st : t) (ts : Z) : Z := int64 (ts - base_ts_ st).

(** Return a time in micros relative to the base time. *)
Definition LogTime (st : t) (time : Time) : Z :=
  int64 (ToUnixMicros time - base_time_ st).

(** The snapshot loop shared by [CreateTrace] and [CreateLog]. *)
Definition Snapshot (buffer : list TraceEvent.t) (begin_time end_time : Time)
  : list TraceEvent.t :=
  filter (fun event =>
            Time_ge (TraceEvent.event_time event) begin_time
            && Time_lt (TraceEvent.event_time event) end_time = true)
         buffer.

Section WithTimestamp.
Variable TS : TimestampApi.

(** One iteration of the loop of [SetBaseTime]. *)
Definition SetBaseTime_step (st : t) (event : TraceEvent.t) : t :=
  let st :=
    if negb (IsSpecialValue TS (TraceEvent.input_ts event))
    then set_base_ts_ (Z.min (base_ts_ st) (TraceEvent.input_ts event)) st
    else st in
  let st :=
    if negb (IsSpecialValue TS (TraceEvent.packet_ts event))
    then set_base_ts_ (Z.min (base_ts_ st) (TraceEvent.packet_ts event)) st
    else st in
  set_base_time_
    (Z.min (base_time_ st) (ToUnixMicros (TraceEvent.event_time event))) st.

(** Calculate the base timestamp and time. *)
Definition SetBaseTime (st : t) (snapshot : list TraceEvent.t) : t :=
  if decide (base_time_ st = INT64_MAX) then
    let st := fold_left SetBaseTime_step snapshot st in
    let st :=
      if decide (base_time_ st = INT64_MAX) then set_base_time_ 0 st else st in
    if decide (base_ts_ st = INT64_MAX) then set_base_ts_ 0 st else st
  else st.

End WithTimestamp.

Section WithHeap.
Variable H : Heap.

(** [stream_id_map_[id]] *)
Definition stream_id (st : t) (id : Z) : Z * t :=
  let '(v, m) := StringIdMap.op_index H (stream_id_map_ st) id in
  (v, set_stream_id_map_ m st).

(** The constructor: define the zero ids. *)
Definition new : t :=
  let st := mk ∅ ∅ StringIdMap.empty AddressIdMap.empty INT64_MAX INT64_MAX in
  let st := (stream_id st (empty_string H)).2 in
  (packet_data_id st 0).2.

(** [TaskId hop_id{stream_id_map_[event.stream_id], event.packet_ts,
    event.event_type}] *)
Definition hop_id_of (st : t) (event : TraceEvent.t) : TaskId.t * t :=
  let '(sid, st) := stream_id st (TraceEvent.stream_id event) in
  (TaskId.mk sid (TraceEvent.packet_ts event)
             (EventType_to_int (TraceEvent.event_type event)), st).

(** One iteration of the indexing loop of [CreateTrace]. *)
Definition index_event (st : t) (event : TraceEvent.t) : t :=
  if negb (table_at kProfilerPacketEvents (TraceEvent.event_type event)) then st
  else
    let task_id := task_id_of event in
    let '(hop_id, st) := hop_id_of st event in
    let st :=
      if TraceEvent.is_finish event
      then set_hop_events_ (<[hop_id := Some event]> (hop_events_ st)) st
      else st in
    let '(l, st) := task_events_at st task_id in
    set_task_events_ (<[task_id := l ++ [event]]> (task_events_ st)) st.

(** Returns the output event that produced an input packet. *)
Definition FindOutputEvent (st : t) (event : TraceEvent.t)
  : option TraceEvent.t * t :=
  let '(hop_id, st) := hop_id_of st event in
  hop_events_at st hop_id.

(** Construct the StreamTrace for a TraceEvent. *)
Definition BuildStreamTrace (st : t) (event : TraceEvent.t)
    (result : StreamTrace.t) : StreamTrace.t * t :=
  if TraceEvent.is_finish event then
    let '(sid, st) := stream_id st (TraceEvent.stream_id event) in
    let result := StreamTrace.set_stream_id sid result in
    let result :=
      StreamTrace.set_packet_timestamp
        (LogTimestamp st (TraceEvent.packet_ts event)) result in
    (result, st)
  else
    let '(sid, st) := stream_id st (TraceEvent.stream_id event) in
    let result := StreamTrace.set_stream_id sid result in
    let result :=
      StreamTrace.set_packet_timestamp
        (LogTimestamp st (TraceEvent.packet_ts event)) result in
    let result :=
      StreamTrace.set_finish_time
        (LogTime st (TraceEvent.event_time event)) result in
    let '(pid, st) := packet_data_id st (TraceEvent.packet_data_id event) in
    let result := StreamTrace.set_packet_id pid result in
    let '(output_event, st) := FindOutputEvent st event in
    match output_event with
    | Some output_event =>
        (StreamTrace.set_start_time
           (LogTime st (TraceEvent.event_time output_event)) result, st)
    | None => (result, st)
    end.

(** The state of the loop of [BuildCalculatorTrace]. *)
Record BuildLoop : Type := mkBuildLoop {
  bl_start_time : Time;
  bl_finish_time : Time;
  bl_result : CalculatorTrace.t;
  bl_state : t
}.

(** One iteration of the loop of [BuildCalculatorTrace]. *)
Definition BuildCalculatorTrace_step (acc : BuildLoop) (event : TraceEvent.t)
  : BuildLoop :=
  let '(mkBuildLoop start_time finish_time result st) := acc in
  let result :=
    if decide ((length (CalculatorTrace.input_trace result)
                + length (CalculatorTrace.output_trace result))%nat = 0%nat)
    then
      CalculatorTrace.set_thread_id (TraceEvent.thread_id event)
        (CalculatorTrace.set_input_timestamp
           (LogTimestamp st (TraceEvent.input_ts event))
           (CalculatorTrace.set_event_type (TraceEvent.event_type event)
              (CalculatorTrace.set_node_id (TraceEvent.node_id event) result)))
    else result in
  let finish_time :=
    if TraceEvent.is_finish event
    then Time_min finish_time (TraceEvent.event_time event)
    else finish_time in
  let start_time :=
    if TraceEvent.is_finish event
    then start_time
    else Time_min start_time (TraceEvent.event_time event) in
  if table_at kProfilerStreamEvents (TraceEvent.event_type event) then
    let '(s, st) := BuildStreamTrace st event StreamTrace.empty in
    if TraceEvent.is_finish event
    then mkBuildLoop start_time finish_time
           (CalculatorTrace.add_output_trace s result) st
    else mkBuildLoop start_time finish_time
           (CalculatorTrace.add_input_trace s result) st
  else mkBuildLoop start_time finish_time result st.

(** Construct the CalculatorTrace for a set of TraceEvents. *)
Definition BuildCalculatorTrace (st : t) (task_events : list TraceEvent.t)
    (result : CalculatorTrace.t) : CalculatorTrace.t * t :=
  let '(mkBuildLoop start_time finish_time result st) :=
    fold_left BuildCalculatorTrace_step task_events
      (mkBuildLoop InfiniteFuture InfiniteFuture result st) in
  let result :=
    if Time_lt finish_time InfiniteFuture
    then CalculatorTrace.set_finish_time (LogTime st finish_time) result
    else result in
  let result :=
    if Time_lt start_time InfiniteFuture
    then CalculatorTrace.set_start_time (LogTime st start_time) result
    else result in
  (result, st).

Variable TS : TimestampApi.

(** Construct the protobuf log record for a single TraceEvent. *)
Definition BuildEventLog (st : t) (event : TraceEvent.t)
    (result : CalculatorTrace.t) : CalculatorTrace.t * t :=
  let result :=
    if TraceEvent.is_finish event
    then CalculatorTrace.set_finish_time
           (LogTime st (TraceEvent.event_time event)) result
    else CalculatorTrace.set_start_time
           (LogTime st (TraceEvent.event_time event)) result in
  let result := CalculatorTrace.set_node_id (TraceEvent.node_id event) result in
  let result :=
    CalculatorTrace.set_event_type (TraceEvent.event_type event) result in
  let result :=
    if decide (TraceEvent.input_ts event ≠ Unset TS)
    then CalculatorTrace.set_input_timestamp
           (LogTimestamp st (TraceEvent.input_ts event)) result
    else result in
  let result :=
    CalculatorTrace.set_thread_id (TraceEvent.thread_id event) result in
  if table_at kProfilerStreamEvents (TraceEvent.event_type event) then
    if decide (TraceEvent.stream_id event ≠ nullptr) then
      let '(sid, st) := stream_id st (TraceEvent.stream_id event) in
      let stream_trace := StreamTrace.set_stream_id sid StreamTrace.empty in
      let stream_trace :=
        StreamTrace.set_packet_timestamp
          (LogTimestamp st (TraceEvent.packet_ts event)) stream_trace in
      let '(pid, st) := packet_data_id st (TraceEvent.packet_data_id event) in
      let stream_trace := StreamTrace.set_packet_id pid stream_trace in
      if TraceEvent.is_finish event
      then (CalculatorTrace.add_output_trace stream_trace result, st)
      else (CalculatorTrace.add_input_trace stream_trace result, st)
    else (result, st)
  else (result, st).

(** The state of the assembly loop of [CreateTrace]: the keys emitted so
    far in this call, the records added to the result, the builder. *)
Record TraceLoop : Type := mkTraceLoop {
  tl_task_ids : gset TaskId.t;
  tl_traces : list CalculatorTrace.t;
  tl_state : t
}.

(** One iteration of the assembly loop of [CreateTrace]. *)
Definition CreateTrace_step (acc : TraceLoop) (event : TraceEvent.t)
  : TraceLoop :=
  let '(mkTraceLoop task_ids traces st) := acc in
  if negb (table_at kProfilerPacketEvents (TraceEvent.event_type event)) then
    let '(r, st) := BuildEventLog st event CalculatorTrace.empty in
    mkTraceLoop task_ids (traces ++ [r]) st
  else
    let task_id := task_id_of event in
    if decide (task_id ∈ task_ids) then acc
    else
      let task_ids := {[task_id]} ∪ task_ids in
      let '(task_events, st) := task_events_at st task_id in
      let '(r, st) := BuildCalculatorTrace st task_events CalculatorTrace.empty in
      mkTraceLoop task_ids (traces ++ [r]) st.

(** [CreateTrace]: the trace written to [result] and the builder after
    the call. *)
Definition CreateTrace (st : t) (buffer : list TraceEvent.t)
    (begin_time end_time : Time) : GraphTrace.t * t :=
  let snapshot := Snapshot buffer begin_time end_time in
  let st := SetBaseTime TS st snapshot in
  (* Index TraceEvents by task-id and stream-hop-id. *)
  let st := fold_left index_event snapshot st in
  (* Construct the GraphTrace. *)
  let base_time := base_time_ st in
  let base_timestamp := base_ts_ st in
  let '(mkTraceLoop _ traces st) :=
    fold_left CreateTrace_step snapshot (mkTraceLoop ∅ [] st) in
  (GraphTrace.mk (Some base_time) (Some base_timestamp)
                 (GetIdNames (stream_id_map_ st)) traces, st).

(** One iteration of the logging loop of [CreateLog]. *)
Definition CreateLog_step (acc : list CalculatorTrace.t * t)
    (event : TraceEvent.t) : list CalculatorTrace.t * t :=
  let '(traces, st) := acc in
  let '(r, st) := BuildEventLog st event CalculatorTrace.empty in
  (traces ++ [r], st).

(** [CreateLog] *)
Definition CreateLog (st : t) (buffer : list TraceEvent.t)
    (begin_time end_time : Time) : GraphTrace.t * t :=
  let snapshot := Snapshot buffer begin_time end_time in
  let st := SetBaseTime TS st snapshot in
  (* Log each TraceEvent. *)
  let base_time := base_time_ st in
  let base_timestamp := base_ts_ st in
  let '(traces, st) := fold_left CreateLog_step snapshot ([], st) in
  (GraphTrace.mk (Some base_time) (Some base_timestamp)
                 (GetIdNames (stream_id_map_ st)) traces, st).

End WithHeap.

End Impl.


(** * Specification-level definitions

    Runs of lookups, the interners as the constructor of [Impl] leaves
    them, and the invariants the theorems are stated with. *)

(** ** The string interner *)

(** A run of lookups, keeping only the map. *)
Definition string_lookups (H : Heap) (m : StringIdMap.t) (ks : list Z)
  : StringIdMap.t :=
  fold_left (fun m k => (StringIdMap.op_index H m k).2) ks m.

(** The interner as the constructor of [Impl] leaves it. *)
Definition string_interner_init (H : Heap) : StringIdMap.t :=
  (StringIdMap.op_index H StringIdMap.empty (empty_string H)).2.

(** [m'] knows every key of [m], under the same identifier. *)
Definition string_ext (m m' : StringIdMap.t) : Prop :=
  StringIdMap.pointer_id_map_ m ⊆ StringIdMap.pointer_id_map_ m' ∧
  StringIdMap.string_id_map_ m ⊆ StringIdMap.string_id_map_ m'.

(** The pointer cache agrees with the content map. *)
Definition cache_ok (H : Heap) (m : StringIdMap.t) : Prop :=
  ∀ p v, StringIdMap.pointer_id_map_ m !! p = Some v →
         StringIdMap.string_id_map_ m !! deref H p = Some v.

(** The content map is a bijection onto [0, next_id), the empty string
    holding 0, and the counter has not wrapped. *)
Record string_dense (m : StringIdMap.t) : Prop := mk_string_dense {
  sd_range : ∀ s v, StringIdMap.string_id_map_ m !! s = Some v →
                    0 ≤ v < StringIdMap.next_id m;
  sd_onto : ∀ v, 0 ≤ v < StringIdMap.next_id m →
                 ∃ s, StringIdMap.string_id_map_ m !! s = Some v;
  sd_inj : ∀ s1 s2 v, StringIdMap.string_id_map_ m !! s1 = Some v →
                      StringIdMap.string_id_map_ m !! s2 = Some v → s1 = s2;
  sd_zero : StringIdMap.string_id_map_ m !! "" = Some 0;
  sd_bound : StringIdMap.next_id m ≤ INT32_MAX
}.

(** ** The address interner *)

Definition address_lookups (m : AddressIdMap.t) (ks : list Z) : AddressIdMap.t :=
  fold_left (fun m k => (AddressIdMap.op_index m k).2) ks m.

(** The interner as the constructor of [Impl] leaves it. *)
Definition address_interner_init : AddressIdMap.t :=
  (AddressIdMap.op_index AddressIdMap.empty 0).2.

(** The map is a bijection onto [0, next_id), the null address holding 0,
    and the counter has not wrapped. *)
Record address_dense (m : AddressIdMap.t) : Prop := mk_address_dense {
  ad_range : ∀ a v, AddressIdMap.pointer_id_map_ m !! a = Some v →
                    0 ≤ v < AddressIdMap.next_id m;
  ad_onto : ∀ v, 0 ≤ v < AddressIdMap.next_id m →
                 ∃ a, AddressIdMap.pointer_id_map_ m !! a = Some v;
  ad_inj : ∀ a1 a2 v, AddressIdMap.pointer_id_map_ m !! a1 = Some v →
                      AddressIdMap.pointer_id_map_ m !! a2 = Some v → a1 = a2;
  ad_zero : AddressIdMap.pointer_id_map_ m !! nullptr = Some 0;
  ad_bound : AddressIdMap.next_id m ≤ INT32_MAX
}.

(** The identifiers of the real keys (the contents other than the reserved
    empty string) are exactly 1, ..., next_id - 1, one per content. *)
Definition string_ids_dense_from_1 (m : StringIdMap.t) : Prop :=
  (∀ v, 1 ≤ v < StringIdMap.next_id m ↔
        ∃ s, s ≠ "" ∧ StringIdMap.string_id_map_ m !! s = Some v) ∧
  (∀ s1 s2 v, StringIdMap.string_id_map_ m !! s1 = Some v →
              StringIdMap.string_id_map_ m !! s2 = Some v → s1 = s2).

(** The same for the addresses other than the null address. *)
Definition address_ids_dense_from_1 (m : AddressIdMap.t) : Prop :=
  (∀ v, 1 ≤ v < AddressIdMap.next_id m ↔
        ∃ a, a ≠ nullptr ∧ AddressIdMap.pointer_id_map_ m !! a = Some v) ∧
  (∀ a1 a2 v, AddressIdMap.pointer_id_map_ m !! a1 = Some v →
              AddressIdMap.pointer_id_map_ m !! a2 = Some v → a1 = a2).

(** The identifiers a run of lookups returns, in order. *)
Fixpoint string_lookup_ids (H : Heap) (m : StringIdMap.t) (ks : list Z)
  : list Z :=
  match ks with
  | [] => []
  | k :: ks =>
      (StringIdMap.op_index H m k).1
        :: string_lookup_ids H (StringIdMap.op_index H m k).2 ks
  end.

Fixpoint address_lookup_ids (m : AddressIdMap.t) (ks : list Z) : list Z :=
  match ks with
  | [] => []
  | k :: ks =>
      (AddressIdMap.op_index m k).1
        :: address_lookup_ids (AddressIdMap.op_index m k).2 ks
  end.

(** ** The builder *)

(** The two per-kind predicates, on events. *)
Definition is_packet_event (ev : TraceEvent.t) : bool :=
  table_at kProfilerPacketEvents (TraceEvent.event_type ev).

Definition is_stream_event (ev : TraceEvent.t) : bool :=
  table_at kProfilerStreamEvents (TraceEvent.event_type ev).

(** What a call that only logs events may change: the interners grow, the
    two indices and the time base stay as they are. *)
Record log_ext (H : Heap) (st st' : Impl.t) : Prop := mk_log_ext {
  le_task : Impl.task_events_ st' = Impl.task_events_ st;
  le_hop : Impl.hop_events_ st' = Impl.hop_events_ st;
  le_base_ts : Impl.base_ts_ st' = Impl.base_ts_ st;
  le_base_time : Impl.base_time_ st' = Impl.base_time_ st;
  le_strings : string_ext (Impl.stream_id_map_ st) (Impl.stream_id_map_ st');
  le_packets : AddressIdMap.pointer_id_map_ (Impl.packet_data_id_map_ st)
               ⊆ AddressIdMap.pointer_id_map_ (Impl.packet_data_id_map_ st');
  le_cache : cache_ok H (Impl.stream_id_map_ st) →
             cache_ok H (Impl.stream_id_map_ st')
}.

(** What the assembly of an aggregated trace may change: the interners
    grow, the hop index gains null entries for the keys looked up in vain,
    the invocation index gains empty lists; the events held by the two
    indices and the time base stay as they are. *)
Record build_ext (H : Heap) (st st' : Impl.t) : Prop := mk_build_ext {
  be_task : ∀ k, Impl.task_events_ st' !!! k = Impl.task_events_ st !!! k;
  be_hop : ∀ k e, Impl.hop_events_ st' !! k = Some (Some e) ↔
                  Impl.hop_events_ st !! k = Some (Some e);
  be_base_ts : Impl.base_ts_ st' = Impl.base_ts_ st;
  be_base_time : Impl.base_time_ st' = Impl.base_time_ st;
  be_strings : string_ext (Impl.stream_id_map_ st) (Impl.stream_id_map_ st');
  be_packets : AddressIdMap.pointer_id_map_ (Impl.packet_data_id_map_ st)
               ⊆ AddressIdMap.pointer_id_map_ (Impl.packet_data_id_map_ st');
  be_cache : cache_ok H (Impl.stream_id_map_ st) →
             cache_ok H (Impl.stream_id_map_ st')
}.

(** The record [CreateLog] emits for the event [ev], read against the
    builder [st'] the call leaves: times and timestamps relative to its
    base, identifiers as its interners hold them. *)
Record verbatim_record (TS : TimestampApi) (st' : Impl.t)
    (ev : TraceEvent.t) (r : CalculatorTrace.t) : Prop := mk_verbatim_record {
  vr_node_id : CalculatorTrace.node_id r = Some (TraceEvent.node_id ev);
  vr_event_type : CalculatorTrace.event_type r = Some (TraceEvent.event_type ev);
  vr_thread_id : CalculatorTrace.thread_id r = Some (TraceEvent.thread_id ev);
  vr_start_time :
    CalculatorTrace.start_time r =
      if TraceEvent.is_finish ev then None
      else Some (Impl.LogTime st' (TraceEvent.event_time ev));
  vr_finish_time :
    CalculatorTrace.finish_time r =
      if TraceEvent.is_finish ev
      then Some (Impl.LogTime st' (TraceEvent.event_time ev))
      else None;
  vr_input_timestamp :
    CalculatorTrace.input_timestamp r =
      if decide (TraceEvent.input_ts ev = Unset TS) then None
      else Some (Impl.LogTimestamp st' (TraceEvent.input_ts ev));
  vr_transfer :
    if is_stream_event ev && bool_decide (TraceEvent.stream_id ev ≠ nullptr)
    then
      ∃ sid pid,
        StringIdMap.pointer_id_map_ (Impl.stream_id_map_ st')
          !! TraceEvent.stream_id ev = Some sid ∧
        AddressIdMap.pointer_id_map_ (Impl.packet_data_id_map_ st')
          !! TraceEvent.packet_data_id ev = Some pid ∧
        let s :=
          StreamTrace.mk None None
            (Some (Impl.LogTimestamp st' (TraceEvent.packet_ts ev)))
            (Some sid) (Some pid) in
        if TraceEvent.is_finish ev
        then CalculatorTrace.output_trace r = [s] ∧
             CalculatorTrace.input_trace r = []
        else CalculatorTrace.input_trace r = [s] ∧
             CalculatorTrace.output_trace r = []
    else CalculatorTrace.input_trace r = [] ∧
         CalculatorTrace.output_trace r = []
}.

(** Which fields of a verbatim record are present. *)
Record verbatim_presence (TS : TimestampApi)
    (ev : TraceEvent.t) (r : CalculatorTrace.t) : Prop := mk_verbatim_presence {
  vp_start : is_Some (CalculatorTrace.start_time r) ↔
             TraceEvent.is_finish ev = false;
  vp_finish : is_Some (CalculatorTrace.finish_time r) ↔
              TraceEvent.is_finish ev = true;
  vp_not_both : ¬ (is_Some (CalculatorTrace.start_time r) ∧
                   is_Some (CalculatorTrace.finish_time r));
  vp_input_timestamp : is_Some (CalculatorTrace.input_timestamp r) ↔
                       TraceEvent.input_ts ev ≠ Unset TS;
  vp_at_most_one :
    (length (CalculatorTrace.input_trace r)
     + length (CalculatorTrace.output_trace r) ≤ 1)%nat;
  vp_transfer_present :
    (length (CalculatorTrace.input_trace r)
     + length (CalculatorTrace.output_trace r) = 1)%nat ↔
    (is_stream_event ev = true ∧ TraceEvent.stream_id ev ≠ nullptr);
  vp_transfer_side :
    (TraceEvent.is_finish ev = true → CalculatorTrace.input_trace r = []) ∧
    (TraceEvent.is_finish ev = false → CalculatorTrace.output_trace r = []);
  vp_transfer_fields :
    ∀ s, s ∈ CalculatorTrace.input_trace r ++ CalculatorTrace.output_trace r →
         is_Some (StreamTrace.stream_id s) ∧
         is_Some (StreamTrace.packet_timestamp s) ∧
         is_Some (StreamTrace.packet_id s) ∧
         StreamTrace.start_time s = None ∧
         StreamTrace.finish_time s = None
}.

(** The builder with its two indices replaced. *)
Definition with_indices (tasks : gmap TaskId.t (list TraceEvent.t))
    (hops : gmap TaskId.t (option TraceEvent.t)) (st : Impl.t) : Impl.t :=
  Impl.set_hop_events_ hops (Impl.set_task_events_ tasks st).

(** A run of [CreateLog] calls, each with its buffer and window. *)
Definition verbatim_calls (H : Heap) (TS : TimestampApi) (st : Impl.t)
    (calls : list (list TraceEvent.t * Time * Time)) : Impl.t :=
  fold_left (fun st c => (Impl.CreateLog H TS st c.1.1 c.1.2 c.2).2) calls st.

(** The builder after [SetBaseTime] and the indexing loop of [CreateTrace],
    before any record is assembled. *)
Definition indexed_state (H : Heap) (TS : TimestampApi) (st : Impl.t)
    (buffer : list TraceEvent.t) (begin_time end_time : Time) : Impl.t :=
  let snapshot := Impl.Snapshot buffer begin_time end_time in
  fold_left (Impl.index_event H) snapshot (Impl.SetBaseTime TS st snapshot).

(** ** The time base *)

(** The wall times of a snapshot, in microseconds. *)
Definition wall_times (snapshot : list TraceEvent.t) : list Z :=
  (fun ev => ToUnixMicros (TraceEvent.event_time ev)) <$> snapshot.

(** The input and packet timestamps of a snapshot that are not special
    values. *)
Definition logical_times (TS : TimestampApi) (snapshot : list TraceEvent.t)
  : list Z :=
  snapshot ≫= fun ev =>
    (if IsSpecialValue TS (TraceEvent.input_ts ev)
     then [] else [TraceEvent.input_ts ev])
    ++ (if IsSpecialValue TS (TraceEvent.packet_ts ev)
        then [] else [TraceEvent.packet_ts ev]).

Definition is_minimum (m : Z) (l : list Z) : Prop :=
  m ∈ l ∧ ∀ x, x ∈ l → m ≤ x.

(** The calls of the public interface of [TraceBuilder]. *)
Inductive Call : Type :=
  | CallCreateTrace (buffer : list TraceEvent.t) (begin_time end_time : Time)
  | CallCreateLog (buffer : list TraceEvent.t) (begin_time end_time : Time)
  | CallClear.

Definition run_call (H : Heap) (TS : TimestampApi) (st : Impl.t) (c : Call)
  : Impl.t :=
  match c with
  | CallCreateTrace buffer begin_time end_time =>
      (Impl.CreateTrace H TS st buffer begin_time end_time).2
  | CallCreateLog buffer begin_time end_time =>
      (Impl.CreateLog H TS st buffer begin_time end_time).2
  | CallClear => Impl.Clear st
  end.

Definition run_calls (H : Heap) (TS : TimestampApi) (st : Impl.t)
    (cs : list Call) : Impl.t :=
  fold_left (run_call H TS) cs st.

(** The snapshot a call takes. *)
Definition call_snapshot (c : Call) : list TraceEvent.t :=
  match c with
  | CallCreateTrace buffer begin_time end_time
  | CallCreateLog buffer begin_time end_time =>
      Impl.Snapshot buffer begin_time end_time
  | CallClear => []
  end.

(** ** Aggregated records *)

(** The identity fields of a record. *)
Definition identity_of (r : CalculatorTrace.t)
  : option Z * option EventType * option Z * option Z :=
  (CalculatorTrace.node_id r, CalculatorTrace.event_type r,
   CalculatorTrace.input_timestamp r, CalculatorTrace.thread_id r).

(** [ev] is an event of the invocation [k]: it carries packet detail and
    its (node, input timestamp, kind) is [k]. *)
Definition has_key (k : TaskId.t) (ev : TraceEvent.t) : Prop :=
  is_packet_event ev = true ∧ Impl.task_id_of ev = k.

#[global] Instance has_key_dec k ev : Decision (has_key k ev).
Proof. unfold has_key. apply _. Defined.

(** An event of the snapshot gives rise to a record where it stands: when
    it carries no packet detail, or when no earlier event of the snapshot
    belongs to the same invocation. *)
Definition emitted_here (earlier : list TraceEvent.t) (ev : TraceEvent.t)
  : Prop :=
  is_packet_event ev = false ∨
  Forall (fun ev' => ¬ has_key (Impl.task_id_of ev) ev') earlier.

#[global] Instance emitted_here_dec earlier ev : Decision (emitted_here earlier ev).
Proof. unfold emitted_here. apply _. Defined.

(** The events of [rest] that give rise to a record, [earlier] being the
    events of the snapshot before them. *)
Fixpoint emission_plan_from (earlier rest : list TraceEvent.t)
  : list TraceEvent.t :=
  match rest with
  | [] => []
  | ev :: rest =>
      (if decide (emitted_here earlier ev) then [ev] else [])
      ++ emission_plan_from (earlier ++ [ev]) rest
  end.

Definition emission_plan (snapshot : list TraceEvent.t) : list TraceEvent.t :=
  emission_plan_from [] snapshot.

(** The record of an aggregated trace that the event [ev] gives rise to:
    for an event with packet detail, the record built from the whole list
    the invocation index holds under its key once the snapshot is indexed
    ([st2]); otherwise the standalone record of the event.  The builder
    [sti] the record is built on is [st2] up to what assembling earlier
    records may change. *)
Definition aggregated_record (H : Heap) (TS : TimestampApi) (st2 : Impl.t)
    (ev : TraceEvent.t) (r : CalculatorTrace.t) : Prop :=
  ∃ sti, build_ext H st2 sti ∧
    r = if is_packet_event ev
        then (Impl.BuildCalculatorTrace H sti
                (Impl.task_events_ st2 !!! Impl.task_id_of ev)
                CalculatorTrace.empty).1
        else (Impl.BuildEventLog H TS sti ev CalculatorTrace.empty).1.

(** ** Transfers *)

(** The TransferKey of an event, (interned stream, packet timestamp, kind),
    as the builder [st] computes it. *)
Definition transfer_key (H : Heap) (st : Impl.t) (ev : TraceEvent.t) : TaskId.t :=
  (Impl.hop_id_of H st ev).1.

(** The producer event the hop index holds under a key, if any. *)
Definition hop_lookup (st : Impl.t) (k : TaskId.t) : option TraceEvent.t :=
  default None (Impl.hop_events_ st !! k).

(** The events the indexing loop writes to the hop index: the finish-side
    events with packet detail. *)
Definition is_producer (ev : TraceEvent.t) : Prop :=
  is_packet_event ev = true ∧ TraceEvent.is_finish ev = true.

#[global] Instance is_producer_dec ev : Decision (is_producer ev).
Proof. unfold is_producer. apply _. Defined.


(** ** Further notions *)

(** The pointers of an event that [BuildEventLog] looks up are in the two
    pointer caches of the builder. *)
Definition pointers_known (st : Impl.t) (ev : TraceEvent.t) : Prop :=
  is_stream_event ev = true → TraceEvent.stream_id ev ≠ nullptr →
  is_Some (StringIdMap.pointer_id_map_ (Impl.stream_id_map_ st)
             !! TraceEvent.stream_id ev) ∧
  is_Some (AddressIdMap.pointer_id_map_ (Impl.packet_data_id_map_ st)
             !! TraceEvent.packet_data_id ev).

(** ** The times of an aggregated record *)

(** The instants of the start-side ([finish = false]) or finish-side
    events of a list. *)
Definition side_times (finish : bool) (l : list TraceEvent.t) : list Time :=
  TraceEvent.event_time
    <$> filter (fun ev => TraceEvent.is_finish ev = finish) l.

(** [t] is an instant of [ts] that none of [ts] precedes. *)
Definition is_earliest (t : Time) (ts : list Time) : Prop :=
  t ∈ ts ∧ ∀ x, x ∈ ts → Time_lt x t = false.

(** The earliest instant of [ts], or [absl::InfiniteFuture()] when there
    is none. *)
Definition earliest_or_never (t : Time) (ts : list Time) : Prop :=
  (ts = [] ∧ t = InfiniteFuture) ∨ is_earliest t ts.

(** ** The transfer entries of an aggregated record *)

(** The events of a list that give rise to a transfer entry of one side:
    those of a kind with stream-hop sub-records, start-side for the input
    list ([finish = false]), finish-side for the output list. *)
Definition transfer_events (finish : bool) (l : list TraceEvent.t)
  : list TraceEvent.t :=
  filter (fun ev => is_stream_event ev = true ∧ TraceEvent.is_finish ev = finish)
         l.

(** The entry of the input list built for a start-side event. *)
Record input_transfer (st : Impl.t) (ev : TraceEvent.t) (t : StreamTrace.t)
  : Prop := mk_input_transfer {
  it_stream_id : is_Some (StreamTrace.stream_id t);
  it_packet_timestamp :
    StreamTrace.packet_timestamp t
    = Some (Impl.LogTimestamp st (TraceEvent.packet_ts ev));
  it_finish_time :
    StreamTrace.finish_time t
    = Some (Impl.LogTime st (TraceEvent.event_time ev));
  it_packet_id : is_Some (StreamTrace.packet_id t)
}.

(** The entry of the output list built for a finish-side event. *)
Record output_transfer (st : Impl.t) (ev : TraceEvent.t) (t : StreamTrace.t)
  : Prop := mk_output_transfer {
  ot_stream_id : is_Some (StreamTrace.stream_id t);
  ot_packet_timestamp :
    StreamTrace.packet_timestamp t
    = Some (Impl.LogTimestamp st (TraceEvent.packet_ts ev));
  ot_start_time : StreamTrace.start_time t = None;
  ot_finish_time : StreamTrace.finish_time t = None;
  ot_packet_id : StreamTrace.packet_id t = None
}.

(** ** Counting records *)

(** The invocation keys of the events with packet detail of a list. *)
Definition invocation_keys (l : list TraceEvent.t) : gset TaskId.t :=
  list_to_set (Impl.task_id_of <$> filter (fun ev => is_packet_event ev = true) l).

(** ** Buffers in time order *)

(** The events of a buffer stand in the order of their wall times: no
    event is earlier than one before it. *)
Fixpoint time_ordered (buffer : list TraceEvent.t) : Prop :=
  match buffer with
  | [] => True
  | ev :: rest =>
      Forall (fun ev' => Time_lt (TraceEvent.event_time ev')
                                 (TraceEvent.event_time ev) = false) rest
      ∧ time_ordered rest
  end.

(** ** TraceBuilder::Impl::TimestampAfter

    The function uses three more operations of [mediapipe::Timestamp] that
    [timestamp.h] defines, outside the sources at hand: the constant
    [Timestamp::Min()], the comparison [operator<] (through [std::max]) and
    the addition of 1.  They are parameters of the model.  A timestamp is
    its [int64] value; [Timestamp_add_one] yields [None] where the addition
    does not return a timestamp. *)

Record TimestampOrder : Type := mkTimestampOrder {
  Timestamp_Min : Z;
  Timestamp_lt : Z → Z → bool;
  Timestamp_add_one : Z → option Z
}.

(** [std::max(a, b)]: returns [b] only when [a < b]. *)
Definition Timestamp_max (TO : TimestampOrder) (a b : Z) : Z :=
  if Timestamp_lt TO a b then b else a.

(** The loop of [TimestampAfter]: it leaves at the first event at or after
    [begin_time]. *)
Fixpoint TimestampAfter_loop (TO : TimestampOrder) (buffer : list TraceEvent.t)
    (begin_time : Time) (max_ts : Z) : Z :=
  match buffer with
  | [] => max_ts
  | event :: rest =>
      if Time_ge (TraceEvent.event_time event) begin_time then max_ts
      else TimestampAfter_loop TO rest begin_time
             (Timestamp_max TO max_ts (TraceEvent.input_ts event))
  end.

Definition TimestampAfter (TO : TimestampOrder) (buffer : list TraceEvent.t)
    (begin_time : Time) : option Z :=
  Timestamp_add_one TO
    (TimestampAfter_loop TO buffer begin_time (Timestamp_Min TO)).

(** ** Builders whose stream ids decode

    The stream names of a graph form a finite set [S]; as long as it has
    fewer than 2^31 names the 32-bit counter of the interner cannot run
    out, whatever the number of lookups. *)

(** The interner is sound for the names of [S]: the pointer cache agrees
    with the content map, the content map is a bijection onto
    [0, next_id), it holds names of [S] only, and [next_id] counts them. *)
Record interner_ok (H : Heap) (S : gset string) (m : StringIdMap.t)
  : Prop := mk_interner_ok {
  io_cache : cache_ok H m;
  io_dense : string_dense m;
  io_names : dom (StringIdMap.string_id_map_ m) ⊆ S;
  io_count :
    StringIdMap.next_id m = Z.of_nat (size (StringIdMap.string_id_map_ m))
}.

(** The event names no stream, or a stream of [S]. *)
Definition stream_named (H : Heap) (S : gset string) (ev : TraceEvent.t)
  : Prop :=
  TraceEvent.stream_id ev = nullptr ∨ deref H (TraceEvent.stream_id ev) ∈ S.

(** Every event the invocation index holds names no stream or one of [S]. *)
Definition tasks_named (H : Heap) (S : gset string) (st : Impl.t) : Prop :=
  ∀ k ev, ev ∈ Impl.task_events_ st !!! k → stream_named H S ev.

(** The name the vector of stream names holds for an event: the reserved
    empty name for a null stream pointer. *)
Definition stream_name_of (H : Heap) (ev : TraceEvent.t) : string :=
  if decide (TraceEvent.stream_id ev = nullptr) then ""
  else deref H (TraceEvent.stream_id ev).

(** ** Builders whose invocation index is keyed

    Every event the invocation index holds stands under its own key; the
    indexing loop of [CreateTrace] files an event under
    [TaskId{node_id, input_ts, event_type}] and nothing else writes the
    index. *)
Definition tasks_keyed (st : Impl.t) : Prop :=
  ∀ k ev, ev ∈ Impl.task_events_ st !!! k → has_key k ev.

(** ** Builders whose packet ids identify packets

    The packet payloads alive while a builder is in use have addresses in a
    finite set [A]; as long as it has fewer than 2^31 addresses the counter
    of the address interner cannot run out. *)
Record address_ok (A : gset Z) (m : AddressIdMap.t) : Prop := mk_address_ok {
  ao_dense : address_dense m;
  ao_addresses : dom (AddressIdMap.pointer_id_map_ m) ⊆ A;
  ao_count :
    AddressIdMap.next_id m = Z.of_nat (size (AddressIdMap.pointer_id_map_ m))
}.

(** The transfer entries of a record, of both sides. *)
Definition transfers (r : CalculatorTrace.t) : list StreamTrace.t :=
  CalculatorTrace.input_trace r ++ CalculatorTrace.output_trace r.

(** The number of transfer entries of a list of records. *)
Definition total_transfers (rs : list CalculatorTrace.t) : nat :=
  sum_list_with (fun r => length (transfers r)) rs.

(** The events of [l] of a kind with stream-hop sub-records whose
    invocation key is one of [K]. *)
Definition stream_events_of (K : gset TaskId.t) (l : list TraceEvent.t)
  : list TraceEvent.t :=
  filter (fun ev => is_stream_event ev = true ∧ Impl.task_id_of ev ∈ K) l.

(** ** Builders that answer alike *)

(** [b] holds what [a] holds under every key of the two indices, and has
    the bases of [a]. *)
Record answers_as (a b : Impl.t) : Prop := mk_answers_as {
  aa_task : ∀ k, Impl.task_events_ b !!! k = Impl.task_events_ a !!! k;
  aa_hop : ∀ k, hop_lookup b k = hop_lookup a k;
  aa_base_ts : Impl.base_ts_ b = Impl.base_ts_ a;
  aa_base_time : Impl.base_time_ b = Impl.base_time_ a
}.

(** The interners of [b] hold every entry of those of [a]. *)
Definition knows (b a : Impl.t) : Prop :=
  string_ext (Impl.stream_id_map_ a) (Impl.stream_id_map_ b) ∧
  AddressIdMap.pointer_id_map_ (Impl.packet_data_id_map_ a)
  ⊆ AddressIdMap.pointer_id_map_ (Impl.packet_data_id_map_ b).

(** [b'] has the interners of [b]. *)
Definition same_interners (b b' : Impl.t) : Prop :=
  Impl.stream_id_map_ b' = Impl.stream_id_map_ b ∧
  Impl.packet_data_id_map_ b' = Impl.packet_data_id_map_ b.

(** ** Further data for the examples *)

(** A timestamp interface for the examples: timestamps compare by value,
    [Timestamp::Min()] is the least value above the three least [int64]
    values, and 1 is added where the sum is an [int64]. *)
Definition example_timestamp_order : TimestampOrder :=
  mkTimestampOrder (INT64_MIN + 3)
    (fun a b => bool_decide (a < b))
    (fun v => if decide (v < INT64_MAX) then Some (v + 1) else None).

(** The names of the example heap. *)
Definition example_names : gset string := {[ ""; "s1"; "s2" ]}.

(** The payload addresses of the example buffer. *)
Definition example_addresses : gset Z := {[ 0; 4096; 8192 ]}.


(** ** A concrete heap and the timestamp constants, for examples *)

Module Examples.

(** Addresses 16, 32, 48 and 64 hold the strings "", "s1", "s2" and a
    second copy of "s1". *)
Definition example_deref (p : Z) : string :=
  if decide (p = 32) then "s1"
  else if decide (p = 48) then "s2"
  else if decide (p = 64) then "s1"
  else "".

Definition example_heap : Heap :=
  mkHeap example_deref 16 eq_refl ltac:(discriminate).

(** A timestamp interface for the examples: [Unset()] is the least [int64],
    and the special values are the three least and the three greatest
    [int64] values. *)
Definition example_timestamps : TimestampApi :=
  mkTimestampApi INT64_MIN
    (fun v => bool_decide (v > INT64_MAX - 3) || bool_decide (v < INT64_MIN + 3)).

(** The buffer of a small graph run: node 1 opens at 100 and sends a packet
    on "s1" at 105; node 2 receives it at 110 (through a second pointer to
    the same name) and finishes at 120. *)
Definition open_start : TraceEvent.t :=
  TraceEvent.mk (UnixMicros 100) OPEN false 0 INT64_MIN 1 0 7 0.
Definition open_send : TraceEvent.t :=
  TraceEvent.mk (UnixMicros 105) OPEN true 0 0 1 32 7 4096.
Definition process_receive : TraceEvent.t :=
  TraceEvent.mk (UnixMicros 110) PROCESS false 0 0 2 64 8 4096.
Definition process_send : TraceEvent.t :=
  TraceEvent.mk (UnixMicros 120) PROCESS true 0 0 2 48 8 8192.

Definition example_buffer : list TraceEvent.t :=
  [open_start; open_send; process_receive; process_send].

(** An event logged before the others, seen by a later call only. *)
Definition early_ready : TraceEvent.t :=
  TraceEvent.mk (UnixMicros 40) READY_FOR_PROCESS false INT64_MIN INT64_MIN
                1 0 7 0.

(** One GPU task of node 1: started on thread 7, finished on thread 9. *)
Definition gpu_start : TraceEvent.t :=
  TraceEvent.mk (UnixMicros 100) GPU_TASK false 0 INT64_MIN 1 0 7 0.
Definition gpu_finish : TraceEvent.t :=
  TraceEvent.mk (UnixMicros 130) GPU_TASK true 0 INT64_MIN 1 0 9 0.

(** A later event of the invocation of [open_start] and [open_send], seen
    by a second window only. *)
Definition open_late : TraceEvent.t :=
  TraceEvent.mk (UnixMicros 210) OPEN true 0 5 1 48 7 8192.

(** The invocation key of the [OPEN] events of node 1. *)
Definition open_key : TaskId.t := TaskId.mk 1 0 1.


(** A producer and a start-side consumer of one packet: node 1 sends on
    "s1" at 105 while processing, node 2 receives it at 110 through a
    second pointer to the same name. *)
Definition process_producer : TraceEvent.t :=
  TraceEvent.mk (UnixMicros 105) PROCESS true 0 0 1 32 7 4096.

End Examples.

Import Examples.

(** * Facts about the machine integers *)

Lemma int32_small (z : Z) : - 2 ^ 31 ≤ z < 2 ^ 31 → int32 z = z.
Proof.
  intros Hz. unfold int32, wrap.
  rewrite Z.mod_small by lia. lia.
Qed.

Lemma int64_small (z : Z) : - 2 ^ 63 ≤ z < 2 ^ 63 → int64 z = z.
Proof.
  intros Hz. unfold int64, wrap.
  rewrite Z.mod_small by lia. lia.
Qed.

(** * The string interner *)

Section StringIdMapFacts.
Variable H : Heap.

Import StringIdMap.

Local Abbreviation op_index := (StringIdMap.op_index H).
Local Abbreviation string_lookups := (string_lookups H).
Local Abbreviation cache_ok := (cache_ok H).
Local Abbreviation string_interner_init := (string_interner_init H).

Lemma string_ext_refl m : string_ext m m.
Proof. split; reflexivity. Qed.

Lemma string_ext_trans m1 m2 m3 :
  string_ext m1 m2 → string_ext m2 m3 → string_ext m1 m3.
Proof. intros [? ?] [? ?]. split; etrans; eauto. Qed.

Lemma op_index_null m : op_index m nullptr = (0, m).
Proof. unfold op_index. by rewrite decide_True. Qed.

(** The four ways through [operator[]]. *)
Lemma op_index_cases m p :
  (p = nullptr ∧ op_index m p = (0, m)) ∨
  (p ≠ nullptr ∧ ∃ v, pointer_id_map_ m !! p = Some v ∧ op_index m p = (v, m)) ∨
  (p ≠ nullptr ∧ pointer_id_map_ m !! p = None ∧
   ∃ v, string_id_map_ m !! deref H p = Some v ∧
        op_index m p =
          (v, mk (<[p := v]> (pointer_id_map_ m)) (string_id_map_ m) (next_id m))) ∨
  (p ≠ nullptr ∧ pointer_id_map_ m !! p = None ∧
   string_id_map_ m !! deref H p = None ∧
   op_index m p =
     (next_id m,
      mk (<[p := next_id m]> (pointer_id_map_ m))
         (<[deref H p := next_id m]> (string_id_map_ m))
         (int32 (next_id m + 1)))).
Proof.
  unfold op_index. destruct (decide (p = nullptr)) as [->|Hp]; [by left|].
  right. destruct (pointer_id_map_ m !! p) as [v|] eqn:Hc.
  { left. eauto. }
  right. destruct (string_id_map_ m !! deref H p) as [v|] eqn:Hs.
  { left. split; [done|]. split; [done|]. by exists v. }
  right. done.
Qed.

Lemma op_index_ext m p : string_ext m (op_index m p).2.
Proof.
  destruct (op_index_cases m p) as
    [[_ ->]|[(_ & v & _ & ->)|[(_ & Hc & v & _ & ->)|(_ & Hc & Hs & ->)]]];
    simpl; try apply string_ext_refl.
  - split; simpl; [by apply insert_subseteq|done].
  - split; simpl; by apply insert_subseteq.
Qed.

Lemma op_index_cache_ok m p : cache_ok m → cache_ok (op_index m p).2.
Proof.
  intros Hok.
  destruct (op_index_cases m p) as
    [[_ ->]|[(_ & v & _ & ->)|[(_ & Hc & v & Hs & ->)|(_ & Hc & Hs & ->)]]];
    simpl; try done.
  - intros q w. simpl. rewrite lookup_insert.
    case_decide; [naive_solver|apply Hok].
  - intros q w. simpl. rewrite lookup_insert.
    case_decide as Hq.
    + intros [= <-]. subst q. by rewrite lookup_insert_eq.
    + intros Hq'. pose proof (Hok _ _ Hq') as Hs'.
      rewrite lookup_insert_ne; [done|]. intros E. congruence.
Qed.

(** After a lookup of a non-null pointer, both maps hold the result. *)
Lemma op_index_result m p :
  cache_ok m → p ≠ nullptr →
  pointer_id_map_ (op_index m p).2 !! p = Some (op_index m p).1 ∧
  string_id_map_ (op_index m p).2 !! deref H p = Some (op_index m p).1.
Proof.
  intros Hok Hp.
  destruct (op_index_cases m p) as
    [[? _]|[(_ & v & Hc & ->)|[(_ & Hc & v & Hs & ->)|(_ & Hc & Hs & ->)]]];
    simpl; try done.
  - split; [done|]. by apply Hok.
  - by rewrite lookup_insert_eq.
  - by rewrite !lookup_insert_eq.
Qed.

(** A content that has an identifier keeps it in every later map. *)
Lemma op_index_stable m p v :
  cache_ok m → p ≠ nullptr →
  string_id_map_ m !! deref H p = Some v →
  (op_index m p).1 = v.
Proof.
  intros Hok Hp Hs.
  destruct (op_index_cases m p) as
    [[? _]|[(_ & w & Hc & ->)|[(_ & Hc & w & Hs' & ->)|(_ & Hc & Hs' & ->)]]];
    simpl; try done.
  - apply Hok in Hc. congruence.
  - congruence.
  - congruence.
Qed.

Lemma string_lookups_app m ks1 ks2 :
  string_lookups m (ks1 ++ ks2) = string_lookups (string_lookups m ks1) ks2.
Proof. apply fold_left_app. Qed.

Lemma string_lookups_ext m ks : string_ext m (string_lookups m ks).
Proof.
  revert m. induction ks as [|k ks IH]; intros m; simpl.
  - apply string_ext_refl.
  - eapply string_ext_trans; [apply op_index_ext|apply IH].
Qed.

Lemma string_lookups_cache_ok m ks :
  cache_ok m → cache_ok (string_lookups m ks).
Proof.
  revert m. induction ks as [|k ks IH]; intros m Hok; simpl; [done|].
  apply IH. by apply op_index_cache_ok.
Qed.

Lemma op_index_dense m p :
  string_dense m → next_id m < INT32_MAX →
  string_dense (op_index m p).2 ∧
  next_id m ≤ next_id (op_index m p).2 ≤ next_id m + 1.
Proof.
  intros Hd Hb.
  destruct (op_index_cases m p) as
    [[_ ->]|[(_ & v & _ & ->)|[(_ & Hc & v & Hs & ->)|(_ & Hc & Hs & ->)]]];
    simpl; try (split; [done|lia]).
  - split; [|lia]. destruct Hd. by constructor.
  - destruct Hd as [Hr Ho Hi Hz Hbd].
    assert (0 ≤ next_id m).
    { apply Hr in Hz. lia. }
    assert (Hn : int32 (next_id m + 1) = next_id m + 1).
    { apply int32_small. unfold INT32_MAX in *. lia. }
    rewrite Hn. split; [|lia].
    constructor; simpl.
    + intros s v. rewrite lookup_insert. case_decide.
      * intros [= <-]. lia.
      * intros Hv. apply Hr in Hv. lia.
    + intros v Hv. destruct (decide (v = next_id m)) as [->|Hne].
      * exists (deref H p). by rewrite lookup_insert_eq.
      * destruct (Ho v) as [s Hs']; [lia|]. exists s.
        rewrite lookup_insert_ne; [done|]. intros <-. congruence.
    + intros s1 s2 v. rewrite !lookup_insert.
      repeat case_decide; subst; try done.
      * intros [= <-] Hv. apply Hr in Hv. lia.
      * intros Hv [= <-]. apply Hr in Hv. lia.
      * apply Hi.
    + rewrite lookup_insert_ne; [done|]. intros E. rewrite E in Hs. congruence.
    + lia.
Qed.

Lemma string_lookups_dense m ks :
  string_dense m → next_id m + Z.of_nat (length ks) ≤ INT32_MAX →
  string_dense (string_lookups m ks).
Proof.
  revert m. induction ks as [|k ks IH]; intros m Hd Hb; simpl in *; [done|].
  destruct (op_index_dense m k Hd) as [Hd' Hn]; [lia|].
  apply IH; [done|lia].
Qed.

Lemma string_interner_init_eq :
  string_interner_init =
    mk {[empty_string H := 0]} {["" := 0]} 1.
Proof.
  unfold string_interner_init, op_index, StringIdMap.empty.
  rewrite decide_False by apply empty_string_nonnull.
  simpl. rewrite lookup_empty. rewrite lookup_empty.
  rewrite empty_string_content. reflexivity.
Qed.

Lemma string_interner_init_cache_ok : cache_ok string_interner_init.
Proof.
  rewrite string_interner_init_eq. intros p v. simpl.
  rewrite lookup_singleton. case_decide; [|done].
  intros [= <-]. subst p. rewrite empty_string_content.
  by rewrite lookup_singleton_eq.
Qed.

Lemma string_interner_init_dense : string_dense string_interner_init.
Proof.
  rewrite string_interner_init_eq. constructor; simpl.
  - intros s v. rewrite lookup_singleton. case_decide; [|done].
    intros [= <-]. lia.
  - intros v Hv. exists "". rewrite lookup_singleton_eq. f_equal. lia.
  - intros s1 s2 v. rewrite !lookup_singleton.
    repeat case_decide; congruence.
  - by rewrite lookup_singleton_eq.
  - unfold INT32_MAX. lia.
Qed.

End StringIdMapFacts.

(** * The address interner *)

Section AddressIdMapFacts.

Import AddressIdMap.

Lemma address_op_index_cases m a :
  (∃ v, pointer_id_map_ m !! a = Some v ∧ op_index m a = (v, m)) ∨
  (pointer_id_map_ m !! a = None ∧
   op_index m a =
     (next_id m,
      mk (<[a := next_id m]> (pointer_id_map_ m)) (int32 (next_id m + 1)))).
Proof.
  unfold op_index. destruct (pointer_id_map_ m !! a) as [v|] eqn:Hc.
  - left. eauto.
  - right. done.
Qed.

Lemma address_op_index_ext m a :
  pointer_id_map_ m ⊆ pointer_id_map_ (op_index m a).2.
Proof.
  destruct (address_op_index_cases m a) as [(v & _ & ->)|(Hc & ->)]; simpl.
  - done.
  - by apply insert_subseteq.
Qed.

Lemma address_op_index_result m a :
  pointer_id_map_ (op_index m a).2 !! a = Some (op_index m a).1.
Proof.
  destruct (address_op_index_cases m a) as [(v & Hc & ->)|(Hc & ->)]; simpl.
  - done.
  - by rewrite lookup_insert_eq.
Qed.

Lemma address_op_index_stable m a v :
  pointer_id_map_ m !! a = Some v → op_index m a = (v, m).
Proof. intros Hc. unfold op_index. by rewrite Hc. Qed.

Lemma address_lookups_ext m ks :
  pointer_id_map_ m ⊆ pointer_id_map_ (address_lookups m ks).
Proof.
  revert m. induction ks as [|k ks IH]; intros m; simpl; [done|].
  etrans; [apply address_op_index_ext|apply IH].
Qed.

Lemma address_op_index_dense m a :
  address_dense m → next_id m < INT32_MAX →
  address_dense (op_index m a).2 ∧
  next_id m ≤ next_id (op_index m a).2 ≤ next_id m + 1.
Proof.
  intros Hd Hb.
  destruct (address_op_index_cases m a) as [(v & _ & ->)|(Hc & ->)]; simpl.
  { split; [done|lia]. }
  destruct Hd as [Hr Ho Hi Hz Hbd].
  assert (0 ≤ next_id m).
  { apply Hr in Hz. lia. }
  assert (Hn : int32 (next_id m + 1) = next_id m + 1).
  { apply int32_small. unfold INT32_MAX in *. lia. }
  rewrite Hn. split; [|lia].
  constructor; simpl.
  - intros b v. rewrite lookup_insert. case_decide.
    + intros [= <-]. lia.
    + intros Hv. apply Hr in Hv. lia.
  - intros v Hv. destruct (decide (v = next_id m)) as [->|Hne].
    + exists a. by rewrite lookup_insert_eq.
    + destruct (Ho v) as [b Hb']; [lia|]. exists b.
      rewrite lookup_insert_ne; [done|]. intros <-. congruence.
  - intros a1 a2 v. rewrite !lookup_insert.
    repeat case_decide; subst; try done.
    + intros [= <-] Hv. apply Hr in Hv. lia.
    + intros Hv [= <-]. apply Hr in Hv. lia.
    + apply Hi.
  - rewrite lookup_insert_ne; [done|]. intros E. rewrite E in Hc. congruence.
  - lia.
Qed.

Lemma address_lookups_dense m ks :
  address_dense m → next_id m + Z.of_nat (length ks) ≤ INT32_MAX →
  address_dense (address_lookups m ks).
Proof.
  revert m. induction ks as [|k ks IH]; intros m Hd Hb; simpl in *; [done|].
  destruct (address_op_index_dense m k Hd) as [Hd' Hn]; [lia|].
  apply IH; [done|lia].
Qed.

Lemma address_interner_init_eq :
  address_interner_init = mk {[nullptr := 0]} 1.
Proof. reflexivity. Qed.

Lemma address_interner_init_dense : address_dense address_interner_init.
Proof.
  rewrite address_interner_init_eq. constructor; simpl.
  - intros s v. rewrite lookup_singleton. case_decide; [|done].
    intros [= <-]. lia.
  - intros v Hv. exists nullptr. rewrite lookup_singleton_eq. f_equal. lia.
  - intros s1 s2 v. rewrite !lookup_singleton.
    repeat case_decide; congruence.
  - by rewrite lookup_singleton_eq.
  - unfold INT32_MAX. lia.
Qed.

End AddressIdMapFacts.

(** * Interner stability and density *)

Lemma string_dense_from_1 (m : StringIdMap.t) :
  string_dense m → string_ids_dense_from_1 m.
Proof.
  intros [Hr Ho Hi Hz Hb]. split; [|done].
  intros v. split.
  - intros Hv. destruct (Ho v) as [s Hs]; [lia|].
    exists s. split; [|done]. intros ->. rewrite Hz in Hs. injection Hs. lia.
  - intros (s & Hne & Hs). pose proof (Hr _ _ Hs).
    destruct (decide (v = 0)) as [->|]; [|lia].
    by rewrite (Hi _ _ _ Hs Hz) in Hne.
Qed.

Lemma address_dense_from_1 (m : AddressIdMap.t) :
  address_dense m → address_ids_dense_from_1 m.
Proof.
  intros [Hr Ho Hi Hz Hb]. split; [|done].
  intros v. split.
  - intros Hv. destruct (Ho v) as [a Ha]; [lia|].
    exists a. split; [|done]. intros ->. rewrite Hz in Ha. injection Ha. lia.
  - intros (a & Hne & Ha). pose proof (Hr _ _ Ha).
    destruct (decide (v = 0)) as [->|]; [|lia].
    by rewrite (Hi _ _ _ Ha Hz) in Hne.
Qed.

(** A content seen for the first time receives the current counter, and
    the counter moves to the next integer. *)
Lemma string_op_index_fresh (H : Heap) (m : StringIdMap.t) (p : Z) :
  string_dense m → StringIdMap.next_id m < INT32_MAX →
  p ≠ nullptr → cache_ok H m →
  StringIdMap.string_id_map_ m !! deref H p = None →
  (StringIdMap.op_index H m p).1 = StringIdMap.next_id m ∧
  StringIdMap.next_id (StringIdMap.op_index H m p).2 = StringIdMap.next_id m + 1.
Proof.
  intros Hd Hb Hp Hok Hs.
  assert (0 ≤ StringIdMap.next_id m).
  { pose proof (sd_range _ Hd _ _ (sd_zero _ Hd)). lia. }
  destruct (op_index_cases H m p) as
    [[? _]|[(_ & w & Hc & _)|[(_ & Hc & w & Hs' & _)|(_ & Hc & _ & ->)]]];
    simpl; try done.
  - apply Hok in Hc. congruence.
  - congruence.
  - split; [done|]. apply int32_small. unfold INT32_MAX in *. lia.
Qed.

Lemma address_op_index_fresh (m : AddressIdMap.t) (a : Z) :
  address_dense m → AddressIdMap.next_id m < INT32_MAX →
  AddressIdMap.pointer_id_map_ m !! a = None →
  (AddressIdMap.op_index m a).1 = AddressIdMap.next_id m ∧
  AddressIdMap.next_id (AddressIdMap.op_index m a).2 = AddressIdMap.next_id m + 1.
Proof.
  intros Hd Hb Ha.
  assert (0 ≤ AddressIdMap.next_id m).
  { pose proof (ad_range _ Hd _ _ (ad_zero _ Hd)). lia. }
  unfold AddressIdMap.op_index. rewrite Ha. simpl.
  split; [done|]. apply int32_small. unfold INT32_MAX in *. lia.
Qed.

Lemma string_lookups_next_id (H : Heap) (m : StringIdMap.t) (ks : list Z) :
  string_dense m →
  StringIdMap.next_id m + Z.of_nat (length ks) ≤ INT32_MAX →
  StringIdMap.next_id (string_lookups H m ks)
    ≤ StringIdMap.next_id m + Z.of_nat (length ks).
Proof.
  revert m. induction ks as [|k ks IH]; intros m Hd Hb; simpl in *; [lia|].
  destruct (op_index_dense H m k Hd) as [Hd' Hn]; [lia|].
  etrans; [apply IH; [done|lia]|]. lia.
Qed.

Lemma address_lookups_next_id (m : AddressIdMap.t) (ks : list Z) :
  address_dense m →
  AddressIdMap.next_id m + Z.of_nat (length ks) ≤ INT32_MAX →
  AddressIdMap.next_id (address_lookups m ks)
    ≤ AddressIdMap.next_id m + Z.of_nat (length ks).
Proof.
  revert m. induction ks as [|k ks IH]; intros m Hd Hb; simpl in *; [lia|].
  destruct (address_op_index_dense m k Hd) as [Hd' Hn]; [lia|].
  etrans; [apply IH; [done|lia]|]. lia.
Qed.

(** C6. Interner stability.  On the interners of a builder, after any run
    [ks] of earlier lookups:
    - two lookups with non-null string pointers of equal content return the
      same identifier, whichever pointers are used and whatever is looked up
      in between; two lookups of the same address return the same identifier;
    - a null key yields 0;
    - as long as the 32-bit counter has not run out, the identifiers held by
      the real keys are exactly 1, ..., next_id - 1, one per key, and a key
      seen for the first time receives next_id, the counter moving on by one:
      the identifiers form a dense sequence starting at 1. *)
Theorem interner_stability (H : Heap) (ks : list Z) :
  let sm := string_lookups H (string_interner_init H) ks in
  let am := address_lookups address_interner_init ks in
  (∀ p1 p2 between, p1 ≠ nullptr → p2 ≠ nullptr → deref H p1 = deref H p2 →
     (StringIdMap.op_index H
        (string_lookups H (StringIdMap.op_index H sm p1).2 between) p2).1
     = (StringIdMap.op_index H sm p1).1) ∧
  (∀ a between,
     (AddressIdMap.op_index
        (address_lookups (AddressIdMap.op_index am a).2 between) a).1
     = (AddressIdMap.op_index am a).1) ∧
  (StringIdMap.op_index H sm nullptr).1 = 0 ∧
  (AddressIdMap.op_index am nullptr).1 = 0 ∧
  (Z.of_nat (length ks) < INT32_MAX - 1 →
     string_ids_dense_from_1 sm ∧
     address_ids_dense_from_1 am ∧
     (∀ p, p ≠ nullptr →
           StringIdMap.string_id_map_ sm !! deref H p = None →
           (StringIdMap.op_index H sm p).1 = StringIdMap.next_id sm ∧
           StringIdMap.next_id (StringIdMap.op_index H sm p).2
             = StringIdMap.next_id sm + 1) ∧
     (∀ a, AddressIdMap.pointer_id_map_ am !! a = None →
           (AddressIdMap.op_index am a).1 = AddressIdMap.next_id am ∧
           AddressIdMap.next_id (AddressIdMap.op_index am a).2
             = AddressIdMap.next_id am + 1)).
Proof.
  intros sm am.
  assert (Hok : cache_ok H sm).
  { apply string_lookups_cache_ok, string_interner_init_cache_ok. }
  split; [|split; [|split; [|split]]].
  - intros p1 p2 between Hp1 Hp2 Heq.
    destruct (op_index_result H sm p1 Hok Hp1) as [_ Hs].
    set (m1 := (StringIdMap.op_index H sm p1).2) in *.
    apply op_index_stable; [|done|].
    + by apply string_lookups_cache_ok, op_index_cache_ok.
    + rewrite <- Heq.
      destruct (string_lookups_ext H m1 between) as [_ Hsub].
      eapply lookup_weaken; eauto.
  - intros a between.
    pose proof (address_op_index_result am a) as Ha.
    set (m1 := (AddressIdMap.op_index am a).2) in *.
    erewrite address_op_index_stable; [done|].
    eapply lookup_weaken; [exact Ha|apply address_lookups_ext].
  - by rewrite op_index_null.
  - erewrite address_op_index_stable; [done|].
    eapply lookup_weaken; [|apply address_lookups_ext].
    rewrite address_interner_init_eq. simpl. apply lookup_singleton_eq.
  - intros Hb.
    assert (Hsd : string_dense sm).
    { apply string_lookups_dense; [apply string_interner_init_dense|].
      rewrite string_interner_init_eq. simpl. lia. }
    assert (Had : address_dense am).
    { apply address_lookups_dense; [apply address_interner_init_dense|].
      rewrite address_interner_init_eq. simpl. lia. }
    assert (Hsn : StringIdMap.next_id sm < INT32_MAX).
    { pose proof (string_lookups_next_id H (string_interner_init H) ks
                    (string_interner_init_dense H)) as Hn.
      fold sm in Hn. rewrite string_interner_init_eq in Hn. simpl in Hn. lia. }
    assert (Han : AddressIdMap.next_id am < INT32_MAX).
    { pose proof (address_lookups_next_id address_interner_init ks
                    address_interner_init_dense) as Hn.
      fold am in Hn. rewrite address_interner_init_eq in Hn. simpl in Hn. lia. }
    split; [|split; [|split]].
    + by apply string_dense_from_1.
    + by apply address_dense_from_1.
    + intros p Hp Hnone. by apply string_op_index_fresh.
    + intros a Hnone. by apply address_op_index_fresh.
Qed.

Lemma interner_stability_witness :
  Z.of_nat (length [32; 48]) < INT32_MAX - 1 ∧
  let H := Examples.example_heap in
  let sm := string_lookups H (string_interner_init H) [32; 48] in
  (StringIdMap.op_index H
     (string_lookups H (StringIdMap.op_index H sm 32).2 [48]) 64).1
  = (StringIdMap.op_index H sm 32).1 ∧
  string_ids_dense_from_1 sm.
Proof.
  assert (Hb : Z.of_nat (length [32; 48]) < INT32_MAX - 1) by (vm_compute; done).
  split; [exact Hb|].
  destruct (interner_stability Examples.example_heap [32; 48])
    as (Hs & _ & _ & _ & Hd).
  split.
  - apply (Hs 32 64 [48]); [discriminate|discriminate|reflexivity].
  - apply Hd. exact Hb.
Defined.

(** The stream names "s1", "s2", "s1" again through a second pointer, the
    null pointer and the reserved empty string, on a new builder. *)
Example string_interner_ids :
  string_lookup_ids Examples.example_heap
    (string_interner_init Examples.example_heap) [32; 48; 64; 0; 16; 32]
  = [1; 2; 1; 0; 0; 1].
Proof. vm_compute. reflexivity. Qed.

Example address_interner_ids :
  address_lookup_ids address_interner_init [7; 9; 7; 0; 11] = [1; 2; 1; 0; 3].
Proof. vm_compute. reflexivity. Qed.

(** * clear() *)

(** C5, as stated, fails: [clear()] leaves [next_id] where it was.  After
    one stream name (resp. one packet address) has been interned, the
    counter is 2; after [clear()] it is still 2, not the 0 of a new map, and
    the same name (resp. address) now receives 2 instead of 1. *)
Lemma clear_does_not_reset_counter :
  let H := Examples.example_heap in
  let sm := string_lookups H (string_interner_init H) [32] in
  let am := address_lookups address_interner_init [7] in
  StringIdMap.next_id (StringIdMap.clear sm) = 2 ∧
  StringIdMap.next_id (StringIdMap.clear sm)
    ≠ StringIdMap.next_id StringIdMap.empty ∧
  (StringIdMap.op_index H sm 32).1 = 1 ∧
  (StringIdMap.op_index H (StringIdMap.clear sm) 32).1 = 2 ∧
  AddressIdMap.next_id (AddressIdMap.clear am) = 2 ∧
  AddressIdMap.next_id (AddressIdMap.clear am)
    ≠ AddressIdMap.next_id AddressIdMap.empty ∧
  (AddressIdMap.op_index am 7).1 = 1 ∧
  (AddressIdMap.op_index (AddressIdMap.clear am) 7).1 = 2.
Proof. vm_compute. repeat split; discriminate. Qed.

(** C5, amended.  For both interners [clear()] empties all maps and leaves
    the next-id counter unchanged.  The first key looked up after a clear
    (for the string variant: the first non-null pointer) receives the old
    counter value, so the assignment continues rather than restarts; and as
    long as the counter has not wrapped, a key that had an identifier before
    the clear receives a different one after it. *)
Theorem clear_empties_maps_keeps_counter
    (H : Heap) (sm : StringIdMap.t) (am : AddressIdMap.t) :
  (StringIdMap.pointer_id_map_ (StringIdMap.clear sm) = ∅ ∧
   StringIdMap.string_id_map_ (StringIdMap.clear sm) = ∅ ∧
   StringIdMap.next_id (StringIdMap.clear sm) = StringIdMap.next_id sm) ∧
  (AddressIdMap.pointer_id_map_ (AddressIdMap.clear am) = ∅ ∧
   AddressIdMap.next_id (AddressIdMap.clear am) = AddressIdMap.next_id am) ∧
  (∀ p, p ≠ nullptr →
        (StringIdMap.op_index H (StringIdMap.clear sm) p).1
        = StringIdMap.next_id sm) ∧
  (∀ a, (AddressIdMap.op_index (AddressIdMap.clear am) a).1
        = AddressIdMap.next_id am) ∧
  (string_dense sm →
   ∀ p v, p ≠ nullptr →
          StringIdMap.string_id_map_ sm !! deref H p = Some v →
          (StringIdMap.op_index H (StringIdMap.clear sm) p).1 ≠ v) ∧
  (address_dense am →
   ∀ a v, AddressIdMap.pointer_id_map_ am !! a = Some v →
          (AddressIdMap.op_index (AddressIdMap.clear am) a).1 ≠ v).
Proof.
  assert (Hs : ∀ p, p ≠ nullptr →
             (StringIdMap.op_index H (StringIdMap.clear sm) p).1
             = StringIdMap.next_id sm).
  { intros p Hp. unfold StringIdMap.op_index, StringIdMap.clear. simpl.
    rewrite decide_False by done. by rewrite !lookup_empty. }
  assert (Ha : ∀ a, (AddressIdMap.op_index (AddressIdMap.clear am) a).1
                    = AddressIdMap.next_id am).
  { intros a. unfold AddressIdMap.op_index, AddressIdMap.clear. simpl.
    by rewrite lookup_empty. }
  split; [done|]. split; [done|]. split; [exact Hs|]. split; [exact Ha|].
  split.
  - intros Hd p v Hp Hv. rewrite Hs by done.
    pose proof (sd_range _ Hd _ _ Hv). lia.
  - intros Hd a v Hv. rewrite Ha.
    pose proof (ad_range _ Hd _ _ Hv). lia.
Qed.

Lemma clear_empties_maps_keeps_counter_witness :
  let H := Examples.example_heap in
  let sm := string_lookups H (string_interner_init H) [32] in
  let am := address_lookups address_interner_init [7] in
  string_dense sm ∧ address_dense am ∧
  (StringIdMap.op_index H (StringIdMap.clear sm) 32).1 = StringIdMap.next_id sm ∧
  (StringIdMap.op_index H (StringIdMap.clear sm) 32).1 ≠ 1 ∧
  (AddressIdMap.op_index (AddressIdMap.clear am) 7).1 ≠ 1.
Proof.
  intros H sm am.
  assert (Hsd : string_dense sm).
  { apply string_lookups_dense; [apply string_interner_init_dense|].
    vm_compute. discriminate. }
  assert (Had : address_dense am).
  { apply address_lookups_dense; [apply address_interner_init_dense|].
    vm_compute. discriminate. }
  destruct (clear_empties_maps_keeps_counter H sm am)
    as (_ & _ & Hs & _ & Hds & Hda).
  split; [exact Hsd|]. split; [exact Had|].
  split; [apply Hs; discriminate|].
  split.
  - apply (Hds Hsd 32 1); [discriminate|]. vm_compute. reflexivity.
  - apply (Hda Had 7 1). vm_compute. reflexivity.
Defined.

(** * Frame properties of the builder's operations *)

Section Frames.
Variable H : Heap.
Variable TS : TimestampApi.

Lemma log_ext_refl st : log_ext H st st.
Proof. constructor; try done; try apply string_ext_refl. Qed.

Lemma log_ext_trans st1 st2 st3 :
  log_ext H st1 st2 → log_ext H st2 st3 → log_ext H st1 st3.
Proof.
  intros [] []. constructor; try congruence; eauto.
  - eapply string_ext_trans; eauto.
  - etrans; eauto.
Qed.

Lemma build_ext_refl st : build_ext H st st.
Proof. constructor; try done; try apply string_ext_refl. Qed.

Lemma build_ext_trans st1 st2 st3 :
  build_ext H st1 st2 → build_ext H st2 st3 → build_ext H st1 st3.
Proof.
  intros [] []. constructor; try congruence; eauto.
  - intros k e. etrans; eauto.
  - eapply string_ext_trans; eauto.
  - etrans; eauto.
Qed.

Lemma log_ext_build_ext st st' : log_ext H st st' → build_ext H st st'.
Proof.
  intros []. constructor; try done.
  - intros k. congruence.
  - intros k e. by rewrite le_hop0.
Qed.

Lemma stream_id_eq st p :
  Impl.stream_id H st p =
    ((StringIdMap.op_index H (Impl.stream_id_map_ st) p).1,
     Impl.set_stream_id_map_
       (StringIdMap.op_index H (Impl.stream_id_map_ st) p).2 st).
Proof.
  unfold Impl.stream_id.
  by destruct (StringIdMap.op_index H (Impl.stream_id_map_ st) p).
Qed.

Lemma packet_data_id_eq st a :
  Impl.packet_data_id st a =
    ((AddressIdMap.op_index (Impl.packet_data_id_map_ st) a).1,
     Impl.set_packet_data_id_map_
       (AddressIdMap.op_index (Impl.packet_data_id_map_ st) a).2 st).
Proof.
  unfold Impl.packet_data_id.
  by destruct (AddressIdMap.op_index (Impl.packet_data_id_map_ st) a).
Qed.

Lemma stream_id_log_ext st p : log_ext H st (Impl.stream_id H st p).2.
Proof.
  rewrite stream_id_eq. simpl. constructor; simpl; try done.
  - apply op_index_ext.
  - apply op_index_cache_ok.
Qed.

Lemma packet_data_id_log_ext st a : log_ext H st (Impl.packet_data_id st a).2.
Proof.
  rewrite packet_data_id_eq. simpl.
  constructor; simpl; try done; try apply string_ext_refl.
  apply address_op_index_ext.
Qed.

Lemma hop_events_at_eq st k :
  (Impl.hop_events_at st k).1 = default None (Impl.hop_events_ st !! k).
Proof.
  unfold Impl.hop_events_at. by destruct (Impl.hop_events_ st !! k).
Qed.

Lemma hop_events_at_build_ext st k : build_ext H st (Impl.hop_events_at st k).2.
Proof.
  unfold Impl.hop_events_at.
  destruct (Impl.hop_events_ st !! k) as [p|] eqn:Hk; simpl.
  { apply build_ext_refl. }
  constructor; simpl; try done.
  - intros k' e. rewrite lookup_insert. case_decide; [|done].
    subst k'. rewrite Hk. split; intros; congruence.
Qed.

Lemma task_events_at_eq st k :
  (Impl.task_events_at st k).1 = Impl.task_events_ st !!! k.
Proof.
  unfold Impl.task_events_at. rewrite lookup_total_alt.
  by destruct (Impl.task_events_ st !! k).
Qed.

Lemma task_events_at_build_ext st k :
  build_ext H st (Impl.task_events_at st k).2.
Proof.
  unfold Impl.task_events_at.
  destruct (Impl.task_events_ st !! k) as [l|] eqn:Hk; simpl.
  { apply build_ext_refl. }
  constructor; simpl; try done.
  - intros k'. rewrite !lookup_total_alt, lookup_insert.
    case_decide; [|done]. subst k'. by rewrite Hk.
Qed.

Lemma op_index_pointer_result (m : StringIdMap.t) (p : Z) :
  p ≠ nullptr →
  StringIdMap.pointer_id_map_ (StringIdMap.op_index H m p).2 !! p
  = Some (StringIdMap.op_index H m p).1.
Proof.
  intros Hp.
  destruct (op_index_cases H m p) as
    [[? _]|[(_ & v & Hc & ->)|[(_ & Hc & v & Hs & ->)|(_ & Hc & Hs & ->)]]];
    simpl; try done; by rewrite lookup_insert_eq.
Qed.

Lemma LogTime_ext st st' time :
  Impl.base_time_ st' = Impl.base_time_ st →
  Impl.LogTime st' time = Impl.LogTime st time.
Proof. unfold Impl.LogTime. by intros ->. Qed.

Lemma LogTimestamp_ext st st' ts :
  Impl.base_ts_ st' = Impl.base_ts_ st →
  Impl.LogTimestamp st' ts = Impl.LogTimestamp st ts.
Proof. unfold Impl.LogTimestamp. by intros ->. Qed.

Lemma BuildEventLog_log_ext st ev r0 :
  log_ext H st (Impl.BuildEventLog H TS st ev r0).2.
Proof.
  unfold Impl.BuildEventLog.
  destruct (table_at kProfilerStreamEvents (TraceEvent.event_type ev));
    [|apply log_ext_refl].
  destruct (decide (TraceEvent.stream_id ev ≠ nullptr)); [|apply log_ext_refl].
  rewrite stream_id_eq. simpl. rewrite packet_data_id_eq. simpl.
  eapply log_ext_trans with (st2 := (Impl.stream_id H st (TraceEvent.stream_id ev)).2).
  { apply stream_id_log_ext. }
  rewrite stream_id_eq. simpl.
  match goal with
  | |- log_ext _ ?s _ =>
      pose proof (packet_data_id_log_ext s (TraceEvent.packet_data_id ev)) as Hp
  end.
  rewrite packet_data_id_eq in Hp. simpl in Hp.
  by destruct (TraceEvent.is_finish ev).
Qed.

Ltac event_log_field ev :=
  destruct (TraceEvent.is_finish ev);
  destruct (decide (TraceEvent.input_ts ev ≠ Unset TS));
  destruct (decide (TraceEvent.input_ts ev = Unset TS));
  simpl; done.

Lemma BuildEventLog_record st ev :
  verbatim_record TS (Impl.BuildEventLog H TS st ev CalculatorTrace.empty).2 ev
    (Impl.BuildEventLog H TS st ev CalculatorTrace.empty).1.
Proof.
  unfold Impl.BuildEventLog.
  destruct (table_at kProfilerStreamEvents (TraceEvent.event_type ev)) eqn:Hs;
    [destruct (decide (TraceEvent.stream_id ev ≠ nullptr)) as [Hp|Hp]|].
  - rewrite stream_id_eq. simpl. rewrite packet_data_id_eq. simpl.
    constructor; [event_log_field ev .. |].
    unfold is_stream_event. rewrite Hs.
    rewrite bool_decide_eq_true_2 by done. simpl.
    eexists _, _. split; [|split].
    + destruct (TraceEvent.is_finish ev); simpl;
        by apply op_index_pointer_result.
    + destruct (TraceEvent.is_finish ev); simpl;
        apply address_op_index_result.
    + event_log_field ev.
  - constructor; [event_log_field ev .. |].
    unfold is_stream_event. rewrite Hs.
    rewrite bool_decide_eq_false_2 by done. simpl.
    event_log_field ev.
  - constructor; [event_log_field ev .. |].
    unfold is_stream_event. rewrite Hs. simpl.
    event_log_field ev.
Qed.

Lemma verbatim_record_mono st' st'' ev r :
  log_ext H st' st'' →
  verbatim_record TS st' ev r → verbatim_record TS st'' ev r.
Proof.
  intros Hext [Hn He Ht Hs Hf Hi Htr].
  pose proof (le_base_time _ _ _ Hext) as Hbt.
  pose proof (le_base_ts _ _ _ Hext) as Hbs.
  constructor; try done.
  - by rewrite (LogTime_ext _ _ _ Hbt).
  - by rewrite (LogTime_ext _ _ _ Hbt).
  - by rewrite (LogTimestamp_ext _ _ _ Hbs).
  - destruct (is_stream_event ev && bool_decide (TraceEvent.stream_id ev ≠ nullptr));
      [|done].
    destruct Htr as (sid & pid & Hsid & Hpid & Hl).
    exists sid, pid. split; [|split].
    + eapply lookup_weaken; [exact Hsid|]. apply (le_strings _ _ _ Hext).
    + eapply lookup_weaken; [exact Hpid|]. apply (le_packets _ _ _ Hext).
    + by rewrite (LogTimestamp_ext _ _ _ Hbs).
Qed.

Lemma verbatim_record_presence st' ev r :
  verbatim_record TS st' ev r → verbatim_presence TS ev r.
Proof.
  intros [Hn He Ht Hs Hf Hi Htr].
  assert (Hlen :
    if is_stream_event ev && bool_decide (TraceEvent.stream_id ev ≠ nullptr)
    then ∃ s, StreamTrace.start_time s = None ∧ StreamTrace.finish_time s = None ∧
              is_Some (StreamTrace.stream_id s) ∧
              is_Some (StreamTrace.packet_timestamp s) ∧
              is_Some (StreamTrace.packet_id s) ∧
              if TraceEvent.is_finish ev
              then CalculatorTrace.output_trace r = [s] ∧
                   CalculatorTrace.input_trace r = []
              else CalculatorTrace.input_trace r = [s] ∧
                   CalculatorTrace.output_trace r = []
    else CalculatorTrace.input_trace r = [] ∧
         CalculatorTrace.output_trace r = []).
  { destruct (is_stream_event ev && bool_decide (TraceEvent.stream_id ev ≠ nullptr));
      [|done].
    destruct Htr as (sid & pid & _ & _ & Hl). eexists. split; [|split; [|split; [|split; [|split]]]];
      [| | | | | exact Hl]; simpl; eauto. }
  clear Htr.
  constructor.
  - rewrite Hs. destruct (TraceEvent.is_finish ev); split; intros Hx;
      try done; by inversion Hx.
  - rewrite Hf. destruct (TraceEvent.is_finish ev); split; intros Hx;
      try done; by inversion Hx.
  - rewrite Hs, Hf. destruct (TraceEvent.is_finish ev); intros [Ha Hb];
      by inversion Ha || by inversion Hb.
  - rewrite Hi. destruct (decide (TraceEvent.input_ts ev = Unset TS)); split;
      intros Hx; try done; by inversion Hx.
  - destruct (is_stream_event ev && bool_decide (TraceEvent.stream_id ev ≠ nullptr)).
    + destruct Hlen as (s & _ & _ & _ & _ & _ & Hl).
      destruct (TraceEvent.is_finish ev); destruct Hl as [-> ->]; simpl; lia.
    + destruct Hlen as [-> ->]. simpl. lia.
  - destruct (is_stream_event ev) eqn:Hse; simpl in Hlen.
    + destruct (bool_decide (TraceEvent.stream_id ev ≠ nullptr)) eqn:Hp.
      * apply bool_decide_eq_true_1 in Hp.
        destruct Hlen as (s & _ & _ & _ & _ & _ & Hl).
        destruct (TraceEvent.is_finish ev); destruct Hl as [-> ->]; simpl; done.
      * apply bool_decide_eq_false_1 in Hp.
        destruct Hlen as [-> ->]. simpl. split; [lia|]. by intros [_ ?].
    + destruct Hlen as [-> ->]. simpl. split; [lia|]. by intros [? _].
  - destruct (is_stream_event ev && bool_decide (TraceEvent.stream_id ev ≠ nullptr)).
    + destruct Hlen as (s & _ & _ & _ & _ & _ & Hl).
      destruct (TraceEvent.is_finish ev); destruct Hl as [-> ->]; done.
    + by destruct Hlen as [-> ->].
  - intros s0 Hin.
    destruct (is_stream_event ev && bool_decide (TraceEvent.stream_id ev ≠ nullptr)).
    + destruct Hlen as (s & Hs1 & Hs2 & Hs3 & Hs4 & Hs5 & Hl).
      destruct (TraceEvent.is_finish ev); destruct Hl as [Hl1 Hl2];
        rewrite Hl1, Hl2 in Hin; simpl in Hin;
        apply list_elem_of_singleton in Hin; subst s0; done.
    + destruct Hlen as [Hl1 Hl2]. rewrite Hl1, Hl2 in Hin. simpl in Hin.
      by apply elem_of_nil in Hin.
Qed.

Lemma CreateLog_step_eq traces st ev :
  Impl.CreateLog_step H TS (traces, st) ev =
    (traces ++ [(Impl.BuildEventLog H TS st ev CalculatorTrace.empty).1],
     (Impl.BuildEventLog H TS st ev CalculatorTrace.empty).2).
Proof.
  unfold Impl.CreateLog_step.
  by destruct (Impl.BuildEventLog H TS st ev CalculatorTrace.empty).
Qed.

(** The logging loop: one record per event, in order. *)
Lemma CreateLog_loop snapshot : ∀ traces st,
  let res := fold_left (Impl.CreateLog_step H TS) snapshot (traces, st) in
  log_ext H st res.2 ∧
  ∃ rs, res.1 = traces ++ rs ∧ Forall2 (verbatim_record TS res.2) snapshot rs.
Proof.
  induction snapshot as [|ev snapshot IH]; intros traces st; cbn [fold_left].
  - split; [apply log_ext_refl|]. exists []. by rewrite app_nil_r.
  - rewrite CreateLog_step_eq.
    set (r := (Impl.BuildEventLog H TS st ev CalculatorTrace.empty).1).
    set (st1 := (Impl.BuildEventLog H TS st ev CalculatorTrace.empty).2).
    destruct (IH (traces ++ [r]) st1) as (Hext & rs & Hrs & Hall).
    assert (Hst1 : log_ext H st st1) by apply BuildEventLog_log_ext.
    split; [by eapply log_ext_trans|].
    exists (r :: rs). split.
    + rewrite Hrs. by rewrite <- app_assoc.
    + constructor; [|done].
      eapply verbatim_record_mono; [exact Hext|]. apply BuildEventLog_record.
Qed.

Lemma CreateLog_eq st buffer begin_time end_time :
  let snapshot := Impl.Snapshot buffer begin_time end_time in
  let st1 := Impl.SetBaseTime TS st snapshot in
  let res := fold_left (Impl.CreateLog_step H TS) snapshot ([], st1) in
  Impl.CreateLog H TS st buffer begin_time end_time =
    (GraphTrace.mk (Some (Impl.base_time_ st1)) (Some (Impl.base_ts_ st1))
                   (GetIdNames (Impl.stream_id_map_ res.2)) res.1, res.2).
Proof.
  intros snapshot st1 res. unfold Impl.CreateLog.
  fold snapshot. fold st1. fold res. by destruct res.
Qed.

Lemma SetBaseTime_step_with_indices tasks hops st ev :
  Impl.SetBaseTime_step TS (with_indices tasks hops st) ev
  = with_indices tasks hops (Impl.SetBaseTime_step TS st ev).
Proof.
  unfold Impl.SetBaseTime_step.
  destruct (negb (IsSpecialValue TS (TraceEvent.input_ts ev)));
    destruct (negb (IsSpecialValue TS (TraceEvent.packet_ts ev))); reflexivity.
Qed.

Lemma SetBaseTime_loop_with_indices tasks hops snapshot : ∀ st,
  fold_left (Impl.SetBaseTime_step TS) snapshot (with_indices tasks hops st)
  = with_indices tasks hops (fold_left (Impl.SetBaseTime_step TS) snapshot st).
Proof.
  induction snapshot as [|ev snapshot IH]; intros st; cbn [fold_left]; [done|].
  by rewrite SetBaseTime_step_with_indices, IH.
Qed.

Lemma SetBaseTime_with_indices tasks hops st snapshot :
  Impl.SetBaseTime TS (with_indices tasks hops st) snapshot
  = with_indices tasks hops (Impl.SetBaseTime TS st snapshot).
Proof.
  unfold Impl.SetBaseTime.
  rewrite SetBaseTime_loop_with_indices.
  change (Impl.base_time_ (with_indices tasks hops st)) with (Impl.base_time_ st).
  destruct (decide (Impl.base_time_ st = INT64_MAX)); [|done].
  set (st1 := fold_left (Impl.SetBaseTime_step TS) snapshot st).
  change (Impl.base_time_ (with_indices tasks hops st1)) with (Impl.base_time_ st1).
  destruct (decide (Impl.base_time_ st1 = INT64_MAX)).
  - change (Impl.base_ts_ (Impl.set_base_time_ 0 (with_indices tasks hops st1)))
      with (Impl.base_ts_ (Impl.set_base_time_ 0 st1)).
    by destruct (decide (Impl.base_ts_ (Impl.set_base_time_ 0 st1) = INT64_MAX)).
  - change (Impl.base_ts_ (with_indices tasks hops st1)) with (Impl.base_ts_ st1).
    by destruct (decide (Impl.base_ts_ st1 = INT64_MAX)).
Qed.

(** [SetBaseTime] writes the two bases only. *)
Lemma SetBaseTime_step_frame st ev :
  Impl.task_events_ (Impl.SetBaseTime_step TS st ev) = Impl.task_events_ st ∧
  Impl.hop_events_ (Impl.SetBaseTime_step TS st ev) = Impl.hop_events_ st ∧
  Impl.stream_id_map_ (Impl.SetBaseTime_step TS st ev) = Impl.stream_id_map_ st ∧
  Impl.packet_data_id_map_ (Impl.SetBaseTime_step TS st ev)
  = Impl.packet_data_id_map_ st.
Proof.
  unfold Impl.SetBaseTime_step.
  destruct (negb (IsSpecialValue TS (TraceEvent.input_ts ev)));
    destruct (negb (IsSpecialValue TS (TraceEvent.packet_ts ev))); done.
Qed.

Lemma SetBaseTime_loop_frame snapshot : ∀ st,
  let st' := fold_left (Impl.SetBaseTime_step TS) snapshot st in
  Impl.task_events_ st' = Impl.task_events_ st ∧
  Impl.hop_events_ st' = Impl.hop_events_ st ∧
  Impl.stream_id_map_ st' = Impl.stream_id_map_ st ∧
  Impl.packet_data_id_map_ st' = Impl.packet_data_id_map_ st.
Proof.
  induction snapshot as [|ev snapshot IH]; intros st; cbn [fold_left]; [done|].
  destruct (IH (Impl.SetBaseTime_step TS st ev)) as (-> & -> & -> & ->).
  apply SetBaseTime_step_frame.
Qed.

Lemma SetBaseTime_frame st snapshot :
  let st' := Impl.SetBaseTime TS st snapshot in
  Impl.task_events_ st' = Impl.task_events_ st ∧
  Impl.hop_events_ st' = Impl.hop_events_ st ∧
  Impl.stream_id_map_ st' = Impl.stream_id_map_ st ∧
  Impl.packet_data_id_map_ st' = Impl.packet_data_id_map_ st.
Proof.
  unfold Impl.SetBaseTime.
  destruct (decide (Impl.base_time_ st = INT64_MAX)); [|done].
  pose proof (SetBaseTime_loop_frame snapshot st) as Hl.
  set (st1 := fold_left (Impl.SetBaseTime_step TS) snapshot st) in *.
  destruct (decide (Impl.base_time_ st1 = INT64_MAX)).
  - by destruct (decide (Impl.base_ts_ (Impl.set_base_time_ 0 st1) = INT64_MAX)).
  - by destruct (decide (Impl.base_ts_ st1 = INT64_MAX)).
Qed.

Lemma BuildEventLog_with_indices tasks hops st ev r0 :
  Impl.BuildEventLog H TS (with_indices tasks hops st) ev r0
  = ((Impl.BuildEventLog H TS st ev r0).1,
     with_indices tasks hops (Impl.BuildEventLog H TS st ev r0).2).
Proof.
  unfold Impl.BuildEventLog.
  destruct (table_at kProfilerStreamEvents (TraceEvent.event_type ev)); [|done].
  destruct (decide (TraceEvent.stream_id ev ≠ nullptr)); [|done].
  rewrite !stream_id_eq. cbn [fst snd]. rewrite !packet_data_id_eq. cbn [fst snd].
  by destruct (TraceEvent.is_finish ev).
Qed.

Lemma CreateLog_loop_with_indices tasks hops snapshot : ∀ traces st,
  fold_left (Impl.CreateLog_step H TS) snapshot
    (traces, with_indices tasks hops st)
  = ((fold_left (Impl.CreateLog_step H TS) snapshot (traces, st)).1,
     with_indices tasks hops
       (fold_left (Impl.CreateLog_step H TS) snapshot (traces, st)).2).
Proof.
  induction snapshot as [|ev snapshot IH]; intros traces st; cbn [fold_left];
    [done|].
  rewrite !CreateLog_step_eq, BuildEventLog_with_indices. cbn [fst snd].
  apply IH.
Qed.

Lemma CreateLog_with_indices tasks hops st buffer begin_time end_time :
  Impl.CreateLog H TS (with_indices tasks hops st) buffer begin_time end_time
  = ((Impl.CreateLog H TS st buffer begin_time end_time).1,
     with_indices tasks hops
       (Impl.CreateLog H TS st buffer begin_time end_time).2).
Proof.
  rewrite !CreateLog_eq. cbn zeta.
  rewrite SetBaseTime_with_indices, CreateLog_loop_with_indices.
  reflexivity.
Qed.

Lemma CreateLog_log_ext st buffer begin_time end_time :
  let res := Impl.CreateLog H TS st buffer begin_time end_time in
  Impl.task_events_ res.2 = Impl.task_events_ st ∧
  Impl.hop_events_ res.2 = Impl.hop_events_ st ∧
  string_ext (Impl.stream_id_map_ st) (Impl.stream_id_map_ res.2) ∧
  (cache_ok H (Impl.stream_id_map_ st) →
   cache_ok H (Impl.stream_id_map_ res.2)).
Proof.
  rewrite CreateLog_eq. cbn zeta. cbn [fst snd].
  set (snapshot := Impl.Snapshot buffer begin_time end_time).
  destruct (CreateLog_loop snapshot [] (Impl.SetBaseTime TS st snapshot))
    as [Hext _].
  destruct (SetBaseTime_frame st snapshot) as (Ht & Hh & Hs & Hp).
  destruct Hext as [Ht' Hh' _ _ Hs' _ Hc'].
  rewrite Ht', Hh', Ht, Hh. rewrite Hs in Hs', Hc'. done.
Qed.

End Frames.

(** * The verbatim log *)

(** C9. Every record of [CreateLog] comes from one event of the snapshot,
    in order, and for each event [ev] and its record [r]:
    [start_time] is set iff [ev] is start-side and [finish_time] iff it is
    finish-side, never both; [input_timestamp] is set iff the input
    timestamp of [ev] is not [Timestamp::Unset()]; [r] carries at most one
    transfer entry, present exactly when the kind of [ev] produces
    stream-hop sub-records and its stream pointer is non-null, in the output
    list for a finish-side event and in the input list otherwise; the entry
    has [stream_id], [packet_timestamp] and [packet_id] set, to the
    interned identifiers and the relative packet timestamp, and neither
    [start_time] nor [finish_time]: no producer is looked up, and the hop
    index is left as it was. *)
Theorem verbatim_log_records
    (H : Heap) (TS : TimestampApi) (st : Impl.t)
    (buffer : list TraceEvent.t) (begin_time end_time : Time) :
  let snapshot := Impl.Snapshot buffer begin_time end_time in
  let res := Impl.CreateLog H TS st buffer begin_time end_time in
  Forall2 (fun ev r => verbatim_record TS res.2 ev r ∧ verbatim_presence TS ev r)
          snapshot (GraphTrace.calculator_trace res.1) ∧
  Impl.hop_events_ res.2 = Impl.hop_events_ st.
Proof.
  intros snapshot res. split.
  - subst res. rewrite CreateLog_eq. cbn zeta. cbn [fst snd GraphTrace.calculator_trace].
    fold snapshot.
    destruct (CreateLog_loop H TS snapshot [] (Impl.SetBaseTime TS st snapshot))
      as (_ & rs & -> & Hall).
    simpl. eapply Forall2_impl; [|exact Hall].
    intros ev r Hr. split; [done|]. by eapply verbatim_record_presence.
  - apply CreateLog_log_ext.
Qed.

(** * Transfer records *)

Section StreamTraceFacts.
Variable H : Heap.
Variable TS : TimestampApi.

Lemma op_index_idem (m : StringIdMap.t) (p : Z) :
  StringIdMap.op_index H (StringIdMap.op_index H m p).2 p
  = StringIdMap.op_index H m p.
Proof.
  destruct (decide (p = nullptr)) as [->|Hp].
  { by rewrite !op_index_null. }
  pose proof (op_index_pointer_result H m p Hp) as Hc.
  destruct (StringIdMap.op_index H m p) as [v m1] eqn:E. simpl in *.
  unfold StringIdMap.op_index at 1. rewrite decide_False by done.
  by rewrite Hc.
Qed.

Lemma hop_id_of_eq st ev :
  Impl.hop_id_of H st ev =
    (TaskId.mk (StringIdMap.op_index H (Impl.stream_id_map_ st)
                  (TraceEvent.stream_id ev)).1
               (TraceEvent.packet_ts ev)
               (EventType_to_int (TraceEvent.event_type ev)),
     Impl.set_stream_id_map_
       (StringIdMap.op_index H (Impl.stream_id_map_ st)
          (TraceEvent.stream_id ev)).2 st).
Proof. unfold Impl.hop_id_of. by rewrite stream_id_eq. Qed.

Lemma hop_id_of_log_ext st ev : log_ext H st (Impl.hop_id_of H st ev).2.
Proof.
  rewrite hop_id_of_eq. cbn [snd].
  pose proof (stream_id_log_ext H st (TraceEvent.stream_id ev)) as He.
  by rewrite stream_id_eq in He.
Qed.

Lemma FindOutputEvent_eq st ev :
  (Impl.FindOutputEvent H st ev).1 =
    default None (Impl.hop_events_ st !! (Impl.hop_id_of H st ev).1).
Proof.
  unfold Impl.FindOutputEvent. rewrite hop_id_of_eq. cbn [fst snd].
  by rewrite hop_events_at_eq.
Qed.

Lemma FindOutputEvent_build_ext st ev :
  build_ext H st (Impl.FindOutputEvent H st ev).2.
Proof.
  unfold Impl.FindOutputEvent.
  pose proof (hop_id_of_log_ext st ev) as He.
  destruct (Impl.hop_id_of H st ev) as [k st1]. cbn [snd] in He.
  eapply build_ext_trans; [by apply log_ext_build_ext|].
  apply hop_events_at_build_ext.
Qed.

(** The transfer record of a finish-side event: the stream and the packet
    timestamp, nothing else. *)
Lemma BuildStreamTrace_finish_side st ev :
  TraceEvent.is_finish ev = true →
  (Impl.BuildStreamTrace H st ev StreamTrace.empty).1 =
    StreamTrace.mk None None
      (Some (Impl.LogTimestamp st (TraceEvent.packet_ts ev)))
      (Some (StringIdMap.op_index H (Impl.stream_id_map_ st)
               (TraceEvent.stream_id ev)).1)
      None.
Proof.
  intros Hf. unfold Impl.BuildStreamTrace. rewrite Hf.
  rewrite stream_id_eq. reflexivity.
Qed.

(** The transfer record of a start-side event. *)
Lemma BuildStreamTrace_start_side st ev :
  TraceEvent.is_finish ev = false →
  (Impl.BuildStreamTrace H st ev StreamTrace.empty).1 =
    StreamTrace.mk
      (match default None (Impl.hop_events_ st !! (Impl.hop_id_of H st ev).1) with
       | Some output_event =>
           Some (Impl.LogTime st (TraceEvent.event_time output_event))
       | None => None
       end)
      (Some (Impl.LogTime st (TraceEvent.event_time ev)))
      (Some (Impl.LogTimestamp st (TraceEvent.packet_ts ev)))
      (Some (StringIdMap.op_index H (Impl.stream_id_map_ st)
               (TraceEvent.stream_id ev)).1)
      (Some (AddressIdMap.op_index (Impl.packet_data_id_map_ st)
               (TraceEvent.packet_data_id ev)).1).
Proof.
  intros Hf. unfold Impl.BuildStreamTrace. rewrite Hf.
  rewrite stream_id_eq. cbn [fst snd]. rewrite packet_data_id_eq. cbn [fst snd].
  match goal with
  | |- context [Impl.FindOutputEvent H ?s ev] =>
      pose proof (FindOutputEvent_eq s ev) as Hfo;
      pose proof (FindOutputEvent_build_ext s ev) as Hext;
      destruct (Impl.FindOutputEvent H s ev) as [o st0]
  end.
  cbn [fst snd] in Hfo, Hext. rewrite hop_id_of_eq in Hfo. cbn [fst] in Hfo.
  cbn [Impl.stream_id_map_ Impl.set_packet_data_id_map_ Impl.set_stream_id_map_
       Impl.hop_events_] in Hfo.
  rewrite op_index_idem in Hfo.
  rewrite hop_id_of_eq. cbn [fst]. rewrite <- Hfo.
  destruct o as [o|]; [|done].
  assert (Hb : Impl.base_time_ st0 = Impl.base_time_ st).
  { by rewrite (be_base_time _ _ _ Hext). }
  by rewrite (LogTime_ext _ _ _ Hb).
Qed.

Lemma BuildStreamTrace_build_ext st ev r0 :
  build_ext H st (Impl.BuildStreamTrace H st ev r0).2.
Proof.
  unfold Impl.BuildStreamTrace.
  pose proof (stream_id_log_ext H st (TraceEvent.stream_id ev)) as He1.
  destruct (Impl.stream_id H st (TraceEvent.stream_id ev)) as [sid st1].
  cbn [snd] in He1.
  destruct (TraceEvent.is_finish ev); [by apply log_ext_build_ext|].
  pose proof (packet_data_id_log_ext H st1 (TraceEvent.packet_data_id ev)) as He2.
  destruct (Impl.packet_data_id st1 (TraceEvent.packet_data_id ev)) as [pid st2].
  cbn [snd] in He2.
  pose proof (FindOutputEvent_build_ext st2 ev) as He3.
  destruct (Impl.FindOutputEvent H st2 ev) as [o st3]. cbn [snd] in He3.
  assert (build_ext H st st3).
  { eapply build_ext_trans; [apply log_ext_build_ext, He1|].
    eapply build_ext_trans; [apply log_ext_build_ext, He2|done]. }
  by destruct o.
Qed.

End StreamTraceFacts.

(** C10. [CreateLog] neither reads nor writes the invocation index and the
    hop index: after the call both are exactly what they were, and the call
    run on a builder with any other indices emits the same trace and leaves
    those indices in place.  Hence a run of verbatim calls leaves the two
    indices of any builder unchanged; on a new builder they stay empty, no
    event seen by these calls is found as a producer, and a transfer record
    built afterwards for a consumer event has no [start_time]. *)
Theorem verbatim_log_leaves_indices
    (H : Heap) (TS : TimestampApi) (st : Impl.t)
    (buffer : list TraceEvent.t) (begin_time end_time : Time) :
  let res := Impl.CreateLog H TS st buffer begin_time end_time in
  Impl.task_events_ res.2 = Impl.task_events_ st ∧
  Impl.hop_events_ res.2 = Impl.hop_events_ st ∧
  (∀ tasks hops,
     Impl.CreateLog H TS (with_indices tasks hops st) buffer begin_time end_time
     = (res.1, with_indices tasks hops res.2)) ∧
  (∀ calls,
     Impl.task_events_ (verbatim_calls H TS st calls) = Impl.task_events_ st ∧
     Impl.hop_events_ (verbatim_calls H TS st calls) = Impl.hop_events_ st) ∧
  (∀ calls ev,
     let st_n := verbatim_calls H TS (Impl.new H) calls in
     Impl.task_events_ st_n = ∅ ∧
     Impl.hop_events_ st_n = ∅ ∧
     (Impl.FindOutputEvent H st_n ev).1 = None ∧
     (TraceEvent.is_finish ev = false →
      StreamTrace.start_time
        (Impl.BuildStreamTrace H st_n ev StreamTrace.empty).1 = None)).
Proof.
  intros res.
  assert (Hcalls : ∀ calls st0,
    Impl.task_events_ (verbatim_calls H TS st0 calls) = Impl.task_events_ st0 ∧
    Impl.hop_events_ (verbatim_calls H TS st0 calls) = Impl.hop_events_ st0).
  { induction calls as [|c calls IH]; intros st0; [done|].
    unfold verbatim_calls. cbn [fold_left].
    destruct (IH (Impl.CreateLog H TS st0 c.1.1 c.1.2 c.2).2) as [Ht Hh].
    unfold verbatim_calls in Ht, Hh. rewrite Ht, Hh.
    destruct (CreateLog_log_ext H TS st0 c.1.1 c.1.2 c.2) as (-> & -> & _).
    done. }
  split; [apply CreateLog_log_ext|].
  split; [apply CreateLog_log_ext|].
  split; [intros tasks hops; apply CreateLog_with_indices|].
  split; [intros calls; apply Hcalls|].
  intros calls ev st_n.
  destruct (Hcalls calls (Impl.new H)) as [Ht Hh]. fold st_n in Ht, Hh.
  assert (Hfo : default None
                  (Impl.hop_events_ st_n !! (Impl.hop_id_of H st_n ev).1) = None).
  { rewrite Hh. unfold Impl.new. rewrite packet_data_id_eq. cbn [snd].
    rewrite stream_id_eq. cbn. by rewrite lookup_empty. }
  split; [|split; [|split]].
  - rewrite Ht. unfold Impl.new. rewrite packet_data_id_eq. cbn [snd].
    rewrite stream_id_eq. done.
  - rewrite Hh. unfold Impl.new. rewrite packet_data_id_eq. cbn [snd].
    rewrite stream_id_eq. done.
  - by rewrite FindOutputEvent_eq.
  - intros Hf. rewrite BuildStreamTrace_start_side by done.
    cbn [StreamTrace.start_time]. by rewrite Hfo.
Qed.

(** * The indexing loop *)

Section IndexFacts.
Variable H : Heap.
Variable TS : TimestampApi.

Lemma index_event_eq st ev :
  Impl.index_event H st ev =
    if negb (is_packet_event ev) then st
    else
      Impl.mk
        (<[Impl.task_id_of ev := Impl.task_events_ st !!! Impl.task_id_of ev ++ [ev]]>
           (Impl.task_events_ st))
        (if TraceEvent.is_finish ev
         then <[(Impl.hop_id_of H st ev).1 := Some ev]> (Impl.hop_events_ st)
         else Impl.hop_events_ st)
        (StringIdMap.op_index H (Impl.stream_id_map_ st)
           (TraceEvent.stream_id ev)).2
        (Impl.packet_data_id_map_ st) (Impl.base_ts_ st) (Impl.base_time_ st).
Proof.
  unfold Impl.index_event, is_packet_event.
  destruct (negb (table_at kProfilerPacketEvents (TraceEvent.event_type ev)));
    [done|].
  rewrite hop_id_of_eq. cbn [fst snd].
  unfold Impl.task_events_at. rewrite lookup_total_alt.
  destruct (TraceEvent.is_finish ev); cbn;
    destruct (Impl.task_events_ st !! Impl.task_id_of ev); cbn;
    by rewrite ?insert_insert_eq.
Qed.

Lemma index_event_frame st ev :
  let st' := Impl.index_event H st ev in
  Impl.base_ts_ st' = Impl.base_ts_ st ∧
  Impl.base_time_ st' = Impl.base_time_ st ∧
  Impl.packet_data_id_map_ st' = Impl.packet_data_id_map_ st ∧
  string_ext (Impl.stream_id_map_ st) (Impl.stream_id_map_ st') ∧
  (cache_ok H (Impl.stream_id_map_ st) → cache_ok H (Impl.stream_id_map_ st')).
Proof.
  cbn zeta. rewrite index_event_eq.
  destruct (negb (is_packet_event ev)); cbn.
  - split_and!; first [done | apply string_ext_refl].
  - split_and!;
      first [done | apply op_index_ext | apply op_index_cache_ok].
Qed.

Lemma index_loop_frame snapshot : ∀ st,
  let st' := fold_left (Impl.index_event H) snapshot st in
  Impl.base_ts_ st' = Impl.base_ts_ st ∧
  Impl.base_time_ st' = Impl.base_time_ st ∧
  Impl.packet_data_id_map_ st' = Impl.packet_data_id_map_ st ∧
  string_ext (Impl.stream_id_map_ st) (Impl.stream_id_map_ st') ∧
  (cache_ok H (Impl.stream_id_map_ st) → cache_ok H (Impl.stream_id_map_ st')).
Proof.
  induction snapshot as [|ev snapshot IH]; intros st; cbn [fold_left].
  - split_and!; first [done | apply string_ext_refl].
  - destruct (IH (Impl.index_event H st ev)) as (-> & -> & -> & Hs & Hc).
    destruct (index_event_frame st ev) as (-> & -> & -> & Hs' & Hc').
    split_and!; first [done | by eapply string_ext_trans | eauto].
Qed.

(** The invocation index after the indexing loop: what it held, followed by
    the events of the snapshot with that key, in snapshot order. *)
Lemma index_loop_task_events snapshot : ∀ st k,
  Impl.task_events_ (fold_left (Impl.index_event H) snapshot st) !!! k
  = Impl.task_events_ st !!! k ++ filter (has_key k) snapshot.
Proof.
  induction snapshot as [|ev snapshot IH]; intros st k; cbn [fold_left].
  - by rewrite filter_nil, app_nil_r.
  - rewrite IH. rewrite index_event_eq. rewrite filter_cons.
    destruct (decide (has_key k ev)) as [[Hp Hk]|Hn].
    + rewrite Hp. cbn [negb Impl.task_events_]. subst k.
      rewrite lookup_total_insert_eq. by rewrite <- app_assoc.
    + destruct (is_packet_event ev) eqn:Hp; cbn [negb]; [|done].
      cbn [Impl.task_events_]. rewrite lookup_total_insert_ne; [done|].
      intros Hk. apply Hn. by split.
Qed.

End IndexFacts.

(** * The assembly loops *)

Section AssemblyFrames.
Variable H : Heap.
Variable TS : TimestampApi.

Lemma BuildCalculatorTrace_step_build_ext acc ev :
  build_ext H (Impl.bl_state acc)
    (Impl.bl_state (Impl.BuildCalculatorTrace_step H acc ev)).
Proof.
  destruct acc as [s f r st]. unfold Impl.BuildCalculatorTrace_step.
  cbn [Impl.bl_state].
  destruct (table_at kProfilerStreamEvents (TraceEvent.event_type ev));
    [|apply build_ext_refl].
  pose proof (BuildStreamTrace_build_ext H st ev StreamTrace.empty) as He.
  destruct (Impl.BuildStreamTrace H st ev StreamTrace.empty) as [s0 st0].
  by destruct (TraceEvent.is_finish ev).
Qed.

Lemma BuildCalculatorTrace_loop_build_ext task_events : ∀ acc,
  build_ext H (Impl.bl_state acc)
    (Impl.bl_state (fold_left (Impl.BuildCalculatorTrace_step H) task_events acc)).
Proof.
  induction task_events as [|ev l IH]; intros acc; cbn [fold_left].
  - apply build_ext_refl.
  - eapply build_ext_trans; [apply BuildCalculatorTrace_step_build_ext|apply IH].
Qed.

Lemma BuildCalculatorTrace_eq st task_events r0 :
  let acc := fold_left (Impl.BuildCalculatorTrace_step H) task_events
               (Impl.mkBuildLoop InfiniteFuture InfiniteFuture r0 st) in
  let r1 :=
    if Time_lt (Impl.bl_finish_time acc) InfiniteFuture
    then CalculatorTrace.set_finish_time
           (Impl.LogTime (Impl.bl_state acc) (Impl.bl_finish_time acc))
           (Impl.bl_result acc)
    else Impl.bl_result acc in
  Impl.BuildCalculatorTrace H st task_events r0 =
    (if Time_lt (Impl.bl_start_time acc) InfiniteFuture
     then CalculatorTrace.set_start_time
            (Impl.LogTime (Impl.bl_state acc) (Impl.bl_start_time acc)) r1
     else r1,
     Impl.bl_state acc).
Proof.
  cbn zeta. unfold Impl.BuildCalculatorTrace.
  by destruct (fold_left _ _ _).
Qed.

Lemma BuildCalculatorTrace_build_ext st task_events r0 :
  build_ext H st (Impl.BuildCalculatorTrace H st task_events r0).2.
Proof.
  rewrite BuildCalculatorTrace_eq. cbn [snd].
  apply (BuildCalculatorTrace_loop_build_ext task_events
           (Impl.mkBuildLoop InfiniteFuture InfiniteFuture r0 st)).
Qed.

(** The three ways through one iteration of the assembly loop. *)
Lemma CreateTrace_step_cases acc ev :
  let st := Impl.tl_state acc in
  let k := Impl.task_id_of ev in
  (is_packet_event ev = false ∧
   Impl.CreateTrace_step H TS acc ev =
     Impl.mkTraceLoop (Impl.tl_task_ids acc)
       (Impl.tl_traces acc
        ++ [(Impl.BuildEventLog H TS st ev CalculatorTrace.empty).1])
       (Impl.BuildEventLog H TS st ev CalculatorTrace.empty).2) ∨
  (is_packet_event ev = true ∧ k ∈ Impl.tl_task_ids acc ∧
   Impl.CreateTrace_step H TS acc ev = acc) ∨
  (is_packet_event ev = true ∧ (k ∉ Impl.tl_task_ids acc) ∧
   Impl.CreateTrace_step H TS acc ev =
     Impl.mkTraceLoop ({[k]} ∪ Impl.tl_task_ids acc)
       (Impl.tl_traces acc
        ++ [(Impl.BuildCalculatorTrace H (Impl.task_events_at st k).2
               (Impl.task_events_ st !!! k) CalculatorTrace.empty).1])
       (Impl.BuildCalculatorTrace H (Impl.task_events_at st k).2
          (Impl.task_events_ st !!! k) CalculatorTrace.empty).2).
Proof.
  destruct acc as [ids traces st]. cbn zeta. cbn [Impl.tl_state Impl.tl_task_ids Impl.tl_traces].
  unfold Impl.CreateTrace_step, is_packet_event.
  destruct (table_at kProfilerPacketEvents (TraceEvent.event_type ev)); cbn [negb].
  - right. destruct (decide (Impl.task_id_of ev ∈ ids)) as [Hin|Hin].
    + left. done.
    + right. split; [done|]. split; [done|].
      rewrite <- task_events_at_eq.
      destruct (Impl.task_events_at st (Impl.task_id_of ev)) as [l st1].
      cbn [fst snd].
      by destruct (Impl.BuildCalculatorTrace H st1 l CalculatorTrace.empty).
  - left. split; [done|].
    by destruct (Impl.BuildEventLog H TS st ev CalculatorTrace.empty).
Qed.

Lemma CreateTrace_step_build_ext acc ev :
  build_ext H (Impl.tl_state acc)
    (Impl.tl_state (Impl.CreateTrace_step H TS acc ev)).
Proof.
  destruct (CreateTrace_step_cases acc ev)
    as [[_ ->]|[(_ & _ & ->)|(_ & _ & ->)]]; cbn [Impl.tl_state].
  - apply log_ext_build_ext, BuildEventLog_log_ext.
  - apply build_ext_refl.
  - eapply build_ext_trans; [apply task_events_at_build_ext|].
    apply BuildCalculatorTrace_build_ext.
Qed.

Lemma CreateTrace_loop_build_ext snapshot : ∀ acc,
  build_ext H (Impl.tl_state acc)
    (Impl.tl_state (fold_left (Impl.CreateTrace_step H TS) snapshot acc)).
Proof.
  induction snapshot as [|ev l IH]; intros acc; cbn [fold_left].
  - apply build_ext_refl.
  - eapply build_ext_trans; [apply CreateTrace_step_build_ext|apply IH].
Qed.

Lemma CreateTrace_eq st buffer begin_time end_time :
  let snapshot := Impl.Snapshot buffer begin_time end_time in
  let st2 := indexed_state H TS st buffer begin_time end_time in
  let acc := fold_left (Impl.CreateTrace_step H TS) snapshot
               (Impl.mkTraceLoop ∅ [] st2) in
  Impl.CreateTrace H TS st buffer begin_time end_time =
    (GraphTrace.mk (Some (Impl.base_time_ st2)) (Some (Impl.base_ts_ st2))
                   (GetIdNames (Impl.stream_id_map_ (Impl.tl_state acc)))
                   (Impl.tl_traces acc),
     Impl.tl_state acc).
Proof.
  cbn zeta. unfold Impl.CreateTrace, indexed_state.
  by destruct (fold_left _ _ _).
Qed.

Lemma indexed_state_frame st buffer begin_time end_time :
  let snapshot := Impl.Snapshot buffer begin_time end_time in
  let st1 := Impl.SetBaseTime TS st snapshot in
  let st2 := indexed_state H TS st buffer begin_time end_time in
  Impl.base_ts_ st2 = Impl.base_ts_ st1 ∧
  Impl.base_time_ st2 = Impl.base_time_ st1 ∧
  Impl.packet_data_id_map_ st2 = Impl.packet_data_id_map_ st ∧
  string_ext (Impl.stream_id_map_ st) (Impl.stream_id_map_ st2) ∧
  (cache_ok H (Impl.stream_id_map_ st) → cache_ok H (Impl.stream_id_map_ st2)).
Proof.
  cbn zeta. unfold indexed_state.
  set (snapshot := Impl.Snapshot buffer begin_time end_time).
  destruct (index_loop_frame H snapshot (Impl.SetBaseTime TS st snapshot))
    as (-> & -> & -> & Hs & Hc).
  destruct (SetBaseTime_frame TS st snapshot) as (_ & _ & Hs' & Hp').
  rewrite Hs' in Hs, Hc. by rewrite Hp'.
Qed.

(** Every call keeps the time base that [SetBaseTime] leaves. *)
Lemma CreateTrace_base st buffer begin_time end_time :
  let st1 :=
    Impl.SetBaseTime TS st (Impl.Snapshot buffer begin_time end_time) in
  let res := Impl.CreateTrace H TS st buffer begin_time end_time in
  Impl.base_time_ res.2 = Impl.base_time_ st1 ∧
  Impl.base_ts_ res.2 = Impl.base_ts_ st1.
Proof.
  cbn zeta. rewrite CreateTrace_eq. cbn [snd].
  set (st2 := indexed_state H TS st buffer begin_time end_time).
  pose proof (CreateTrace_loop_build_ext
                (Impl.Snapshot buffer begin_time end_time)
                (Impl.mkTraceLoop ∅ [] st2)) as He.
  cbn [Impl.tl_state] in He.
  rewrite (be_base_time _ _ _ He), (be_base_ts _ _ _ He). subst st2.
  destruct (indexed_state_frame st buffer begin_time end_time) as (-> & -> & _).
  done.
Qed.

Lemma CreateLog_base st buffer begin_time end_time :
  let st1 :=
    Impl.SetBaseTime TS st (Impl.Snapshot buffer begin_time end_time) in
  let res := Impl.CreateLog H TS st buffer begin_time end_time in
  Impl.base_time_ res.2 = Impl.base_time_ st1 ∧
  Impl.base_ts_ res.2 = Impl.base_ts_ st1.
Proof.
  cbn zeta. rewrite CreateLog_eq. cbn [snd].
  destruct (CreateLog_loop H TS (Impl.Snapshot buffer begin_time end_time) []
              (Impl.SetBaseTime TS st (Impl.Snapshot buffer begin_time end_time)))
    as [He _].
  by rewrite (le_base_time _ _ _ He), (le_base_ts _ _ _ He).
Qed.

End AssemblyFrames.

(** * The time base *)

Section TimeBase.
Variable H : Heap.
Variable TS : TimestampApi.

Lemma fold_left_min_spec (l : list Z) : ∀ a,
  fold_left Z.min l a ≤ a ∧
  (∀ x, x ∈ l → fold_left Z.min l a ≤ x) ∧
  (fold_left Z.min l a = a ∨ fold_left Z.min l a ∈ l).
Proof.
  induction l as [|y l IH]; intros a; cbn [fold_left].
  - split; [lia|]. split.
    + intros x Hx. by apply elem_of_nil in Hx.
    + left. reflexivity.
  - destruct (IH (Z.min a y)) as (Hle & Hall & Hin).
    pose proof (Z.le_min_l a y). pose proof (Z.le_min_r a y).
    split; [lia|]. split.
    + intros x Hx. apply elem_of_cons in Hx as [->|Hx]; [lia|by apply Hall].
    + destruct Hin as [Heq|Hin].
      * destruct (Z.min_spec a y) as [[_ Hm]|[_ Hm]].
        -- left. lia.
        -- right. rewrite Heq, Hm. apply list_elem_of_here.
      * right. by apply list_elem_of_further.
Qed.

Lemma SetBaseTime_loop_values snapshot : ∀ st,
  let st' := fold_left (Impl.SetBaseTime_step TS) snapshot st in
  Impl.base_time_ st' = fold_left Z.min (wall_times snapshot) (Impl.base_time_ st) ∧
  Impl.base_ts_ st' = fold_left Z.min (logical_times TS snapshot) (Impl.base_ts_ st).
Proof.
  induction snapshot as [|ev snapshot IH]; intros st; cbn [fold_left]; [done|].
  destruct (IH (Impl.SetBaseTime_step TS st ev)) as [-> ->].
  unfold wall_times, logical_times. rewrite fmap_cons, bind_cons, fold_left_app.
  cbn [fold_left]. unfold Impl.SetBaseTime_step.
  destruct (IsSpecialValue TS (TraceEvent.input_ts ev));
    destruct (IsSpecialValue TS (TraceEvent.packet_ts ev)); done.
Qed.

(** A call with the time base already set leaves the builder's base alone. *)
Lemma SetBaseTime_later st snapshot :
  Impl.base_time_ st ≠ INT64_MAX → Impl.SetBaseTime TS st snapshot = st.
Proof. intros Hne. unfold Impl.SetBaseTime. by rewrite decide_False. Qed.

(** After [SetBaseTime] the base time is never the sentinel. *)
Lemma SetBaseTime_sets st snapshot :
  Impl.base_time_ (Impl.SetBaseTime TS st snapshot) ≠ INT64_MAX.
Proof.
  unfold Impl.SetBaseTime.
  destruct (decide (Impl.base_time_ st = INT64_MAX)); [|done].
  set (st1 := fold_left (Impl.SetBaseTime_step TS) snapshot st).
  destruct (decide (Impl.base_time_ st1 = INT64_MAX)).
  - by destruct (decide (Impl.base_ts_ (Impl.set_base_time_ 0 st1) = INT64_MAX)).
  - by destruct (decide (Impl.base_ts_ st1 = INT64_MAX)).
Qed.

(** The first calibration. *)
Lemma SetBaseTime_first st snapshot :
  Impl.base_time_ st = INT64_MAX → Impl.base_ts_ st = INT64_MAX →
  (∀ t, t ∈ wall_times snapshot → t < INT64_MAX) →
  (∀ t, t ∈ logical_times TS snapshot → t < INT64_MAX) →
  let st' := Impl.SetBaseTime TS st snapshot in
  (snapshot = [] → Impl.base_time_ st' = 0) ∧
  (snapshot ≠ [] → is_minimum (Impl.base_time_ st') (wall_times snapshot)) ∧
  (logical_times TS snapshot = [] → Impl.base_ts_ st' = 0) ∧
  (logical_times TS snapshot ≠ [] →
   is_minimum (Impl.base_ts_ st') (logical_times TS snapshot)).
Proof.
  intros Hbt Hbs Hwall Hlog. cbn zeta. unfold Impl.SetBaseTime.
  rewrite decide_True by done.
  destruct (SetBaseTime_loop_values snapshot st) as [Ht Hs].
  set (st1 := fold_left (Impl.SetBaseTime_step TS) snapshot st) in *.
  rewrite Hbt in Ht. rewrite Hbs in Hs.
  destruct (fold_left_min_spec (wall_times snapshot) INT64_MAX)
    as (Hw1 & Hw2 & Hw3).
  destruct (fold_left_min_spec (logical_times TS snapshot) INT64_MAX)
    as (Hl1 & Hl2 & Hl3).
  cbn zeta in *. rewrite <- Ht in Hw1, Hw2, Hw3. rewrite <- Hs in Hl1, Hl2, Hl3.
  assert (Hts :
    Impl.base_ts_
      (if decide (Impl.base_ts_ st1 = INT64_MAX)
       then Impl.set_base_ts_ 0 st1 else st1)
    = if decide (Impl.base_ts_ st1 = INT64_MAX) then 0 else Impl.base_ts_ st1).
  { by destruct (decide (Impl.base_ts_ st1 = INT64_MAX)). }
  assert (Htime :
    Impl.base_time_
      (if decide (Impl.base_ts_ st1 = INT64_MAX)
       then Impl.set_base_ts_ 0 st1 else st1) = Impl.base_time_ st1).
  { by destruct (decide (Impl.base_ts_ st1 = INT64_MAX)). }
  assert (Hts0 :
    Impl.base_ts_
      (if decide (Impl.base_ts_ (Impl.set_base_time_ 0 st1) = INT64_MAX)
       then Impl.set_base_ts_ 0 (Impl.set_base_time_ 0 st1)
       else Impl.set_base_time_ 0 st1)
    = if decide (Impl.base_ts_ st1 = INT64_MAX) then 0 else Impl.base_ts_ st1).
  { cbn [Impl.base_ts_ Impl.set_base_time_].
    by destruct (decide (Impl.base_ts_ st1 = INT64_MAX)). }
  assert (Htime0 :
    Impl.base_time_
      (if decide (Impl.base_ts_ (Impl.set_base_time_ 0 st1) = INT64_MAX)
       then Impl.set_base_ts_ 0 (Impl.set_base_time_ 0 st1)
       else Impl.set_base_time_ 0 st1) = 0).
  { by destruct (decide (Impl.base_ts_ (Impl.set_base_time_ 0 st1) = INT64_MAX)). }
  assert (Hlogical :
    (logical_times TS snapshot = [] →
     (if decide (Impl.base_ts_ st1 = INT64_MAX) then 0 else Impl.base_ts_ st1) = 0) ∧
    (logical_times TS snapshot ≠ [] →
     is_minimum
       (if decide (Impl.base_ts_ st1 = INT64_MAX) then 0 else Impl.base_ts_ st1)
       (logical_times TS snapshot))).
  { split.
    - intros Hnil. rewrite Hnil in Hs. cbn in Hs. by rewrite decide_True.
    - intros Hne. destruct (logical_times TS snapshot) as [|x l] eqn:El; [done|].
      assert (Impl.base_ts_ st1 < INT64_MAX).
      { pose proof (Hl2 x (list_elem_of_here _ _)).
        pose proof (Hlog x (list_elem_of_here _ _)). lia. }
      rewrite decide_False by lia.
      destruct Hl3 as [?|Hin]; [lia|]. by split. }
  destruct (decide (snapshot = [])) as [Hnil|Hne].
  - rewrite Hnil in Ht. cbn in Ht.
    destruct (decide (Impl.base_time_ st1 = INT64_MAX)); [|done].
    rewrite Hts0, Htime0.
    split; [done|]. split; [done|]. exact Hlogical.
  - assert (Hlt : Impl.base_time_ st1 < INT64_MAX).
    { destruct (wall_times snapshot) as [|x l] eqn:Ew.
      { apply fmap_nil_inv in Ew. done. }
      pose proof (Hw2 x (list_elem_of_here _ _)).
      pose proof (Hwall x (list_elem_of_here _ _)). lia. }
    destruct (decide (Impl.base_time_ st1 = INT64_MAX)); [lia|].
    rewrite Hts, Htime.
    split; [done|]. split; [|exact Hlogical].
    intros _. destruct Hw3 as [?|Hin]; [lia|]. by split.
Qed.

(** Once the base time is set, no call changes the time base. *)
Lemma run_call_sticky st c :
  Impl.base_time_ st ≠ INT64_MAX →
  Impl.base_time_ (run_call H TS st c) = Impl.base_time_ st ∧
  Impl.base_ts_ (run_call H TS st c) = Impl.base_ts_ st.
Proof.
  intros Hne. destruct c as [b t1 t2|b t1 t2|]; cbn.
  - destruct (CreateTrace_base H TS st b t1 t2) as [-> ->].
    by rewrite SetBaseTime_later.
  - destruct (CreateLog_base H TS st b t1 t2) as [-> ->].
    by rewrite SetBaseTime_later.
  - done.
Qed.

Lemma run_calls_sticky cs : ∀ st,
  Impl.base_time_ st ≠ INT64_MAX →
  Impl.base_time_ (run_calls H TS st cs) = Impl.base_time_ st ∧
  Impl.base_ts_ (run_calls H TS st cs) = Impl.base_ts_ st.
Proof.
  induction cs as [|c cs IH]; intros st Hne; [done|].
  unfold run_calls. cbn [fold_left].
  destruct (run_call_sticky st c Hne) as [Ht Hs].
  destruct (IH (run_call H TS st c)) as [Ht' Hs']; [congruence|].
  unfold run_calls in Ht', Hs'. by rewrite Ht', Hs'.
Qed.

End TimeBase.

(** C3. Base stickiness.  On a builder whose bases still hold the sentinel
    (as the constructor leaves them), the first trace-building call, whose
    snapshot holds wall times and non-special timestamps below the
    sentinel, records the least [event_time] of its snapshot as the base
    time and the least non-special [input_ts]/[packet_ts] as the base
    timestamp, each being 0 when there is no such value (so both are 0 for
    an empty snapshot).  Whatever calls follow, both bases stay what the
    first call made them, and a wall time below the base time is logged as
    a negative relative time. *)
Theorem base_time_sticky
    (H : Heap) (TS : TimestampApi) (st : Impl.t)
    (first : Call) (later : list Call) :
  Impl.base_time_ st = INT64_MAX → Impl.base_ts_ st = INT64_MAX →
  first ≠ CallClear →
  (∀ t, t ∈ wall_times (call_snapshot first) → t < INT64_MAX) →
  (∀ t, t ∈ logical_times TS (call_snapshot first) → t < INT64_MAX) →
  let snapshot := call_snapshot first in
  let st1 := run_call H TS st first in
  let st_n := run_calls H TS st1 later in
  (snapshot = [] → Impl.base_time_ st1 = 0 ∧ Impl.base_ts_ st1 = 0) ∧
  (snapshot ≠ [] → is_minimum (Impl.base_time_ st1) (wall_times snapshot)) ∧
  (logical_times TS snapshot = [] → Impl.base_ts_ st1 = 0) ∧
  (logical_times TS snapshot ≠ [] →
   is_minimum (Impl.base_ts_ st1) (logical_times TS snapshot)) ∧
  Impl.base_time_ st_n = Impl.base_time_ st1 ∧
  Impl.base_ts_ st_n = Impl.base_ts_ st1 ∧
  (∀ time, ToUnixMicros time < Impl.base_time_ st_n →
           INT64_MIN ≤ ToUnixMicros time - Impl.base_time_ st_n →
           Impl.LogTime st_n time = ToUnixMicros time - Impl.base_time_ st_n ∧
           Impl.LogTime st_n time < 0).
Proof.
  intros Hbt Hbs Hfirst Hwall Hlog snapshot st1 st_n.
  assert (Hst1 :
    Impl.base_time_ st1 = Impl.base_time_ (Impl.SetBaseTime TS st snapshot) ∧
    Impl.base_ts_ st1 = Impl.base_ts_ (Impl.SetBaseTime TS st snapshot)).
  { subst st1 snapshot. destruct first as [b t1 t2|b t1 t2|]; cbn; [| |done].
    - apply CreateTrace_base.
    - apply CreateLog_base. }
  destruct Hst1 as [Ht1 Hs1].
  destruct (SetBaseTime_first TS st snapshot Hbt Hbs Hwall Hlog)
    as (Ha & Hb & Hc & Hd).
  assert (Hset : Impl.base_time_ st1 ≠ INT64_MAX).
  { rewrite Ht1. apply SetBaseTime_sets. }
  destruct (run_calls_sticky H TS later st1 Hset) as [Htn Hsn].
  fold st_n in Htn, Hsn.
  rewrite Ht1, Hs1.
  split_and!; try done.
  - intros Hnil. split; [by apply Ha|]. apply Hc. by rewrite Hnil.
  - by rewrite Htn, Ht1.
  - by rewrite Hsn, Hs1.
  - intros time Hlt Hmin.
    assert (Heq : Impl.LogTime st_n time
                  = ToUnixMicros time - Impl.base_time_ st_n).
    { unfold Impl.LogTime. apply int64_small. unfold INT64_MIN in Hmin. lia. }
    split; [done|]. lia.
Qed.

Lemma base_time_sticky_witness :
  let first := CallCreateTrace example_buffer (UnixMicros 100) (UnixMicros 200) in
  let later := [CallCreateLog (early_ready :: example_buffer)
                  InfinitePast (UnixMicros 100)] in
  let st1 := run_call example_heap example_timestamps (Impl.new example_heap) first in
  let st_n := run_calls example_heap example_timestamps st1 later in
  is_minimum (Impl.base_time_ st1) (wall_times (call_snapshot first)) ∧
  is_minimum (Impl.base_ts_ st1)
             (logical_times example_timestamps (call_snapshot first)) ∧
  Impl.base_time_ st_n = Impl.base_time_ st1 ∧
  Impl.base_ts_ st_n = Impl.base_ts_ st1 ∧
  Impl.LogTime st_n (TraceEvent.event_time early_ready) < 0.
Proof.
  intros first later st1 st_n.
  assert (Hw : ∀ t, t ∈ wall_times (call_snapshot first) → t < INT64_MAX).
  { apply (proj1 (list.Forall_forall (fun t => t < INT64_MAX) _)).
    assert (E : wall_times (call_snapshot first) = [100; 105; 110; 120])
      by (vm_compute; reflexivity).
    rewrite E. repeat constructor. }
  assert (Hl : ∀ t, t ∈ logical_times example_timestamps (call_snapshot first)
                    → t < INT64_MAX).
  { apply (proj1 (list.Forall_forall (fun t => t < INT64_MAX) _)).
    assert (E : logical_times example_timestamps (call_snapshot first)
                = [0; 0; 0; 0; 0; 0; 0])
      by (vm_compute; reflexivity).
    rewrite E. repeat constructor. }
  destruct (base_time_sticky example_heap example_timestamps
              (Impl.new example_heap) first later
              eq_refl eq_refl ltac:(discriminate) Hw Hl)
    as (_ & Hmin & _ & Hmin' & Ht & Hs & Hneg).
  split; [apply Hmin; discriminate|].
  split; [apply Hmin'; discriminate|].
  split; [exact Ht|]. split; [exact Hs|].
  apply Hneg; vm_compute; [reflexivity|discriminate].
Defined.

Example base_time_values :
  let first := CallCreateTrace example_buffer (UnixMicros 100) (UnixMicros 200) in
  let later := [CallCreateLog (early_ready :: example_buffer)
                  InfinitePast (UnixMicros 100)] in
  let st1 := run_call example_heap example_timestamps (Impl.new example_heap) first in
  let st_n := run_calls example_heap example_timestamps st1 later in
  Impl.base_time_ st1 = 100 ∧ Impl.base_ts_ st1 = 0 ∧
  Impl.base_time_ st_n = 100 ∧ Impl.base_ts_ st_n = 0 ∧
  Impl.LogTime st_n (TraceEvent.event_time early_ready) = -60.
Proof. vm_compute. done. Qed.

(** * Aggregated records *)

Section CalculatorTraceFacts.
Variable H : Heap.
Variable TS : TimestampApi.

Lemma BuildCalculatorTrace_step_eq s f r st ev :
  let r1 :=
    if decide ((length (CalculatorTrace.input_trace r)
                + length (CalculatorTrace.output_trace r))%nat = 0%nat)
    then
      CalculatorTrace.set_thread_id (TraceEvent.thread_id ev)
        (CalculatorTrace.set_input_timestamp
           (Impl.LogTimestamp st (TraceEvent.input_ts ev))
           (CalculatorTrace.set_event_type (TraceEvent.event_type ev)
              (CalculatorTrace.set_node_id (TraceEvent.node_id ev) r)))
    else r in
  let f' := if TraceEvent.is_finish ev
            then Time_min f (TraceEvent.event_time ev) else f in
  let s' := if TraceEvent.is_finish ev
            then s else Time_min s (TraceEvent.event_time ev) in
  let tr := (Impl.BuildStreamTrace H st ev StreamTrace.empty).1 in
  let st' := (Impl.BuildStreamTrace H st ev StreamTrace.empty).2 in
  Impl.BuildCalculatorTrace_step H (Impl.mkBuildLoop s f r st) ev =
    if is_stream_event ev then
      Impl.mkBuildLoop s' f'
        (if TraceEvent.is_finish ev
         then CalculatorTrace.add_output_trace tr r1
         else CalculatorTrace.add_input_trace tr r1) st'
    else Impl.mkBuildLoop s' f' r1 st.
Proof.
  cbn zeta. unfold Impl.BuildCalculatorTrace_step, is_stream_event.
  destruct (table_at kProfilerStreamEvents (TraceEvent.event_type ev)); [|done].
  destruct (Impl.BuildStreamTrace H st ev StreamTrace.empty) as [tr st'].
  by destruct (TraceEvent.is_finish ev).
Qed.

(** Once a record has a transfer entry, the loop leaves its identity fields
    alone and only appends transfer entries. *)
Lemma BuildCalculatorTrace_loop_identity l : ∀ acc,
  (length (CalculatorTrace.input_trace (Impl.bl_result acc))
   + length (CalculatorTrace.output_trace (Impl.bl_result acc)) ≠ 0)%nat →
  identity_of
    (Impl.bl_result (fold_left (Impl.BuildCalculatorTrace_step H) l acc))
  = identity_of (Impl.bl_result acc).
Proof.
  induction l as [|ev l IH]; intros [s f r st] Hne; cbn [fold_left]; [done|].
  cbn [Impl.bl_result] in Hne.
  rewrite BuildCalculatorTrace_step_eq. cbn zeta.
  rewrite decide_False by done.
  destruct (is_stream_event ev); [destruct (TraceEvent.is_finish ev)|];
    rewrite IH; cbn; try done; rewrite ?length_app; cbn; lia.
Qed.

Lemma BuildCalculatorTrace_final_identity st l r0 :
  identity_of (Impl.BuildCalculatorTrace H st l r0).1
  = identity_of
      (Impl.bl_result
         (fold_left (Impl.BuildCalculatorTrace_step H) l
            (Impl.mkBuildLoop InfiniteFuture InfiniteFuture r0 st))).
Proof.
  rewrite BuildCalculatorTrace_eq. cbn zeta. cbn [fst].
  destruct (Time_lt _ InfiniteFuture); destruct (Time_lt _ InfiniteFuture); done.
Qed.

(** Where the claim of C8 holds: a list whose first event is of a kind that
    produces stream-hop sub-records. *)
Lemma BuildCalculatorTrace_identity_stream_kind st first rest :
  is_stream_event first = true →
  identity_of
    (Impl.BuildCalculatorTrace H st (first :: rest) CalculatorTrace.empty).1
  = (Some (TraceEvent.node_id first), Some (TraceEvent.event_type first),
     Some (Impl.LogTimestamp st (TraceEvent.input_ts first)),
     Some (TraceEvent.thread_id first)).
Proof.
  intros Hs. rewrite BuildCalculatorTrace_final_identity. cbn [fold_left].
  rewrite BuildCalculatorTrace_step_eq. cbn zeta. rewrite Hs.
  destruct (TraceEvent.is_finish first);
    rewrite BuildCalculatorTrace_loop_identity; cbn; try done; lia.
Qed.

(** While no transfer entry exists, every event overwrites the identity
    fields: over events of a kind without stream-hop sub-records the last
    event wins. *)
Lemma BuildCalculatorTrace_loop_identity_last l : ∀ acc last,
  Forall (fun ev => is_stream_event ev = false) (l ++ [last]) →
  (length (CalculatorTrace.input_trace (Impl.bl_result acc))
   + length (CalculatorTrace.output_trace (Impl.bl_result acc)) = 0)%nat →
  identity_of
    (Impl.bl_result
       (fold_left (Impl.BuildCalculatorTrace_step H) (l ++ [last]) acc))
  = (Some (TraceEvent.node_id last), Some (TraceEvent.event_type last),
     Some (Impl.LogTimestamp (Impl.bl_state acc) (TraceEvent.input_ts last)),
     Some (TraceEvent.thread_id last)).
Proof.
  induction l as [|ev l IH]; intros [s f r st] last Hall Hz;
    cbn [app fold_left]; cbn [Impl.bl_result Impl.bl_state] in *.
  - apply Forall_cons_1 in Hall as [Hl _].
    rewrite BuildCalculatorTrace_step_eq. cbn zeta. rewrite Hl.
    by rewrite decide_True by done.
  - cbn [app] in Hall. apply Forall_cons_1 in Hall as [Hev Hall].
    rewrite BuildCalculatorTrace_step_eq. cbn zeta. rewrite Hev.
    rewrite decide_True by done.
    rewrite IH; [done|done|]. cbn. exact Hz.
Qed.

Lemma BuildCalculatorTrace_identity_task_kind st l last :
  Forall (fun ev => is_stream_event ev = false) (l ++ [last]) →
  identity_of
    (Impl.BuildCalculatorTrace H st (l ++ [last]) CalculatorTrace.empty).1
  = (Some (TraceEvent.node_id last), Some (TraceEvent.event_type last),
     Some (Impl.LogTimestamp st (TraceEvent.input_ts last)),
     Some (TraceEvent.thread_id last)).
Proof.
  intros Hall. rewrite BuildCalculatorTrace_final_identity.
  by rewrite BuildCalculatorTrace_loop_identity_last.
Qed.

End CalculatorTraceFacts.

(** C8 fails on lists of GPU, DSP or TPU task events.  The loop of
    [BuildCalculatorTrace] sets the identity fields for every event seen
    while the record has no transfer entry; events of these kinds add none,
    so each event overwrites the fields and the last one wins.  Here the
    task list of node 1 is [gpu_start; gpu_finish]: the record carries the
    thread 9 of the last event, not the thread 7 of the first. *)
Theorem identity_fields_from_last_task_event :
  let res := Impl.CreateTrace example_heap example_timestamps
               (Impl.new example_heap) [gpu_start; gpu_finish]
               InfinitePast InfiniteFuture in
  Impl.task_events_ res.2 !!! Impl.task_id_of gpu_start
  = [gpu_start; gpu_finish] ∧
  TraceEvent.thread_id gpu_start = 7 ∧
  identity_of <$> GraphTrace.calculator_trace res.1
  = [(Some 1, Some GPU_TASK, Some 0, Some 9)].
Proof. vm_compute. done. Qed.

(** The same list given to [BuildCalculatorTrace] directly, on any builder. *)
Example identity_fields_gpu_task (st : Impl.t) :
  CalculatorTrace.thread_id
    (Impl.BuildCalculatorTrace example_heap st [gpu_start; gpu_finish]
       CalculatorTrace.empty).1
  = Some (TraceEvent.thread_id gpu_finish).
Proof.
  pose proof (BuildCalculatorTrace_identity_task_kind example_heap st
                [gpu_start] gpu_finish) as Hid.
  unfold identity_of in Hid. cbn [app] in Hid.
  assert (Hall : Forall (fun ev => is_stream_event ev = false)
                        [gpu_start; gpu_finish]) by (repeat constructor).
  specialize (Hid Hall). by apply (f_equal snd) in Hid.
Qed.

(** C4 fails in aggregated mode.  [open_start] has a null stream pointer
    and a kind that produces stream-hop sub-records: [BuildCalculatorTrace]
    builds a transfer entry for it without looking at the pointer, and the
    entry carries stream id 0.  [BuildEventLog] tests the pointer and, for
    the same event, emits no transfer entry. *)
Theorem aggregated_transfer_with_null_stream :
  let aggregated := Impl.CreateTrace example_heap example_timestamps
                      (Impl.new example_heap) [open_start]
                      InfinitePast InfiniteFuture in
  let verbatim := Impl.CreateLog example_heap example_timestamps
                    (Impl.new example_heap) [open_start]
                    InfinitePast InfiniteFuture in
  TraceEvent.stream_id open_start = nullptr ∧
  (fun r => StreamTrace.stream_id <$> CalculatorTrace.input_trace r)
    <$> GraphTrace.calculator_trace aggregated.1 = [[Some 0]] ∧
  CalculatorTrace.input_trace <$> GraphTrace.calculator_trace verbatim.1 = [[]] ∧
  CalculatorTrace.output_trace <$> GraphTrace.calculator_trace verbatim.1 = [[]].
Proof. vm_compute. done. Qed.

(** The part of C4 that holds: on the interners of a builder, while the
    32-bit counter has not run out, a non-null stream pointer to a non-empty
    name and a non-null packet address never receive 0. *)
Lemma interner_zero_reserved (H : Heap) (ks : list Z) :
  Z.of_nat (length ks) < INT32_MAX - 1 →
  let sm := string_lookups H (string_interner_init H) ks in
  let am := address_lookups address_interner_init ks in
  (∀ p, p ≠ nullptr → deref H p ≠ "" →
        (StringIdMap.op_index H sm p).1 ≠ 0) ∧
  (∀ a, a ≠ nullptr → (AddressIdMap.op_index am a).1 ≠ 0).
Proof.
  intros Hb sm am.
  assert (Hsd : string_dense sm).
  { apply string_lookups_dense; [apply string_interner_init_dense|].
    rewrite string_interner_init_eq. simpl. lia. }
  assert (Had : address_dense am).
  { apply address_lookups_dense; [apply address_interner_init_dense|].
    rewrite address_interner_init_eq. simpl. lia. }
  assert (Hok : cache_ok H sm).
  { apply string_lookups_cache_ok, string_interner_init_cache_ok. }
  split.
  - intros p Hp Hne Hz.
    assert (Hs : ∀ v, StringIdMap.string_id_map_ sm !! deref H p = Some v → v ≠ 0).
    { intros v Hv ->. apply Hne.
      exact (sd_inj _ Hsd _ _ _ Hv (sd_zero _ Hsd)). }
    pose proof (sd_range _ Hsd _ _ (sd_zero _ Hsd)) as Hr.
    destruct (op_index_cases H sm p) as
      [[? _]|[(_ & v & Hc & E)|[(_ & _ & v & Hv & E)|(_ & _ & _ & E)]]];
      try done; rewrite E in Hz; cbn in Hz.
    + apply Hok in Hc. by apply (Hs v).
    + by apply (Hs v).
    + lia.
  - intros a Ha Hz.
    pose proof (ad_range _ Had _ _ (ad_zero _ Had)) as Hr.
    destruct (address_op_index_cases am a) as [(v & Hv & E)|(_ & E)];
      rewrite E in Hz; cbn in Hz.
    + subst v. apply Ha. exact (ad_inj _ Had _ _ _ Hv (ad_zero _ Had)).
    + lia.
Qed.

(** * The emission plan of an aggregated trace *)

Section EmissionPlan.
Variable H : Heap.
Variable TS : TimestampApi.

Lemma emission_plan_from_app pre : ∀ earlier rest,
  emission_plan_from earlier (pre ++ rest)
  = emission_plan_from earlier pre ++ emission_plan_from (earlier ++ pre) rest.
Proof.
  induction pre as [|ev pre IH]; intros earlier rest; cbn.
  - by rewrite app_nil_r.
  - rewrite IH. rewrite <- !app_assoc. done.
Qed.

Lemma emission_plan_from_count k rest : ∀ earlier,
  length (filter (has_key k) (emission_plan_from earlier rest))
  = if decide (Exists (has_key k) earlier) then 0%nat
    else if decide (Exists (has_key k) rest) then 1%nat else 0%nat.
Proof.
  induction rest as [|ev rest IH]; intros earlier; cbn [emission_plan_from].
  - rewrite filter_nil. cbn.
    destruct (decide (Exists (has_key k) earlier)); [done|].
    rewrite decide_False; [done|]. by intros ?%Exists_nil.
  - rewrite list.filter_app, length_app, IH.
    destruct (decide (has_key k ev)) as [Hk|Hk].
    + (* [ev] belongs to [k] *)
      rewrite (decide_True (P := Exists (has_key k) (earlier ++ [ev]))).
      2: { apply list.Exists_app. right. by constructor. }
      destruct (decide (Exists (has_key k) earlier)) as [He|He].
      * rewrite decide_False; [done|].
        intros [Hp|Hall]; [destruct Hk; congruence|].
        apply list.Exists_exists in He as (ev' & Hin & Hk').
        rewrite list.Forall_forall in Hall. apply (Hall ev' Hin).
        destruct Hk as [_ ->]. done.
      * rewrite decide_True.
        2: { right. apply list.Forall_forall. intros ev' Hin Hk'.
             apply He. apply list.Exists_exists. exists ev'. split; [done|].
             destruct Hk as [_ <-]. done. }
        rewrite filter_cons, decide_True by done.
        rewrite decide_True; [done|]. by constructor.
    + (* [ev] does not belong to [k] *)
      assert (Hnone : length (filter (has_key k)
                        (if decide (emitted_here earlier ev) then [ev] else []))
                      = 0%nat).
      { destruct (decide (emitted_here earlier ev)); [|done].
        by rewrite filter_cons, decide_False. }
      rewrite Hnone. cbn [Nat.add].
      destruct (decide (Exists (has_key k) earlier)) as [He|He].
      * rewrite decide_True; [done|]. apply list.Exists_app. by left.
      * rewrite decide_False.
        2: { intros [?|Hx%Exists_cons]%list.Exists_app; [done|].
             destruct Hx as [?|Hx%Exists_nil]; done. }
        destruct (decide (Exists (has_key k) rest)) as [Hr|Hr].
        -- rewrite decide_True; [done|]. by apply Exists_cons_tl.
        -- rewrite decide_False; [done|].
           intros [?|?]%Exists_cons; done.
Qed.

(** Each invocation of the snapshot is planned once, where its first event
    stands. *)
Lemma emission_plan_first_occurrence k pre ev post :
  has_key k ev → Forall (fun ev' => ¬ has_key k ev') pre →
  emission_plan (pre ++ ev :: post)
  = emission_plan pre ++ ev :: emission_plan_from (pre ++ [ev]) post ∧
  filter (has_key k) (emission_plan (pre ++ ev :: post)) = [ev].
Proof.
  intros Hk Hpre. unfold emission_plan.
  assert (Hplan :
    emission_plan_from [] (pre ++ ev :: post)
    = emission_plan_from [] pre ++ ev :: emission_plan_from (pre ++ [ev]) post).
  { rewrite emission_plan_from_app. cbn [app emission_plan_from].
    rewrite decide_True; [done|].
    right. destruct Hk as [_ <-] in Hpre. exact Hpre. }
  split; [exact Hplan|].
  rewrite Hplan, list.filter_app, filter_cons, decide_True by done.
  pose proof (emission_plan_from_count k pre []) as H1.
  rewrite decide_False in H1 by (by intros ?%Exists_nil).
  rewrite decide_False in H1.
  2: { intros (ev' & Hin & Hk')%list.Exists_exists.
       rewrite list.Forall_forall in Hpre. by apply (Hpre ev'). }
  apply nil_length_inv in H1. rewrite H1.
  pose proof (emission_plan_from_count k post (pre ++ [ev])) as H2.
  rewrite decide_True in H2.
  2: { apply list.Exists_app. right. by constructor. }
  apply nil_length_inv in H2. by rewrite H2.
Qed.


End EmissionPlan.

(** * The records of an aggregated trace *)

Section AssemblyRecords.
Variable H : Heap.
Variable TS : TimestampApi.

(** The assembly loop emits one record per planned event, in order. *)
Lemma CreateTrace_loop_records st2 rest : ∀ earlier acc,
  (∀ k, k ∈ Impl.tl_task_ids acc ↔ Exists (has_key k) earlier) →
  build_ext H st2 (Impl.tl_state acc) →
  ∃ rs,
    Impl.tl_traces (fold_left (Impl.CreateTrace_step H TS) rest acc)
    = Impl.tl_traces acc ++ rs ∧
    Forall2 (aggregated_record H TS st2) (emission_plan_from earlier rest) rs.
Proof.
  induction rest as [|ev rest IH]; intros earlier acc Hids Hext;
    cbn [fold_left emission_plan_from].
  - exists []. by rewrite app_nil_r.
  - destruct (CreateTrace_step_cases H TS acc ev)
      as [[Hp E]|[(Hp & Hin & E)|(Hp & Hin & E)]].
    + (* no packet detail: a standalone record *)
      destruct (IH (earlier ++ [ev]) (Impl.CreateTrace_step H TS acc ev))
        as (rs & Hrs & Hall).
      { rewrite E. cbn [Impl.tl_task_ids]. intros k. rewrite Hids.
        rewrite list.Exists_app. split; [by left|].
        intros [?|Hx]; [done|].
        apply Exists_cons in Hx as [[Hx _]|Hx%Exists_nil]; [congruence|done]. }
      { eapply build_ext_trans; [exact Hext|].
        apply CreateTrace_step_build_ext. }
      rewrite decide_True by (by left).
      rewrite Hrs, E. cbn [Impl.tl_traces]. rewrite <- app_assoc.
      eexists. split; [done|]. cbn [app]. constructor; [|exact Hall].
      exists (Impl.tl_state acc). split; [done|]. by rewrite Hp.
    + (* a key already emitted in this call *)
      rewrite E.
      destruct (IH (earlier ++ [ev]) acc) as (rs & Hrs & Hall); [|done|].
      { intros k. rewrite list.Exists_app. split.
        - intros ?%Hids. by left.
        - intros [?|Hx]; [by apply Hids|].
          apply Exists_cons in Hx as [[_ <-]|Hx%Exists_nil]; done. }
      rewrite decide_False.
      2: { intros [?|Hall']; [congruence|].
           apply Hids in Hin. apply list.Exists_exists in Hin as (ev' & Hev' & Hk).
           rewrite list.Forall_forall in Hall'. by apply (Hall' ev'). }
      exists rs. done.
    + (* the first event of its invocation in this call *)
      destruct (IH (earlier ++ [ev]) (Impl.CreateTrace_step H TS acc ev))
        as (rs & Hrs & Hall).
      { rewrite E. cbn [Impl.tl_task_ids]. intros k.
        rewrite elem_of_union, elem_of_singleton, Hids, list.Exists_app.
        split.
        - intros [->|?]; [right|by left]. by constructor.
        - intros [?|Hx]; [by right|].
          apply Exists_cons in Hx as [[_ <-]|Hx%Exists_nil]; [by left|done]. }
      { eapply build_ext_trans; [exact Hext|].
        apply CreateTrace_step_build_ext. }
      rewrite decide_True.
      2: { right. apply list.Forall_forall. intros ev' Hev' Hk.
           apply Hin, Hids. apply list.Exists_exists. by exists ev'. }
      rewrite Hrs, E. cbn [Impl.tl_traces]. rewrite <- app_assoc.
      eexists. split; [done|]. cbn [app]. constructor; [|exact Hall].
      exists (Impl.task_events_at (Impl.tl_state acc) (Impl.task_id_of ev)).2.
      split.
      * eapply build_ext_trans; [exact Hext|]. apply task_events_at_build_ext.
      * rewrite Hp. by rewrite (be_task _ _ _ Hext).
Qed.

(** The records of an aggregated trace, the indexed builder [st2] and the
    builder the call leaves. *)
Lemma CreateTrace_records st buffer begin_time end_time :
  let snapshot := Impl.Snapshot buffer begin_time end_time in
  let st2 := indexed_state H TS st buffer begin_time end_time in
  let res := Impl.CreateTrace H TS st buffer begin_time end_time in
  build_ext H st2 res.2 ∧
  Forall2 (aggregated_record H TS st2) (emission_plan snapshot)
          (GraphTrace.calculator_trace res.1).
Proof.
  cbn zeta. rewrite CreateTrace_eq. cbn zeta.
  cbn [fst snd GraphTrace.calculator_trace].
  set (snapshot := Impl.Snapshot buffer begin_time end_time).
  set (st2 := indexed_state H TS st buffer begin_time end_time).
  split.
  - apply (CreateTrace_loop_build_ext H TS snapshot (Impl.mkTraceLoop ∅ [] st2)).
  - destruct (CreateTrace_loop_records st2 snapshot []
                (Impl.mkTraceLoop ∅ [] st2)) as (rs & -> & Hall).
    + intros k. cbn. split; [set_solver|]. by intros ?%Exists_nil.
    + apply build_ext_refl.
    + done.
Qed.

End AssemblyRecords.

Section AggregatedEmission.
Variable H : Heap.
Variable TS : TimestampApi.

Lemma Exists_first_occurrence {A} (P : A → Prop) `{∀ x, Decision (P x)}
    (l : list A) :
  Exists P l →
  ∃ pre x post, l = pre ++ x :: post ∧ P x ∧ Forall (fun y => ¬ P y) pre.
Proof.
  induction l as [|y l IH]; intros Hex; [by apply Exists_nil in Hex|].
  destruct (decide (P y)) as [Hy|Hy].
  - exists [], y, l. by repeat split.
  - apply Exists_cons in Hex as [?|Hex]; [done|].
    destruct (IH Hex) as (pre & x & post & -> & Hx & Hpre).
    exists (y :: pre), x, post. split; [done|]. split; [done|].
    by constructor.
Qed.

Lemma emission_plan_from_elem rest : ∀ earlier ev,
  ev ∈ emission_plan_from earlier rest → ev ∈ rest.
Proof.
  induction rest as [|x rest IH]; intros earlier ev; cbn [emission_plan_from].
  - done.
  - rewrite elem_of_app. intros [Hin|Hin].
    + destruct (decide (emitted_here earlier x)).
      * apply list_elem_of_singleton in Hin as ->. apply list_elem_of_here.
      * by apply elem_of_nil in Hin.
    + apply list_elem_of_further. by eapply IH.
Qed.

Lemma filter_zip_length {A B} (P : A → Prop) `{∀ x, Decision (P x)}
    (l : list A) : ∀ k : list B,
  length l = length k →
  length (filter (fun p => P p.1) (zip l k)) = length (filter P l).
Proof.
  induction l as [|x l IH]; intros [|y k] Hlen; try done.
  cbn [zip zip_with]. rewrite !filter_cons. cbn [fst].
  injection Hlen as Hlen.
  destruct (decide (P x)); cbn [length]; by rewrite IH.
Qed.

Lemma indexed_state_task_events st buffer begin_time end_time k :
  Impl.task_events_ (indexed_state H TS st buffer begin_time end_time) !!! k
  = Impl.task_events_ st !!! k
    ++ filter (has_key k) (Impl.Snapshot buffer begin_time end_time).
Proof.
  unfold indexed_state. rewrite index_loop_task_events.
  by destruct (SetBaseTime_frame TS st
                 (Impl.Snapshot buffer begin_time end_time)) as (-> & _).
Qed.

(** The record an invocation of the snapshot gives rise to. *)
Lemma CreateTrace_record_of_key st buffer begin_time end_time k :
  let snapshot := Impl.Snapshot buffer begin_time end_time in
  let st2 := indexed_state H TS st buffer begin_time end_time in
  let res := Impl.CreateTrace H TS st buffer begin_time end_time in
  Exists (has_key k) snapshot →
  ∃ ev r, filter (has_key k) (emission_plan snapshot) = [ev] ∧
          has_key k ev ∧ ev ∈ snapshot ∧
          r ∈ GraphTrace.calculator_trace res.1 ∧
          aggregated_record H TS st2 ev r.
Proof.
  intros snapshot st2 res Hex.
  destruct (Exists_first_occurrence _ _ Hex)
    as (pre & ev & post & Hsnap & Hk & Hpre).
  destruct (emission_plan_first_occurrence k pre ev post Hk Hpre)
    as [Hplan Hfilter].
  destruct (CreateTrace_records H TS st buffer begin_time end_time)
    as [_ Hall].
  fold snapshot res st2 in Hall. rewrite Hsnap, Hplan in Hall.
  apply Forall2_app_inv_l in Hall as (rs1 & rs2 & _ & Hall & Hrs).
  apply Forall2_cons_inv_l in Hall as (r & rs3 & Hr & _ & ->).
  exists ev, r. rewrite Hsnap. split; [done|]. split; [done|].
  split; [|split; [|done]].
  - apply elem_of_app. right. apply list_elem_of_here.
  - rewrite Hrs. apply elem_of_app. right. apply list_elem_of_here.
Qed.

End AggregatedEmission.



(** The two windows of the example: the invocation of the [OPEN] events of
    node 1 is emitted by both calls, the second record being built from the
    three events the index holds by then. *)
Example aggregated_emission_two_windows :
  let H := example_heap in
  let TS := example_timestamps in
  let buffer := example_buffer ++ [open_late] in
  let res := Impl.CreateTrace H TS (Impl.new H) buffer
               (UnixMicros 100) (UnixMicros 200) in
  let res' := Impl.CreateTrace H TS res.2 buffer
                (UnixMicros 200) (UnixMicros 300) in
  identity_of <$> GraphTrace.calculator_trace res.1
  = [(Some 1, Some OPEN, Some 0, Some 7); (Some 2, Some PROCESS, Some 0, Some 8)] ∧
  Impl.task_events_ res'.2 !!! open_key = [open_start; open_send; open_late] ∧
  (fun r => (identity_of r, CalculatorTrace.start_time r,
             CalculatorTrace.finish_time r,
             length (CalculatorTrace.input_trace r),
             length (CalculatorTrace.output_trace r)))
    <$> GraphTrace.calculator_trace res'.1
  = [((Some 1, Some OPEN, Some 0, Some 7), Some 0, Some 5, 1%nat, 2%nat)].
Proof. vm_compute. done. Qed.

(** * Grouping *)

Section GroupingFacts.
Variable H : Heap.
Variable TS : TimestampApi.

Lemma filter_length_all {A} (P : A → Prop) `{∀ x, Decision (P x)} (l : list A) :
  length (filter P l) = length l → Forall P l.
Proof.
  induction l as [|x l IH]; intros Hlen; [constructor|].
  rewrite filter_cons in Hlen. destruct (decide (P x)) as [Hx|Hx].
  - constructor; [done|]. apply IH. cbn in Hlen. lia.
  - pose proof (length_filter P l). cbn in Hlen. lia.
Qed.

Lemma filter_all {A} (P : A → Prop) `{∀ x, Decision (P x)} (l : list A) :
  Forall P l → filter P l = l.
Proof.
  induction 1 as [|x l Hx Hl IH]; [done|].
  by rewrite filter_cons, decide_True, IH.
Qed.

(** The records of a verbatim log: one per event of the snapshot. *)
Lemma CreateLog_records st buffer begin_time end_time :
  let snapshot := Impl.Snapshot buffer begin_time end_time in
  let res := Impl.CreateLog H TS st buffer begin_time end_time in
  Forall2 (verbatim_record TS res.2) snapshot
          (GraphTrace.calculator_trace res.1).
Proof.
  intros snapshot res. subst res. rewrite CreateLog_eq. cbn zeta.
  cbn [fst snd GraphTrace.calculator_trace]. fold snapshot.
  by destruct (CreateLog_loop H TS snapshot [] (Impl.SetBaseTime TS st snapshot))
    as (_ & rs & -> & Hall).
Qed.

End GroupingFacts.

(** C7. Grouping.  Let [N] >= 1 events of the snapshot share the
    invocation key [k] (of a kind with packet detail).  One call of
    [CreateTrace] emits its records one per planned event, and exactly one
    of them stems from an event of key [k]; that record is built from the
    whole list under [k].  One call of [CreateLog] over the same snapshot
    emits one record per event, so exactly [N] records stem from the events
    of key [k].  When the snapshot consists of these [N] events only, the
    aggregated trace has 1 record and the verbatim log [N]. *)
Theorem grouping_correctness
    (H : Heap) (TS : TimestampApi) (st : Impl.t)
    (buffer : list TraceEvent.t) (begin_time end_time : Time) (k : TaskId.t) :
  let snapshot := Impl.Snapshot buffer begin_time end_time in
  let st2 := indexed_state H TS st buffer begin_time end_time in
  let aggregated := Impl.CreateTrace H TS st buffer begin_time end_time in
  let verbatim := Impl.CreateLog H TS st buffer begin_time end_time in
  let N := length (filter (has_key k) snapshot) in
  (0 < N)%nat →
  Forall2 (aggregated_record H TS st2) (emission_plan snapshot)
          (GraphTrace.calculator_trace aggregated.1) ∧
  length (filter (fun p => has_key k p.1)
            (zip (emission_plan snapshot)
                 (GraphTrace.calculator_trace aggregated.1))) = 1%nat ∧
  Forall2 (verbatim_record TS verbatim.2) snapshot
          (GraphTrace.calculator_trace verbatim.1) ∧
  length (filter (fun p => has_key k p.1)
            (zip snapshot (GraphTrace.calculator_trace verbatim.1))) = N ∧
  (N = length snapshot →
   length (GraphTrace.calculator_trace aggregated.1) = 1%nat ∧
   length (GraphTrace.calculator_trace verbatim.1) = N).
Proof.
  intros snapshot st2 aggregated verbatim N HN.
  destruct (CreateTrace_records H TS st buffer begin_time end_time)
    as [_ Hagg].
  fold snapshot st2 aggregated in Hagg.
  pose proof (CreateLog_records H TS st buffer begin_time end_time) as Hlog.
  fold snapshot verbatim in Hlog.
  pose proof (list.Forall2_length _ _ _ Hagg) as Hlen_agg.
  pose proof (list.Forall2_length _ _ _ Hlog) as Hlen_log.
  assert (Hex : Exists (has_key k) snapshot).
  { subst N. destruct (filter (has_key k) snapshot) as [|ev l] eqn:E;
      [cbn in HN; lia|].
    apply list.Exists_exists. exists ev.
    assert (Hin : ev ∈ filter (has_key k) snapshot)
      by (rewrite E; apply list_elem_of_here).
    apply list_elem_of_filter in Hin as [? ?]. done. }
  assert (Hone : length (filter (has_key k) (emission_plan snapshot)) = 1%nat).
  { unfold emission_plan. rewrite emission_plan_from_count.
    rewrite decide_False by (by intros ?%Exists_nil).
    by rewrite decide_True. }
  split_and!.
  - exact Hagg.
  - by rewrite (filter_zip_length (has_key k) _ _ Hlen_agg).
  - exact Hlog.
  - by rewrite (filter_zip_length (has_key k) _ _ Hlen_log).
  - intros Hall. split; [|by rewrite <- Hlen_log].
    rewrite <- Hlen_agg, <- Hone. f_equal. symmetry.
    assert (Hfull : Forall (has_key k) snapshot).
    { by apply (filter_length_all (has_key k)). }
    apply filter_all. apply list.Forall_forall. intros ev Hev.
    apply emission_plan_from_elem in Hev.
    rewrite list.Forall_forall in Hfull. by apply Hfull.
Qed.

Lemma grouping_correctness_witness :
  let H := example_heap in
  let TS := example_timestamps in
  let buffer := [open_start; open_send] in
  let snapshot := Impl.Snapshot buffer InfinitePast InfiniteFuture in
  let aggregated := Impl.CreateTrace H TS (Impl.new H) buffer
                      InfinitePast InfiniteFuture in
  let verbatim := Impl.CreateLog H TS (Impl.new H) buffer
                    InfinitePast InfiniteFuture in
  (0 < length (filter (has_key open_key) snapshot))%nat ∧
  length (filter (has_key open_key) snapshot) = length snapshot ∧
  length (GraphTrace.calculator_trace aggregated.1) = 1%nat ∧
  length (GraphTrace.calculator_trace verbatim.1)
  = length (filter (has_key open_key) snapshot).
Proof.
  intros H TS buffer snapshot aggregated verbatim.
  assert (HN : (0 < length (filter (has_key open_key) snapshot))%nat)
    by (vm_compute; lia).
  assert (Hall : length (filter (has_key open_key) snapshot) = length snapshot)
    by (vm_compute; reflexivity).
  destruct (grouping_correctness H TS (Impl.new H) buffer
              InfinitePast InfiniteFuture open_key HN)
    as (_ & _ & _ & _ & Hlen).
  split; [exact HN|]. split; [exact Hall|]. exact (Hlen Hall).
Defined.

(** Two events of one invocation among others: one aggregated record for
    the invocation, two standalone records in the log. *)
Example grouping_in_example_buffer :
  let H := example_heap in
  let TS := example_timestamps in
  let aggregated := Impl.CreateTrace H TS (Impl.new H) example_buffer
                      InfinitePast InfiniteFuture in
  let verbatim := Impl.CreateLog H TS (Impl.new H) example_buffer
                    InfinitePast InfiniteFuture in
  CalculatorTrace.node_id <$> GraphTrace.calculator_trace aggregated.1
  = [Some 1; Some 2] ∧
  CalculatorTrace.node_id <$> GraphTrace.calculator_trace verbatim.1
  = [Some 1; Some 1; Some 2; Some 2].
Proof. vm_compute. done. Qed.

(** * The hop index *)

Section HopIndexFacts.
Variable H : Heap.
Variable TS : TimestampApi.

Lemma stream_event_is_packet_event ev :
  is_stream_event ev = true → is_packet_event ev = true.
Proof.
  unfold is_stream_event, is_packet_event.
  by destruct (TraceEvent.event_type ev).
Qed.

Lemma transfer_key_eq st ev :
  transfer_key H st ev =
    TaskId.mk (StringIdMap.op_index H (Impl.stream_id_map_ st)
                 (TraceEvent.stream_id ev)).1
              (TraceEvent.packet_ts ev)
              (EventType_to_int (TraceEvent.event_type ev)).
Proof. unfold transfer_key. by rewrite hop_id_of_eq. Qed.

(** A pointer that has been looked up keeps its identifier in every later
    interner. *)
Lemma op_index_pointer_stable (m m' : StringIdMap.t) (p : Z) :
  string_ext (StringIdMap.op_index H m p).2 m' →
  (StringIdMap.op_index H m' p).1 = (StringIdMap.op_index H m p).1.
Proof.
  intros [Hext _].
  destruct (decide (p = nullptr)) as [->|Hp].
  { by rewrite !op_index_null. }
  pose proof (op_index_pointer_result H m p Hp) as Hc.
  eapply lookup_weaken in Hc; [|exact Hext].
  unfold StringIdMap.op_index at 1. rewrite decide_False by done.
  by rewrite Hc.
Qed.



(** An indexed event keeps its TransferKey in every later builder. *)
Lemma transfer_key_index_stable st st' ev :
  is_packet_event ev = true →
  string_ext (Impl.stream_id_map_ (Impl.index_event H st ev))
             (Impl.stream_id_map_ st') →
  transfer_key H st' ev = transfer_key H st ev.
Proof.
  intros Hp Hext. rewrite index_event_eq, Hp in Hext. cbn in Hext.
  rewrite !transfer_key_eq. f_equal. by apply op_index_pointer_stable.
Qed.

Lemma index_event_hop st ev k :
  Impl.hop_events_ (Impl.index_event H st ev) !! k
  = if decide (is_producer ev ∧ transfer_key H st ev = k)
    then Some (Some ev) else Impl.hop_events_ st !! k.
Proof.
  rewrite index_event_eq.
  destruct (decide (is_producer ev ∧ transfer_key H st ev = k))
    as [[[Hp Hf] Hk]|Hn].
  - rewrite Hp, Hf. cbn [negb Impl.hop_events_].
    fold (transfer_key H st ev). rewrite Hk. apply lookup_insert_eq.
  - destruct (is_packet_event ev) eqn:Hp; cbn [negb]; [|done].
    destruct (TraceEvent.is_finish ev) eqn:Hf; cbn [Impl.hop_events_]; [|done].
    fold (transfer_key H st ev). rewrite lookup_insert_ne; [done|].
    intros Hk. apply Hn. by repeat split.
Qed.



End HopIndexFacts.

(** * Transfer entries of aggregated records *)

Section TransferFacts.
Variable H : Heap.
Variable TS : TimestampApi.

Lemma hop_lookup_build_ext st st' k :
  build_ext H st st' → hop_lookup st' k = hop_lookup st k.
Proof.
  intros Hext. unfold hop_lookup.
  pose proof (be_hop _ _ _ Hext k) as Hk.
  destruct (Impl.hop_events_ st' !! k) as [[e'|]|] eqn:E';
    destruct (Impl.hop_events_ st !! k) as [[e|]|] eqn:E; cbn; try done.
  - destruct (Hk e') as [Hx _]. specialize (Hx eq_refl). congruence.
  - destruct (Hk e') as [Hx _]. specialize (Hx eq_refl). congruence.
  - destruct (Hk e') as [Hx _]. specialize (Hx eq_refl). congruence.
  - destruct (Hk e) as [_ Hx]. specialize (Hx eq_refl). congruence.
  - destruct (Hk e) as [_ Hx]. specialize (Hx eq_refl). congruence.
Qed.

(** An event of the snapshot with packet detail keeps, in every later
    builder, the TransferKey the indexed builder gives it. *)
Lemma transfer_key_indexed_stable snapshot st st' c :
  c ∈ snapshot → is_packet_event c = true →
  string_ext
    (Impl.stream_id_map_ (fold_left (Impl.index_event H) snapshot st))
    (Impl.stream_id_map_ st') →
  transfer_key H st' c
  = transfer_key H (fold_left (Impl.index_event H) snapshot st) c.
Proof.
  intros Hin Hp Hext.
  apply list_elem_of_split in Hin as (pre & post & ->).
  rewrite fold_left_app in *. cbn [fold_left] in *.
  set (s1 := fold_left (Impl.index_event H) pre st) in *.
  assert (Hpost : string_ext
            (Impl.stream_id_map_ (Impl.index_event H s1 c))
            (Impl.stream_id_map_
               (fold_left (Impl.index_event H) post (Impl.index_event H s1 c)))).
  { by destruct (index_loop_frame H post (Impl.index_event H s1 c))
      as (_ & _ & _ & ? & _). }
  rewrite (transfer_key_index_stable H s1 st' c Hp).
  - symmetry. by apply transfer_key_index_stable.
  - by eapply string_ext_trans.
Qed.

Lemma BuildCalculatorTrace_step_traces acc ev :
  let acc' := Impl.BuildCalculatorTrace_step H acc ev in
  let t := (Impl.BuildStreamTrace H (Impl.bl_state acc) ev StreamTrace.empty).1 in
  CalculatorTrace.input_trace (Impl.bl_result acc')
  = CalculatorTrace.input_trace (Impl.bl_result acc)
    ++ (if is_stream_event ev && negb (TraceEvent.is_finish ev) then [t] else []) ∧
  CalculatorTrace.output_trace (Impl.bl_result acc')
  = CalculatorTrace.output_trace (Impl.bl_result acc)
    ++ (if is_stream_event ev && TraceEvent.is_finish ev then [t] else []).
Proof.
  destruct acc as [s f r st]. cbn zeta.
  rewrite BuildCalculatorTrace_step_eq. cbn zeta. cbn [Impl.bl_state Impl.bl_result].
  destruct (is_stream_event ev); destruct (TraceEvent.is_finish ev);
    destruct (decide _); cbn; by rewrite ?app_nil_r.
Qed.

Lemma BuildCalculatorTrace_loop_traces l : ∀ acc t,
  let acc' := fold_left (Impl.BuildCalculatorTrace_step H) l acc in
  (t ∈ CalculatorTrace.input_trace (Impl.bl_result acc) →
   t ∈ CalculatorTrace.input_trace (Impl.bl_result acc')) ∧
  (t ∈ CalculatorTrace.output_trace (Impl.bl_result acc) →
   t ∈ CalculatorTrace.output_trace (Impl.bl_result acc')).
Proof.
  induction l as [|ev l IH]; intros acc t; cbn [fold_left]; [done|].
  destruct (IH (Impl.BuildCalculatorTrace_step H acc ev) t) as [Hi Ho].
  destruct (BuildCalculatorTrace_step_traces acc ev) as [Ei Eo].
  split; intros Hin.
  - apply Hi. rewrite Ei. apply elem_of_app. by left.
  - apply Ho. rewrite Eo. apply elem_of_app. by left.
Qed.

(** Every event of the list with a stream-hop kind has its transfer entry
    in the record: in the output list when finish-side, in the input list
    otherwise. *)
Lemma BuildCalculatorTrace_loop_transfer l : ∀ acc c,
  c ∈ l → is_stream_event c = true →
  ∃ stj, build_ext H (Impl.bl_state acc) stj ∧
    let t := (Impl.BuildStreamTrace H stj c StreamTrace.empty).1 in
    let r := Impl.bl_result (fold_left (Impl.BuildCalculatorTrace_step H) l acc) in
    if TraceEvent.is_finish c
    then t ∈ CalculatorTrace.output_trace r
    else t ∈ CalculatorTrace.input_trace r.
Proof.
  induction l as [|ev l IH]; intros acc c Hin Hs; [by apply elem_of_nil in Hin|].
  cbn [fold_left]. apply elem_of_cons in Hin as [->|Hin].
  - exists (Impl.bl_state acc). split; [apply build_ext_refl|]. cbn zeta.
    destruct (BuildCalculatorTrace_step_traces acc ev) as [Ei Eo].
    rewrite Hs in Ei, Eo. cbn [andb] in Ei, Eo.
    set (t := (Impl.BuildStreamTrace H (Impl.bl_state acc) ev StreamTrace.empty).1) in *.
    destruct (BuildCalculatorTrace_loop_traces l
                (Impl.BuildCalculatorTrace_step H acc ev) t) as [Hi Ho].
    destruct (TraceEvent.is_finish ev); cbn [negb] in *.
    + apply Ho. rewrite Eo. apply elem_of_app. right. apply list_elem_of_here.
    + apply Hi. rewrite Ei. apply elem_of_app. right. apply list_elem_of_here.
  - destruct (IH (Impl.BuildCalculatorTrace_step H acc ev) c Hin Hs)
      as (stj & Hext & Ht).
    exists stj. split; [|exact Ht].
    eapply build_ext_trans; [apply BuildCalculatorTrace_step_build_ext|exact Hext].
Qed.

Lemma BuildCalculatorTrace_transfer st l c :
  c ∈ l → is_stream_event c = true →
  ∃ stj, build_ext H st stj ∧
    let t := (Impl.BuildStreamTrace H stj c StreamTrace.empty).1 in
    let r := (Impl.BuildCalculatorTrace H st l CalculatorTrace.empty).1 in
    if TraceEvent.is_finish c
    then t ∈ CalculatorTrace.output_trace r
    else t ∈ CalculatorTrace.input_trace r.
Proof.
  intros Hin Hs.
  destruct (BuildCalculatorTrace_loop_transfer l
              (Impl.mkBuildLoop InfiniteFuture InfiniteFuture
                 CalculatorTrace.empty st) c Hin Hs) as (stj & Hext & Ht).
  exists stj. split; [exact Hext|]. cbn zeta in *.
  rewrite BuildCalculatorTrace_eq. cbn zeta. cbn [fst].
  destruct (Time_lt _ InfiniteFuture); destruct (Time_lt _ InfiniteFuture);
    exact Ht.
Qed.

End TransferFacts.

(** * Transfer correlation *)

Section TransferCorrelation.
Variable H : Heap.
Variable TS : TimestampApi.

Lemma indexed_state_eq st buffer begin_time end_time :
  indexed_state H TS st buffer begin_time end_time
  = fold_left (Impl.index_event H) (Impl.Snapshot buffer begin_time end_time)
      (Impl.SetBaseTime TS st (Impl.Snapshot buffer begin_time end_time)).
Proof. reflexivity. Qed.


(** The transfer entry of an event of the snapshot, read against the
    builder the call leaves. *)
Lemma CreateTrace_transfer st buffer begin_time end_time c :
  let snapshot := Impl.Snapshot buffer begin_time end_time in
  let res := Impl.CreateTrace H TS st buffer begin_time end_time in
  c ∈ snapshot → is_stream_event c = true →
  ∃ r t,
    r ∈ GraphTrace.calculator_trace res.1 ∧
    (if TraceEvent.is_finish c
     then t ∈ CalculatorTrace.output_trace r
     else t ∈ CalculatorTrace.input_trace r) ∧
    StreamTrace.stream_id t = Some (TaskId.id (transfer_key H res.2 c)) ∧
    StreamTrace.packet_timestamp t
    = Some (Impl.LogTimestamp res.2 (TraceEvent.packet_ts c)) ∧
    if TraceEvent.is_finish c
    then StreamTrace.start_time t = None ∧
         StreamTrace.finish_time t = None ∧
         StreamTrace.packet_id t = None
    else StreamTrace.start_time t
           = match hop_lookup res.2 (transfer_key H res.2 c) with
             | Some output_event =>
                 Some (Impl.LogTime res.2 (TraceEvent.event_time output_event))
             | None => None
             end ∧
         StreamTrace.finish_time t
           = Some (Impl.LogTime res.2 (TraceEvent.event_time c)) ∧
         is_Some (StreamTrace.packet_id t).
Proof.
  intros snapshot res Hin Hs.
  pose proof (stream_event_is_packet_event c Hs) as Hp.
  set (k := Impl.task_id_of c).
  assert (Hk : has_key k c) by done.
  assert (Hex : Exists (has_key k) snapshot).
  { apply list.Exists_exists. by exists c. }
  destruct (CreateTrace_record_of_key H TS st buffer begin_time end_time k Hex)
    as (ev & r & _ & [Hevp Hevk] & _ & Hr & (sti & Hsti & Hrec)).
  destruct (CreateTrace_records H TS st buffer begin_time end_time)
    as [Hext _].
  fold res in Hr, Hext.
  set (st2 := indexed_state H TS st buffer begin_time end_time) in *.
  rewrite Hevp, Hevk in Hrec.
  assert (Hc : c ∈ Impl.task_events_ st2 !!! k).
  { subst st2. rewrite indexed_state_task_events.
    apply elem_of_app. right. by apply list_elem_of_filter. }
  destruct (BuildCalculatorTrace_transfer H sti _ c Hc Hs)
    as (stj & Hstj & Ht).
  cbn zeta in Ht. rewrite <- Hrec in Ht.
  assert (Hj : build_ext H st2 stj).
  { eapply build_ext_trans; [exact Hsti|exact Hstj]. }
  assert (Hbt : Impl.base_time_ stj = Impl.base_time_ res.2).
  { by rewrite (be_base_time _ _ _ Hj), (be_base_time _ _ _ Hext). }
  assert (Hbs : Impl.base_ts_ stj = Impl.base_ts_ res.2).
  { by rewrite (be_base_ts _ _ _ Hj), (be_base_ts _ _ _ Hext). }
  assert (Hkey : transfer_key H stj c = transfer_key H res.2 c).
  { unfold st2 in Hj, Hext. rewrite indexed_state_eq in Hj, Hext.
    rewrite (transfer_key_indexed_stable H _ _ stj c Hin Hp (be_strings _ _ _ Hj)).
    by rewrite (transfer_key_indexed_stable H _ _ res.2 c Hin Hp
                  (be_strings _ _ _ Hext)). }
  assert (Hsid : (StringIdMap.op_index H (Impl.stream_id_map_ stj)
                    (TraceEvent.stream_id c)).1
                 = TaskId.id (transfer_key H res.2 c)).
  { rewrite <- Hkey. by rewrite transfer_key_eq. }
  exists r, (Impl.BuildStreamTrace H stj c StreamTrace.empty).1.
  split; [exact Hr|]. split; [exact Ht|].
  destruct (TraceEvent.is_finish c) eqn:Hf.
  - rewrite BuildStreamTrace_finish_side by done. cbn.
    rewrite Hsid, (LogTimestamp_ext _ _ _ Hbs). done.
  - rewrite BuildStreamTrace_start_side by done. cbn.
    rewrite Hsid, (LogTimestamp_ext _ _ _ Hbs), (LogTime_ext _ _ _ Hbt).
    split; [done|]. split; [done|]. split; [|split; [done|by eexists]].
    fold (transfer_key H stj c). fold (hop_lookup stj (transfer_key H stj c)).
    rewrite Hkey, (hop_lookup_build_ext H _ _ _ Hj),
      <- (hop_lookup_build_ext H _ _ _ Hext).
    destruct (hop_lookup res.2 (transfer_key H res.2 c)); [|done].
    by rewrite (LogTime_ext _ _ _ Hbt).
Qed.

End TransferCorrelation.



Lemma new_stream_id_map (H : Heap) :
  Impl.stream_id_map_ (Impl.new H) = string_interner_init H.
Proof.
  unfold Impl.new. rewrite packet_data_id_eq. cbn [snd].
  rewrite stream_id_eq. reflexivity.
Qed.

Lemma new_packet_data_id_map (H : Heap) :
  Impl.packet_data_id_map_ (Impl.new H) = address_interner_init.
Proof.
  unfold Impl.new. rewrite packet_data_id_eq. cbn [snd].
  rewrite stream_id_eq. reflexivity.
Qed.


(** Every call keeps the pointer cache of the stream interner in agreement
    with its content map. *)
Lemma run_calls_cache_ok (H : Heap) (TS : TimestampApi) (cs : list Call) :
  ∀ st, cache_ok H (Impl.stream_id_map_ st) →
        cache_ok H (Impl.stream_id_map_ (run_calls H TS st cs)).
Proof.
  induction cs as [|c cs IH]; intros st Hok; [done|].
  unfold run_calls. cbn [fold_left]. apply IH.
  destruct c as [b t1 t2|b t1 t2|]; cbn.
  - destruct (CreateTrace_records H TS st b t1 t2) as [Hext _].
    apply (be_cache _ _ _ Hext).
    by apply (indexed_state_frame H TS st b t1 t2).
  - by apply (CreateLog_log_ext H TS st b t1 t2).
  - done.
Qed.


(** The example as the code computes it: the record of node 2 has one
    input transfer, sent at 0 and received at 5 relative to the base 105. *)
Example transfer_correlation_values :
  let res := Impl.CreateTrace example_heap example_timestamps
               (Impl.new example_heap) [process_producer; process_receive]
               InfinitePast InfiniteFuture in
  GraphTrace.base_time res.1 = Some 105 ∧
  (fun r => (CalculatorTrace.node_id r, CalculatorTrace.input_trace r,
             CalculatorTrace.output_trace r))
    <$> GraphTrace.calculator_trace res.1
  = [(Some 1, [], [StreamTrace.mk None None (Some 0) (Some 1) None]);
     (Some 2, [StreamTrace.mk (Some 0) (Some 5) (Some 0) (Some 1) (Some 1)], [])].
Proof. vm_compute. done. Qed.

(** * The verbatim log on the example buffer *)

(** The verbatim log of the example buffer: four standalone records, the
    first without a transfer entry (null stream pointer), the others with
    one entry each, without times. *)
Example verbatim_log_example :
  let res := Impl.CreateLog example_heap example_timestamps
               (Impl.new example_heap) example_buffer
               InfinitePast InfiniteFuture in
  GraphTrace.calculator_trace res.1
  = [CalculatorTrace.mk (Some 1) (Some 0) (Some OPEN) (Some 0) None [] [] (Some 7);
     CalculatorTrace.mk (Some 1) (Some 0) (Some OPEN) None (Some 5) []
       [StreamTrace.mk None None (Some 0) (Some 1) (Some 1)] (Some 7);
     CalculatorTrace.mk (Some 2) (Some 0) (Some PROCESS) (Some 10) None
       [StreamTrace.mk None None (Some 0) (Some 1) (Some 1)] [] (Some 8);
     CalculatorTrace.mk (Some 2) (Some 0) (Some PROCESS) None (Some 20) []
       [StreamTrace.mk None None (Some 0) (Some 2) (Some 2)] (Some 8)] ∧
  GraphTrace.stream_name res.1 = [""; "s1"; "s2"] ∧
  Impl.task_events_ res.2 = ∅ ∧ Impl.hop_events_ res.2 = ∅.
Proof. vm_compute. done. Qed.

(** A producer seen by a verbatim call only is not found by a later
    aggregated call over the consumer's window. *)
Example verbatim_then_aggregated :
  let H := example_heap in
  let TS := example_timestamps in
  let buffer := [process_producer; process_receive] in
  let logged := Impl.CreateLog H TS (Impl.new H) buffer
                  InfinitePast (UnixMicros 110) in
  let res := Impl.CreateTrace H TS logged.2 buffer
               (UnixMicros 110) InfiniteFuture in
  CalculatorTrace.input_trace <$> GraphTrace.calculator_trace res.1
  = [[StreamTrace.mk None (Some 5) (Some 0) (Some 1) (Some 1)]].
Proof. vm_compute. done. Qed.

(** * Null stream pointers in aggregated mode *)

(** In general: an event of the snapshot with a stream-hop kind and a null
    stream pointer has a transfer entry in the aggregated trace, and the
    entry carries stream id 0. *)
Lemma aggregated_null_stream_transfer
    (H : Heap) (TS : TimestampApi) (st : Impl.t)
    (buffer : list TraceEvent.t) (begin_time end_time : Time)
    (c : TraceEvent.t) :
  let res := Impl.CreateTrace H TS st buffer begin_time end_time in
  c ∈ Impl.Snapshot buffer begin_time end_time →
  is_stream_event c = true → TraceEvent.stream_id c = nullptr →
  ∃ r t, r ∈ GraphTrace.calculator_trace res.1 ∧
         t ∈ CalculatorTrace.input_trace r ++ CalculatorTrace.output_trace r ∧
         StreamTrace.stream_id t = Some 0.
Proof.
  intros res Hin Hs Hnull.
  destruct (CreateTrace_transfer H TS st buffer begin_time end_time c Hin Hs)
    as (r & t & Hr & Ht & Hsid & _).
  exists r, t. split; [exact Hr|]. split.
  - apply elem_of_app. by destruct (TraceEvent.is_finish c); [right|left].
  - rewrite Hsid, transfer_key_eq, Hnull. cbn. by rewrite op_index_null.
Qed.

(** * The index entries of a call on a cleared builder *)

Section IndexedEntries.
Variable H : Heap.
Variable TS : TimestampApi.

Lemma index_loop_hop_source snapshot : ∀ st k p,
  Impl.hop_events_ (fold_left (Impl.index_event H) snapshot st) !! k
  = Some (Some p) →
  p ∈ snapshot ∨ Impl.hop_events_ st !! k = Some (Some p).
Proof.
  induction snapshot as [|ev snapshot IH]; intros st k p Hk;
    cbn [fold_left] in Hk; [by right|].
  destruct (IH _ _ _ Hk) as [Hin|Hst].
  - left. by apply list_elem_of_further.
  - rewrite index_event_hop in Hst.
    destruct (decide (is_producer ev ∧ transfer_key H st ev = k)).
    + left. injection Hst as <-. apply list_elem_of_here.
    + by right.
Qed.

(** On a builder whose indices are empty (a new one, or one just cleared),
    every event the assembly of an aggregated trace reads from the two
    indices is an event of the snapshot of that very call. *)
Lemma indexed_entries_in_snapshot st buffer begin_time end_time :
  Impl.task_events_ st = ∅ → Impl.hop_events_ st = ∅ →
  let snapshot := Impl.Snapshot buffer begin_time end_time in
  let st2 := indexed_state H TS st buffer begin_time end_time in
  (∀ k ev, ev ∈ Impl.task_events_ st2 !!! k → ev ∈ snapshot) ∧
  (∀ k p, Impl.hop_events_ st2 !! k = Some (Some p) → p ∈ snapshot).
Proof.
  intros Ht Hh snapshot st2. split.
  - intros k ev. subst st2. rewrite indexed_state_task_events.
    rewrite Ht, lookup_total_empty. cbn [app].
    intros Hin. by apply list_elem_of_filter in Hin as [_ ?].
  - intros k p Hk. subst st2. unfold indexed_state in Hk.
    apply index_loop_hop_source in Hk as [Hin|Hst]; [done|].
    destruct (SetBaseTime_frame TS st
                (Impl.Snapshot buffer begin_time end_time)) as (_ & Hh' & _).
    rewrite Hh', Hh, lookup_empty in Hst. done.
Qed.

End IndexedEntries.

(** * The vector of stream names *)

Section IdNames.
(** The body of the loop of [GetIdNames]. *)
Local Abbreviation id_names_step :=
  (fun (result : list string) (it : string * Z) =>
     <[Z.to_nat it.2 := it.1]>
       (resize (Nat.max (length result) (Z.to_nat (it.2 + 1))) "" result)).

Lemma max_list_upper (b : nat) (ns : list nat) :
  Forall (fun n => (n ≤ b)%nat) ns → (max_list ns ≤ b)%nat.
Proof. induction 1; simpl; lia. Qed.

(** The loop over any list of entries with distinct non-negative
    identifiers: the vector grows to hold the greatest identifier, every
    entry is found at its identifier, and the positions below the initial
    length that no entry names keep their content. *)
Lemma id_names_fold (l : list (string * Z)) : ∀ acc,
  NoDup (l.*2) → Forall (fun it => 0 ≤ it.2) l →
  let r := fold_left id_names_step l acc in
  length r
  = (length acc `max` max_list ((fun it => Z.to_nat (it.2 + 1)) <$> l))%nat ∧
  (∀ s v, (s, v) ∈ l → r !! Z.to_nat v = Some s) ∧
  (∀ i, (i < length acc)%nat → (∀ s, (s, Z.of_nat i) ∉ l) → r !! i = acc !! i).
Proof.
  induction l as [|[s0 v0] l IH]; intros acc Hnd Hpos.
  { cbn. split_and!; [lia| |done]. intros s v Hin. by apply elem_of_nil in Hin. }
  cbn [fmap list_fmap snd] in Hnd. apply list.NoDup_cons in Hnd as [Hv0 Hnd].
  apply list.Forall_cons in Hpos as [Hv0pos Hpos]. cbn [snd] in Hv0pos.
  cbn [fold_left fst snd].
  set (acc' := <[Z.to_nat v0 := s0]> (resize _ "" acc)).
  destruct (IH acc' Hnd Hpos) as (Hlen & Hin & Hkeep).
  assert (Hlen' : length acc'
                  = (length acc `max` Z.to_nat (v0 + 1))%nat).
  { unfold acc'. by rewrite length_insert, length_resize. }
  assert (Hat : acc' !! Z.to_nat v0 = Some s0).
  { unfold acc'. apply list_lookup_insert_eq.
    rewrite length_resize. lia. }
  assert (Hfresh : ∀ s, (s, Z.of_nat (Z.to_nat v0)) ∉ l).
  { intros s Hs. apply Hv0. rewrite Z2Nat.id in Hs by done.
    apply list_elem_of_fmap. by exists (s, v0). }
  split_and!.
  - rewrite Hlen, Hlen', fmap_cons. cbn [max_list snd]. unfold id. lia.
  - intros s v [Heq|Hl]%elem_of_cons.
    + injection Heq as -> ->. rewrite Hkeep; [done|lia|done].
    + by apply Hin.
  - intros i Hi Hno.
    rewrite Hkeep; [|lia|].
    + unfold acc'.
      rewrite list_lookup_insert_ne.
      * apply lookup_resize; lia.
      * intros Heq. apply (Hno s0). rewrite <- Heq, Z2Nat.id by done.
        apply list_elem_of_here.
    + intros s Hs. apply (Hno s). by apply list_elem_of_further.
Qed.

(** On an interner whose content map is a bijection onto [0, next_id), the
    vector of [GetIdNames] has one entry per identifier, and an entry holds
    the name that has its position as identifier. *)
Lemma GetIdNames_dense (m : StringIdMap.t) :
  string_dense m →
  length (GetIdNames m) = Z.to_nat (StringIdMap.next_id m) ∧
  (∀ s v, StringIdMap.string_id_map_ m !! s = Some v →
          GetIdNames m !! Z.to_nat v = Some s) ∧
  (∀ i s, GetIdNames m !! i = Some s →
          StringIdMap.string_id_map_ m !! s = Some (Z.of_nat i)).
Proof.
  intros Hd.
  pose proof (sd_range _ Hd) as Hrange.
  pose proof (sd_zero _ Hd) as Hzero.
  assert (Hn : 0 < StringIdMap.next_id m) by (apply Hrange in Hzero; lia).
  set (l := map_to_list (StringIdMap.string_id_map_ m)).
  assert (Hl : ∀ s v, (s, v) ∈ l ↔ StringIdMap.string_id_map_ m !! s = Some v).
  { intros s v. apply elem_of_map_to_list. }
  assert (Hnd : NoDup (l.*2)).
  { apply NoDup_fmap_2_strong; [|apply NoDup_map_to_list].
    intros [s1 v1] [s2 v2] H1 H2 Heq. cbn in Heq. subst v2.
    apply Hl in H1, H2. by rewrite (sd_inj _ Hd _ _ _ H1 H2). }
  assert (Hpos : Forall (fun it => 0 ≤ it.2) l).
  { apply list.Forall_forall. intros [s v] Hin. apply Hl, Hrange in Hin.
    cbn. lia. }
  destruct (id_names_fold l [] Hnd Hpos) as (Hlen & Hin & _).
  change (fold_left id_names_step l []) with (GetIdNames m) in Hlen, Hin.
  assert (Hlength : length (GetIdNames m) = Z.to_nat (StringIdMap.next_id m)).
  { rewrite Hlen. cbn [length]. apply Nat.le_antisymm.
    - apply Nat.max_lub; [lia|]. apply max_list_upper.
      apply list.Forall_forall. intros n Hn'.
      apply list_elem_of_fmap in Hn' as ([s v] & -> & Hsv).
      apply Hl, Hrange in Hsv. cbn. lia.
    - destruct (sd_onto _ Hd (StringIdMap.next_id m - 1)) as [s Hs]; [lia|].
      etrans; [|apply Nat.le_max_r].
      apply max_list_elem_of_le, list_elem_of_fmap.
      exists (s, StringIdMap.next_id m - 1). split; [cbn; f_equal; lia|].
      by apply Hl. }
  split_and!; [done| |].
  - intros s v Hsv. by apply Hin, Hl.
  - intros i s Hi.
    assert (Hlt : (i < length (GetIdNames m))%nat)
      by (apply lookup_lt_is_Some; eauto).
    destruct (sd_onto _ Hd (Z.of_nat i)) as [s' Hs']; [lia|].
    pose proof (Hin _ _ (proj2 (Hl _ _) Hs')) as Hi'.
    rewrite Nat2Z.id in Hi'. by simplify_eq.
Qed.

End IdNames.

(** A pointer that a run of lookups has seen is in the pointer cache. *)
Lemma string_lookups_pointer_known (H : Heap) (m : StringIdMap.t)
    (ks : list Z) (k : Z) :
  k ∈ ks → k ≠ nullptr →
  is_Some (StringIdMap.pointer_id_map_ (string_lookups H m ks) !! k).
Proof.
  intros (pre & post & ->)%list_elem_of_split Hk.
  rewrite string_lookups_app. cbn [string_lookups fold_left].
  set (m1 := string_lookups H m pre).
  pose proof (op_index_pointer_result H m1 k Hk) as Hres.
  destruct (string_lookups_ext H (StringIdMap.op_index H m1 k).2 post)
    as [Hsub _].
  exists (StringIdMap.op_index H m1 k).1.
  by eapply lookup_weaken.
Qed.

(** X1. [GetIdNames] decodes what the interner encodes.  On the interner
    of a builder after any run [ks] of lookups (the 32-bit counter not
    having run out), the vector of names has exactly [next_id] entries,
    entry 0 is the reserved empty name, the identifier of every pointer
    looked up so far is the position of its name in the vector, the same
    holds for any further pointer once it has been looked up, and
    conversely the position of a name in the vector is the identifier a
    lookup of that name returns. *)
Theorem id_names_round_trip (H : Heap) (ks : list Z) :
  Z.of_nat (length ks) < INT32_MAX - 1 →
  let sm := string_lookups H (string_interner_init H) ks in
  let names := GetIdNames sm in
  length names = Z.to_nat (StringIdMap.next_id sm) ∧
  names !! 0%nat = Some "" ∧
  (∀ k, k ∈ ks → k ≠ nullptr →
        names !! Z.to_nat (StringIdMap.op_index H sm k).1 = Some (deref H k)) ∧
  (∀ p, p ≠ nullptr →
        GetIdNames (StringIdMap.op_index H sm p).2
          !! Z.to_nat (StringIdMap.op_index H sm p).1 = Some (deref H p)) ∧
  (∀ i p, p ≠ nullptr → names !! i = Some (deref H p) →
          (StringIdMap.op_index H sm p).1 = Z.of_nat i).
Proof.
  intros Hlen sm names.
  assert (Hinit : StringIdMap.next_id (string_interner_init H) = 1)
    by (by rewrite string_interner_init_eq).
  assert (Hd : string_dense sm).
  { apply string_lookups_dense; [apply string_interner_init_dense|].
    rewrite Hinit. unfold INT32_MAX in *. lia. }
  assert (Hc : cache_ok H sm)
    by apply string_lookups_cache_ok, string_interner_init_cache_ok.
  assert (Hnext : StringIdMap.next_id sm < INT32_MAX).
  { pose proof (string_lookups_next_id H (string_interner_init H) ks
                  (string_interner_init_dense H)) as Hn.
    rewrite Hinit in Hn. unfold sm, INT32_MAX in *. lia. }
  destruct (GetIdNames_dense sm Hd) as (Hlength & Henc & Hdec).
  assert (Hafter : ∀ p, p ≠ nullptr →
            GetIdNames (StringIdMap.op_index H sm p).2
              !! Z.to_nat (StringIdMap.op_index H sm p).1 = Some (deref H p)).
  { intros p Hp.
    destruct (op_index_dense H sm p Hd Hnext) as [Hd' _].
    destruct (GetIdNames_dense _ Hd') as (_ & Henc' & _).
    apply Henc'. by apply op_index_result. }
  split_and!; [done| |  |done|].
  - apply (Henc "" 0), Hd.
  - intros k Hin Hk.
    destruct (string_lookups_pointer_known H (string_interner_init H) ks k
                Hin Hk) as [v Hv].
    specialize (Hafter k Hk).
    destruct (op_index_cases H sm k)
      as [[? _]|[(_ & v' & _ & Heq)|[(_ & Hnone & _)|(_ & Hnone & _)]]];
      [done| |unfold sm in Hnone; congruence..].
    rewrite Heq in Hafter. rewrite Heq. exact Hafter.
  - intros i p Hp Hi. apply op_index_stable; [done..|]. by apply Hdec.
Qed.

Lemma id_names_round_trip_witness :
  Z.of_nat (length [32; 48]) < INT32_MAX - 1 ∧
  let H := Examples.example_heap in
  let sm := string_lookups H (string_interner_init H) [32; 48] in
  length (GetIdNames sm) = Z.to_nat (StringIdMap.next_id sm) ∧
  GetIdNames sm !! Z.to_nat (StringIdMap.op_index H sm 48).1 = Some "s2" ∧
  (StringIdMap.op_index H sm 64).1 = Z.of_nat 1.
Proof.
  assert (Hb : Z.of_nat (length [32; 48]) < INT32_MAX - 1) by (vm_compute; done).
  split; [exact Hb|].
  destruct (id_names_round_trip Examples.example_heap [32; 48] Hb)
    as (Hlength & _ & Hseen & _ & Hdec).
  split; [exact Hlength|]. split.
  - apply (Hseen 48); [|discriminate].
    apply list_elem_of_further, list_elem_of_here.
  - apply (Hdec 1%nat 64); [discriminate|]. vm_compute. reflexivity.
Defined.

(** * Repeating a verbatim log *)

Section RepeatableLog.
Variable H : Heap.
Variable TS : TimestampApi.

(** A verbatim record is determined by its event and the builder it is
    read against. *)
Lemma verbatim_record_functional st ev r1 r2 :
  verbatim_record TS st ev r1 → verbatim_record TS st ev r2 → r1 = r2.
Proof.
  intros [Hn1 He1 Ht1 Hs1 Hf1 Hi1 Hx1] [Hn2 He2 Ht2 Hs2 Hf2 Hi2 Hx2].
  assert (Hin : CalculatorTrace.input_trace r1 = CalculatorTrace.input_trace r2
                ∧ CalculatorTrace.output_trace r1
                  = CalculatorTrace.output_trace r2).
  { destruct (is_stream_event ev
              && bool_decide (TraceEvent.stream_id ev ≠ nullptr)).
    - destruct Hx1 as (sid1 & pid1 & Hsid1 & Hpid1 & Hx1).
      destruct Hx2 as (sid2 & pid2 & Hsid2 & Hpid2 & Hx2).
      cbv zeta in Hx1, Hx2.
      assert (sid1 = sid2) as -> by congruence.
      assert (pid1 = pid2) as -> by congruence.
      destruct (TraceEvent.is_finish ev);
        destruct Hx1 as [-> ->], Hx2 as [-> ->]; done.
    - destruct Hx1 as [-> ->], Hx2 as [-> ->]; done. }
  destruct Hin as [Hin Hout].
  destruct r1, r2; cbn in *. congruence.
Qed.

Lemma verbatim_record_known st ev r :
  verbatim_record TS st ev r → pointers_known st ev.
Proof.
  intros Hr Hs Hp. pose proof (vr_transfer _ _ _ _ Hr) as Hx.
  rewrite Hs, bool_decide_eq_true_2 in Hx by done.
  destruct Hx as (sid & pid & -> & -> & _). eauto.
Qed.

(** With both pointers in the caches, logging an event leaves the builder
    as it is. *)
Lemma BuildEventLog_known st ev r0 :
  pointers_known st ev → (Impl.BuildEventLog H TS st ev r0).2 = st.
Proof.
  intros Hk. unfold Impl.BuildEventLog.
  destruct (table_at kProfilerStreamEvents (TraceEvent.event_type ev)) eqn:Hs;
    [destruct (decide (TraceEvent.stream_id ev ≠ nullptr)) as [Hp|Hp]|];
    [|done..].
  destruct (Hk Hs Hp) as [[sid Hsid] [pid Hpid]].
  rewrite stream_id_eq.
  assert (Hop : StringIdMap.op_index H (Impl.stream_id_map_ st)
                  (TraceEvent.stream_id ev) = (sid, Impl.stream_id_map_ st)).
  { unfold StringIdMap.op_index. rewrite decide_False by done.
    by rewrite Hsid. }
  rewrite Hop. cbn [fst snd].
  assert (Hid : Impl.set_stream_id_map_ (Impl.stream_id_map_ st) st = st)
    by (by destruct st).
  rewrite Hid, packet_data_id_eq.
  rewrite (address_op_index_stable _ _ _ Hpid). cbn [fst snd].
  destruct st, (TraceEvent.is_finish ev); reflexivity.
Qed.

Lemma CreateLog_loop_known stf snapshot : ∀ traces,
  Forall (pointers_known stf) snapshot →
  ∃ rs, fold_left (Impl.CreateLog_step H TS) snapshot (traces, stf)
        = (traces ++ rs, stf) ∧
        Forall2 (verbatim_record TS stf) snapshot rs.
Proof.
  induction snapshot as [|ev snapshot IH]; intros traces Hall.
  { exists []. by rewrite app_nil_r. }
  apply list.Forall_cons in Hall as [Hev Hall].
  cbn [fold_left]. rewrite CreateLog_step_eq.
  pose proof (BuildEventLog_record H TS stf ev) as Hr.
  rewrite (BuildEventLog_known _ _ _ Hev) in *.
  destruct (IH (traces ++ [(Impl.BuildEventLog H TS stf ev
                              CalculatorTrace.empty).1]) Hall)
    as (rs & -> & Hrs).
  eexists (_ :: rs). split; [by rewrite <- app_assoc|].
  by constructor.
Qed.

End RepeatableLog.

(** X2. A verbatim log can be taken again.  After a call of [CreateLog],
    the same call on the builder it leaves returns the same trace (the same
    records, stream names and bases) and leaves the builder as it is; and
    any later verbatim call whose snapshot holds only events of the first
    snapshot changes nothing in the builder: no identifier is handed out
    for a pointer already logged, and the bases stay. *)
Theorem verbatim_log_repeatable
    (H : Heap) (TS : TimestampApi) (st : Impl.t)
    (buffer : list TraceEvent.t) (begin_time end_time : Time) :
  let res := Impl.CreateLog H TS st buffer begin_time end_time in
  Impl.CreateLog H TS res.2 buffer begin_time end_time = res ∧
  (∀ buffer' begin_time' end_time',
     Impl.Snapshot buffer' begin_time' end_time'
       ⊆ Impl.Snapshot buffer begin_time end_time →
     (Impl.CreateLog H TS res.2 buffer' begin_time' end_time').2 = res.2).
Proof.
  intros res.
  pose proof (CreateLog_eq H TS st buffer begin_time end_time) as Heq.
  cbv zeta in Heq.
  set (snapshot := Impl.Snapshot buffer begin_time end_time) in *.
  set (st1 := Impl.SetBaseTime TS st snapshot) in *.
  destruct (CreateLog_loop H TS snapshot [] st1) as (Hext & rs & Hrs & Hall).
  set (loop := fold_left (Impl.CreateLog_step H TS) snapshot ([], st1)) in *.
  cbn [app] in Hrs.
  assert (Hres : res.2 = loop.2) by (unfold res; by rewrite Heq).
  assert (Hbase : Impl.base_time_ loop.2 ≠ INT64_MAX).
  { rewrite (le_base_time _ _ _ Hext). apply SetBaseTime_sets. }
  assert (Hknown : Forall (pointers_known loop.2) snapshot).
  { eapply Forall2_Forall_l; [exact Hall|].
    apply list.Forall_forall. intros r _ ev Hr.
    by eapply verbatim_record_known. }
  assert (Hlater : ∀ buffer' begin_time' end_time',
            Impl.Snapshot buffer' begin_time' end_time' ⊆ snapshot →
            ∃ rs', Forall2 (verbatim_record TS loop.2)
                     (Impl.Snapshot buffer' begin_time' end_time') rs' ∧
              Impl.CreateLog H TS loop.2 buffer' begin_time' end_time'
              = (GraphTrace.mk (Some (Impl.base_time_ loop.2))
                   (Some (Impl.base_ts_ loop.2))
                   (GetIdNames (Impl.stream_id_map_ loop.2)) rs', loop.2)).
  { intros buffer' begin_time' end_time' Hsub.
    rewrite CreateLog_eq. rewrite SetBaseTime_later by done.
    destruct (CreateLog_loop_known H TS loop.2
                (Impl.Snapshot buffer' begin_time' end_time') [])
      as (rs' & -> & Hrs').
    { apply list.Forall_forall. intros ev Hev.
      eapply list.Forall_forall in Hknown; [exact Hknown|]. by apply Hsub. }
    by exists rs'. }
  split.
  - rewrite Hres.
    destruct (Hlater buffer begin_time end_time) as (rs' & Hrs' & ->); [done|].
    unfold res. rewrite Heq. cbn [fst snd].
    rewrite (le_base_time _ _ _ Hext), (le_base_ts _ _ _ Hext), Hrs.
    f_equal. f_equal.
    eapply Forall2_unique; [exact Hrs'|exact Hall|].
    intros ev r1 r2. apply verbatim_record_functional.
  - intros buffer' begin_time' end_time' Hsub. rewrite Hres.
    by destruct (Hlater buffer' begin_time' end_time' Hsub) as (rs' & _ & ->).
Qed.

(** * The times of an aggregated record *)

Section RecordTimes.
Variable H : Heap.

Lemma Time_lt_irrefl t : Time_lt t t = false.
Proof. destruct t; simpl; [done| |done]. apply bool_decide_eq_false. lia. Qed.

Lemma Time_lt_trans a b c :
  Time_lt a b = true → Time_lt b c = true → Time_lt a c = true.
Proof.
  destruct a, b, c; simpl; try done.
  rewrite !bool_decide_eq_true. lia.
Qed.

Lemma Time_lt_total a b :
  Time_lt a b = false → Time_lt b a = false → a = b.
Proof.
  destruct a, b; simpl; try done.
  rewrite !bool_decide_eq_false. intros. f_equal. lia.
Qed.

Lemma Time_lt_future t : Time_lt t InfiniteFuture = false ↔ t = InfiniteFuture.
Proof. destruct t; simpl; split; done. Qed.

Lemma Time_min_cases a b :
  (Time_min a b = a ∧ Time_lt b a = false) ∨
  (Time_min a b = b ∧ Time_lt b a = true).
Proof. unfold Time_min. destruct (Time_lt b a); auto. Qed.

(** What a run of [std::min] over instants computes. *)
Lemma fold_Time_min_spec (ts : list Time) : ∀ a,
  let m := fold_left Time_min ts a in
  (m = a ∨ m ∈ ts) ∧ Time_lt a m = false ∧
  (∀ x, x ∈ ts → Time_lt x m = false).
Proof.
  induction ts as [|t ts IH]; intros a; cbn [fold_left].
  { split_and!; [by left|apply Time_lt_irrefl|].
    intros x Hx. by apply elem_of_nil in Hx. }
  destruct (IH (Time_min a t)) as (Hm & Hlow & Hall).
  set (m := fold_left Time_min ts (Time_min a t)) in *.
  assert (Hle : ∀ x, Time_lt (Time_min a t) m = false →
                     Time_lt x (Time_min a t) = false → Time_lt x m = false).
  { intros x H1 H2. destruct (Time_lt x m) eqn:Hxm; [|done].
    destruct (Time_lt m (Time_min a t)) eqn:Hmm.
    - by rewrite (Time_lt_trans _ _ _ Hxm Hmm) in H2.
    - rewrite <- (Time_lt_total _ _ H1 Hmm) in Hxm. congruence. }
  destruct (Time_min_cases a t) as [[Heq Hlt]|[Heq Hlt]].
  - split_and!.
    + destruct Hm as [Hm|Hm]; [left; congruence|].
      right. by apply list_elem_of_further.
    + by rewrite Heq in Hlow.
    + intros x [->|Hx]%elem_of_cons; [|by apply Hall].
      apply Hle; [done|]. by rewrite Heq.
  - split_and!.
    + right. destruct Hm as [Hm|Hm].
      * rewrite Hm, Heq. apply list_elem_of_here.
      * by apply list_elem_of_further.
    + apply Hle; [done|]. rewrite Heq.
      destruct (Time_lt a t) eqn:Hat; [|done].
      pose proof (Time_lt_trans _ _ _ Hat Hlt) as Hc.
      by rewrite Time_lt_irrefl in Hc.
    + intros x [->|Hx]%elem_of_cons; [|by apply Hall].
      apply Hle; [done|]. rewrite Heq. apply Time_lt_irrefl.
Qed.

Lemma fold_Time_min_earliest (ts : list Time) :
  earliest_or_never (fold_left Time_min ts InfiniteFuture) ts.
Proof.
  destruct (fold_Time_min_spec ts InfiniteFuture) as (Hm & _ & Hall).
  destruct ts as [|t ts]; [by left|]. right.
  split; [|done].
  destruct Hm as [Hm|Hm]; [|done].
  pose proof (Hall t (list_elem_of_here _ _)) as Ht.
  rewrite Hm in Ht |- *. apply Time_lt_future in Ht as ->.
  apply list_elem_of_here.
Qed.

Lemma side_times_cons finish ev l :
  side_times finish (ev :: l)
  = (if decide (TraceEvent.is_finish ev = finish)
     then [TraceEvent.event_time ev] else []) ++ side_times finish l.
Proof.
  unfold side_times. rewrite filter_cons.
  by destruct (decide (TraceEvent.is_finish ev = finish)).
Qed.

(** The loop of [BuildCalculatorTrace] keeps, per side, the least instant
    seen, and touches neither time field of the record. *)
Lemma BuildCalculatorTrace_loop_times l : ∀ acc,
  let acc' := fold_left (Impl.BuildCalculatorTrace_step H) l acc in
  Impl.bl_start_time acc'
  = fold_left Time_min (side_times false l) (Impl.bl_start_time acc) ∧
  Impl.bl_finish_time acc'
  = fold_left Time_min (side_times true l) (Impl.bl_finish_time acc) ∧
  CalculatorTrace.start_time (Impl.bl_result acc')
  = CalculatorTrace.start_time (Impl.bl_result acc) ∧
  CalculatorTrace.finish_time (Impl.bl_result acc')
  = CalculatorTrace.finish_time (Impl.bl_result acc).
Proof.
  induction l as [|ev l IH]; intros acc; cbn [fold_left]; [done|].
  destruct (IH (Impl.BuildCalculatorTrace_step H acc ev)) as (-> & -> & -> & ->).
  rewrite !side_times_cons.
  destruct acc as [s f r st]. rewrite BuildCalculatorTrace_step_eq.
  cbv zeta.
  destruct (is_stream_event ev), (TraceEvent.is_finish ev),
    (decide ((length (CalculatorTrace.input_trace r)
              + length (CalculatorTrace.output_trace r))%nat = 0%nat));
    done.
Qed.

End RecordTimes.

(** X3. The times of an aggregated record.  The record
    [BuildCalculatorTrace] builds from a list of events carries as
    [start_time] the earliest instant of the start-side events of the list
    and as [finish_time] the earliest instant of its finish-side events,
    each relative to the base time; a field is left unset when the list has
    no event of that side (or none before [absl::InfiniteFuture()]). *)
Theorem aggregated_record_times
    (H : Heap) (st : Impl.t) (task_events : list TraceEvent.t) :
  let r := (Impl.BuildCalculatorTrace H st task_events CalculatorTrace.empty).1 in
  ∃ s f,
    earliest_or_never s (side_times false task_events) ∧
    earliest_or_never f (side_times true task_events) ∧
    CalculatorTrace.start_time r
    = (if decide (s = InfiniteFuture) then None else Some (Impl.LogTime st s)) ∧
    CalculatorTrace.finish_time r
    = (if decide (f = InfiniteFuture) then None else Some (Impl.LogTime st f)).
Proof.
  intros r. unfold r. rewrite BuildCalculatorTrace_eq. cbv zeta. cbn [fst].
  set (acc0 := Impl.mkBuildLoop InfiniteFuture InfiniteFuture
                 CalculatorTrace.empty st).
  destruct (BuildCalculatorTrace_loop_times H task_events acc0)
    as (Hs & Hf & Hrs & Hrf).
  pose proof (BuildCalculatorTrace_loop_build_ext H task_events acc0) as Hext.
  set (acc := fold_left (Impl.BuildCalculatorTrace_step H) task_events acc0) in *.
  cbn in Hs, Hf, Hrs, Hrf, Hext.
  exists (Impl.bl_start_time acc), (Impl.bl_finish_time acc).
  split; [rewrite Hs; apply fold_Time_min_earliest|].
  split; [rewrite Hf; apply fold_Time_min_earliest|].
  rewrite !(LogTime_ext st (Impl.bl_state acc)) by apply Hext.
  destruct (decide (Impl.bl_start_time acc = InfiniteFuture)) as [Es|Es],
    (decide (Impl.bl_finish_time acc = InfiniteFuture)) as [Ef|Ef].
  - rewrite Es, Ef. cbn. by rewrite Hrs, Hrf.
  - rewrite Es. cbn.
    destruct (Time_lt (Impl.bl_finish_time acc) InfiniteFuture) eqn:E;
      [|by apply Time_lt_future in E].
    cbn. by rewrite Hrs.
  - rewrite Ef. cbn.
    destruct (Time_lt (Impl.bl_start_time acc) InfiniteFuture) eqn:E;
      [|by apply Time_lt_future in E].
    cbn. by rewrite Hrf.
  - destruct (Time_lt (Impl.bl_start_time acc) InfiniteFuture) eqn:E;
      [|by apply Time_lt_future in E].
    destruct (Time_lt (Impl.bl_finish_time acc) InfiniteFuture) eqn:E';
      [|by apply Time_lt_future in E'].
    done.
Qed.

(** The invocation of the example window: the [OPEN] events of node 1 at
    100 (start), 105 (finish) and 210 (finish) with base time 100. *)
Example aggregated_record_times_example :
  let r := (Impl.BuildCalculatorTrace example_heap
              (Impl.set_base_time_ 100 (Impl.new example_heap))
              [open_late; open_start; open_send] CalculatorTrace.empty).1 in
  CalculatorTrace.start_time r = Some 0 ∧
  CalculatorTrace.finish_time r = Some 5.
Proof. vm_compute. done. Qed.

(** * The transfer entries of an aggregated record *)

Section RecordTransfers.
Variable H : Heap.

Lemma transfer_events_cons finish ev l :
  transfer_events finish (ev :: l)
  = (if is_stream_event ev && bool_decide (TraceEvent.is_finish ev = finish)
     then [ev] else []) ++ transfer_events finish l.
Proof.
  unfold transfer_events. rewrite filter_cons.
  destruct (decide (is_stream_event ev = true ∧ TraceEvent.is_finish ev = finish))
    as [[-> ->]|Hn].
  - by rewrite bool_decide_eq_true_2.
  - destruct (is_stream_event ev); [|done].
    rewrite bool_decide_eq_false_2; [done|]. intros ?. by apply Hn.
Qed.

Lemma input_transfer_ext st st' ev t :
  Impl.base_ts_ st' = Impl.base_ts_ st →
  Impl.base_time_ st' = Impl.base_time_ st →
  input_transfer st' ev t → input_transfer st ev t.
Proof.
  intros Hts Htime [? ? ? ?]. constructor; try done.
  - by rewrite <- (LogTimestamp_ext st st').
  - by rewrite <- (LogTime_ext st st').
Qed.

Lemma output_transfer_ext st st' ev t :
  Impl.base_ts_ st' = Impl.base_ts_ st →
  output_transfer st' ev t → output_transfer st ev t.
Proof.
  intros Hts [? ? ? ? ?]. constructor; try done.
  by rewrite <- (LogTimestamp_ext st st').
Qed.

Lemma BuildStreamTrace_input st ev :
  TraceEvent.is_finish ev = false →
  input_transfer st ev (Impl.BuildStreamTrace H st ev StreamTrace.empty).1.
Proof.
  intros Hf. rewrite BuildStreamTrace_start_side by done.
  constructor; cbn; eauto.
Qed.

Lemma BuildStreamTrace_output st ev :
  TraceEvent.is_finish ev = true →
  output_transfer st ev (Impl.BuildStreamTrace H st ev StreamTrace.empty).1.
Proof.
  intros Hf. rewrite BuildStreamTrace_finish_side by done.
  constructor; cbn; eauto.
Qed.

(** The loop of [BuildCalculatorTrace] appends one entry per event of a
    stream-hop kind, to the list of its side, in the order of the events. *)
Lemma BuildCalculatorTrace_loop_entries l : ∀ acc,
  let acc' := fold_left (Impl.BuildCalculatorTrace_step H) l acc in
  ∃ ins outs,
    CalculatorTrace.input_trace (Impl.bl_result acc')
    = CalculatorTrace.input_trace (Impl.bl_result acc) ++ ins ∧
    CalculatorTrace.output_trace (Impl.bl_result acc')
    = CalculatorTrace.output_trace (Impl.bl_result acc) ++ outs ∧
    Forall2 (input_transfer (Impl.bl_state acc)) (transfer_events false l) ins ∧
    Forall2 (output_transfer (Impl.bl_state acc)) (transfer_events true l) outs.
Proof.
  induction l as [|ev l IH]; intros acc; cbn [fold_left].
  { exists [], []. rewrite !app_nil_r. repeat split; constructor. }
  destruct (IH (Impl.BuildCalculatorTrace_step H acc ev))
    as (ins & outs & Ei & Eo & Hins & Houts).
  destruct (BuildCalculatorTrace_step_traces H acc ev) as [Ei1 Eo1].
  pose proof (BuildCalculatorTrace_step_build_ext H acc ev) as Hext.
  set (acc1 := Impl.BuildCalculatorTrace_step H acc ev) in *.
  set (t := (Impl.BuildStreamTrace H (Impl.bl_state acc) ev
               StreamTrace.empty).1) in *.
  eexists (_ ++ ins), (_ ++ outs).
  split; [rewrite Ei, Ei1, <- app_assoc; reflexivity|].
  split; [rewrite Eo, Eo1, <- app_assoc; reflexivity|].
  rewrite !transfer_events_cons.
  split.
  - apply Forall2_app.
    + destruct (is_stream_event ev), (TraceEvent.is_finish ev) eqn:Hf;
        cbn; try constructor; [|constructor].
      by apply BuildStreamTrace_input.
    + eapply Forall2_impl; [|exact Hins]. intros e s.
      apply input_transfer_ext; apply Hext.
  - apply Forall2_app.
    + destruct (is_stream_event ev), (TraceEvent.is_finish ev) eqn:Hf;
        cbn; try constructor; [|constructor].
      by apply BuildStreamTrace_output.
    + eapply Forall2_impl; [|exact Houts]. intros e s.
      apply output_transfer_ext; apply Hext.
Qed.

Lemma transfer_events_count l :
  (length (transfer_events false l) + length (transfer_events true l)
   = length (filter (fun ev => is_stream_event ev = true) l))%nat.
Proof.
  induction l as [|ev l IH]; [done|].
  rewrite !transfer_events_cons, filter_cons, !length_app.
  destruct (decide (is_stream_event ev = true)) as [->|Hn].
  - cbn [andb length]. rewrite <- IH.
    destruct (TraceEvent.is_finish ev); repeat case_bool_decide; try done;
      cbn [length]; lia.
  - apply not_true_is_false in Hn as ->. cbn [andb length]. lia.
Qed.

(** The two lists of the finished record are those the loop has built. *)
Lemma BuildCalculatorTrace_entries st l :
  let r := (Impl.BuildCalculatorTrace H st l CalculatorTrace.empty).1 in
  Forall2 (input_transfer st) (transfer_events false l)
          (CalculatorTrace.input_trace r) ∧
  Forall2 (output_transfer st) (transfer_events true l)
          (CalculatorTrace.output_trace r).
Proof.
  intros r.
  set (acc0 := Impl.mkBuildLoop InfiniteFuture InfiniteFuture
                 CalculatorTrace.empty st).
  assert (Hr : CalculatorTrace.input_trace r
               = CalculatorTrace.input_trace
                   (Impl.bl_result
                      (fold_left (Impl.BuildCalculatorTrace_step H) l acc0)) ∧
               CalculatorTrace.output_trace r
               = CalculatorTrace.output_trace
                   (Impl.bl_result
                      (fold_left (Impl.BuildCalculatorTrace_step H) l acc0))).
  { unfold r. rewrite BuildCalculatorTrace_eq. cbv zeta. cbn [fst].
    by destruct (Time_lt _ _), (Time_lt _ _). }
  destruct Hr as [-> ->].
  destruct (BuildCalculatorTrace_loop_entries l acc0)
    as (ins & outs & -> & -> & Hins & Houts).
  done.
Qed.

End RecordTransfers.

(** X4. The transfer entries of an aggregated record.  The input list of
    the record [BuildCalculatorTrace] builds holds exactly one entry per
    start-side event of the list whose kind produces stream-hop
    sub-records, in the order of the events, each with the event's relative
    packet timestamp and wall time (as [finish_time]), a stream id and a
    packet id; the output list holds one entry per finish-side such event,
    with a stream id and the packet timestamp only.  A list of events
    of the other kinds with packet detail (GPU, DSP and TPU tasks) gives a
    record without entries. *)
Theorem aggregated_record_transfers
    (H : Heap) (st : Impl.t) (task_events : list TraceEvent.t) :
  let r := (Impl.BuildCalculatorTrace H st task_events CalculatorTrace.empty).1 in
  Forall2 (input_transfer st) (transfer_events false task_events)
          (CalculatorTrace.input_trace r) ∧
  Forall2 (output_transfer st) (transfer_events true task_events)
          (CalculatorTrace.output_trace r) ∧
  (length (CalculatorTrace.input_trace r)
   + length (CalculatorTrace.output_trace r)
   = length (filter (fun ev => is_stream_event ev = true) task_events))%nat.
Proof.
  intros r.
  destruct (BuildCalculatorTrace_entries H st task_events) as [Hins Houts].
  fold r in Hins, Houts.
  split; [done|]. split; [done|].
  rewrite <- (list.Forall2_length _ _ _ Hins), <- (list.Forall2_length _ _ _ Houts).
  apply transfer_events_count.
Qed.

(** The three [OPEN] events of node 1: one input entry, two output
    entries. *)
Example aggregated_record_transfers_example :
  let r := (Impl.BuildCalculatorTrace example_heap (Impl.new example_heap)
              [open_start; open_send; open_late] CalculatorTrace.empty).1 in
  length (CalculatorTrace.input_trace r) = 1%nat ∧
  length (CalculatorTrace.output_trace r) = 2%nat.
Proof. vm_compute. done. Qed.

(** * Snapshots without packet detail *)

Section ModesAgree.
Variable H : Heap.
Variable TS : TimestampApi.

Lemma not_packet_not_stream ev :
  is_packet_event ev = false → is_stream_event ev = false.
Proof.
  intros Hp. destruct (is_stream_event ev) eqn:Hs; [|done].
  apply stream_event_is_packet_event in Hs. congruence.
Qed.

(** The indexing loop skips the events without packet detail. *)
Lemma index_loop_skip snapshot : ∀ st,
  Forall (fun ev => is_packet_event ev = false) snapshot →
  fold_left (Impl.index_event H) snapshot st = st.
Proof.
  induction snapshot as [|ev l IH]; intros st Hall; [done|].
  apply list.Forall_cons in Hall as [Hev Hall]. cbn [fold_left].
  rewrite index_event_eq, Hev. cbn [negb]. by apply IH.
Qed.

(** On such events the assembly loop of [CreateTrace] is the logging loop
    of [CreateLog]. *)
Lemma CreateTrace_loop_as_log snapshot : ∀ task_ids traces st,
  Forall (fun ev => is_packet_event ev = false) snapshot →
  fold_left (Impl.CreateTrace_step H TS) snapshot
    (Impl.mkTraceLoop task_ids traces st)
  = Impl.mkTraceLoop task_ids
      (fold_left (Impl.CreateLog_step H TS) snapshot (traces, st)).1
      (fold_left (Impl.CreateLog_step H TS) snapshot (traces, st)).2.
Proof.
  induction snapshot as [|ev l IH]; intros task_ids traces st Hall; [done|].
  apply list.Forall_cons in Hall as [Hev Hall]. cbn [fold_left].
  rewrite CreateLog_step_eq.
  destruct (CreateTrace_step_cases H TS (Impl.mkTraceLoop task_ids traces st) ev)
    as [[_ ->]|[[Hp _]|[Hp _]]]; [|congruence..].
  cbn [Impl.tl_task_ids Impl.tl_traces Impl.tl_state]. by apply IH.
Qed.

End ModesAgree.

(** X5. The two modes agree on events without packet detail.  When no
    event of the snapshot is of a kind with packet detail (the snapshot
    holds scheduler events only: NOT_READY, READY_FOR_PROCESS,
    READY_FOR_CLOSE, THROTTLED, UNTHROTTLED, UNKNOWN), [CreateTrace] and
    [CreateLog] return the same trace and leave the same builder; the call
    changes nothing in the builder but the time base it may calibrate
    (neither index, neither interner), and no record carries a transfer
    entry. *)
Theorem modes_agree_without_packet_detail
    (H : Heap) (TS : TimestampApi) (st : Impl.t)
    (buffer : list TraceEvent.t) (begin_time end_time : Time) :
  let snapshot := Impl.Snapshot buffer begin_time end_time in
  Forall (fun ev => is_packet_event ev = false) snapshot →
  Impl.CreateTrace H TS st buffer begin_time end_time
  = Impl.CreateLog H TS st buffer begin_time end_time ∧
  (Impl.CreateLog H TS st buffer begin_time end_time).2
  = Impl.SetBaseTime TS st snapshot ∧
  length (GraphTrace.calculator_trace
            (Impl.CreateLog H TS st buffer begin_time end_time).1)
  = length snapshot ∧
  Forall (fun r => CalculatorTrace.input_trace r = [] ∧
                   CalculatorTrace.output_trace r = [])
         (GraphTrace.calculator_trace
            (Impl.CreateLog H TS st buffer begin_time end_time).1).
Proof.
  intros snapshot Hall.
  rewrite CreateTrace_eq, CreateLog_eq. cbv zeta.
  rewrite indexed_state_eq. fold snapshot.
  rewrite (index_loop_skip H snapshot _ Hall).
  rewrite (CreateTrace_loop_as_log H TS snapshot ∅ [] _ Hall).
  cbn [Impl.tl_state Impl.tl_traces fst snd].
  split; [done|].
  destruct (CreateLog_loop_known H TS (Impl.SetBaseTime TS st snapshot)
              snapshot []) as (rs & -> & Hrs).
  { eapply list.Forall_impl; [exact Hall|]. intros ev Hev Hs.
    apply not_packet_not_stream in Hev. congruence. }
  cbn [fst snd app]. split; [done|].
  split; [symmetry; by eapply list.Forall2_length|].
  eapply Forall2_Forall_r; [exact Hrs|].
  apply list.Forall_forall. intros ev Hin r Hr.
  eapply list.Forall_forall in Hall; [|exact Hin].
  apply not_packet_not_stream in Hall.
  pose proof (vr_transfer _ _ _ _ Hr) as Hx.
  by rewrite Hall in Hx.
Qed.

Lemma modes_agree_without_packet_detail_witness :
  let H := example_heap in
  let TS := example_timestamps in
  Forall (fun ev => is_packet_event ev = false)
         (Impl.Snapshot [early_ready] InfinitePast InfiniteFuture) ∧
  Impl.CreateTrace H TS (Impl.new H) [early_ready] InfinitePast InfiniteFuture
  = Impl.CreateLog H TS (Impl.new H) [early_ready] InfinitePast InfiniteFuture.
Proof.
  intros H TS.
  assert (Hall : Forall (fun ev => is_packet_event ev = false)
                   (Impl.Snapshot [early_ready] InfinitePast InfiniteFuture)).
  { assert (E : Impl.Snapshot [early_ready] InfinitePast InfiniteFuture
                = [early_ready]) by (vm_compute; reflexivity).
    rewrite E. repeat constructor. }
  split; [exact Hall|].
  apply (modes_agree_without_packet_detail H TS (Impl.new H) [early_ready]
           InfinitePast InfiniteFuture Hall).
Defined.

(** * The number of records *)

Section RecordCounts.
Lemma invocation_keys_nil : invocation_keys [] = ∅.
Proof. done. Qed.

Lemma invocation_keys_cons ev l :
  invocation_keys (ev :: l)
  = if is_packet_event ev then {[Impl.task_id_of ev]} ∪ invocation_keys l
    else invocation_keys l.
Proof.
  unfold invocation_keys. rewrite filter_cons.
  destruct (decide (is_packet_event ev = true)) as [->|Hn]; [done|].
  by apply not_true_is_false in Hn as ->.
Qed.

Lemma invocation_keys_app l1 l2 :
  invocation_keys (l1 ++ l2) = invocation_keys l1 ∪ invocation_keys l2.
Proof.
  unfold invocation_keys.
  by rewrite list.filter_app, fmap_app, list_to_set_app_L.
Qed.

Lemma elem_of_invocation_keys k l :
  k ∈ invocation_keys l ↔ Exists (has_key k) l.
Proof.
  unfold invocation_keys. rewrite elem_of_list_to_set, list_elem_of_fmap.
  rewrite list.Exists_exists. split.
  - intros (ev & -> & [Hin Hp]%list_elem_of_filter). by exists ev.
  - intros (ev & Hin & Hp & <-). exists ev. split; [done|].
    by apply list_elem_of_filter.
Qed.

(** The number of planned events: one per event without packet detail,
    one per invocation key not seen earlier. *)
Lemma emission_plan_from_length rest : ∀ earlier,
  length (emission_plan_from earlier rest)
  = (length (filter (fun ev => is_packet_event ev = false) rest)
     + size (invocation_keys rest ∖ invocation_keys earlier))%nat.
Proof.
  induction rest as [|ev rest IH]; intros earlier.
  { cbn [emission_plan_from]. rewrite invocation_keys_nil, filter_nil.
    by rewrite empty_difference_L, size_empty. }
  cbn [emission_plan_from]. rewrite length_app, IH, filter_cons.
  rewrite invocation_keys_app, !invocation_keys_cons, invocation_keys_nil.
  destruct (is_packet_event ev) eqn:Hp; rewrite ?union_empty_r_L.
  - destruct (decide (true = false)) as [?|_]; [done|].
    set (k := Impl.task_id_of ev).
    destruct (decide (emitted_here earlier ev)) as [He|He].
    + destruct He as [He|He]; [congruence|].
      assert (Hk : k ∉ invocation_keys earlier).
      { rewrite elem_of_invocation_keys, <- List.Forall_Exists_neg. done. }
      cbn [length].
      replace (({[k]} ∪ invocation_keys rest) ∖ invocation_keys earlier)
        with ({[k]} ∪ invocation_keys rest ∖ (invocation_keys earlier ∪ {[k]})).
      * rewrite (size_union {[k]}
                   (invocation_keys rest ∖ (invocation_keys earlier ∪ {[k]}))),
          size_singleton; [lia|].
        apply disjoint_singleton_l.
        rewrite elem_of_difference, elem_of_union, elem_of_singleton.
        intuition.
      * apply set_eq. intros x.
        rewrite !elem_of_union, !elem_of_difference, !elem_of_union,
          elem_of_singleton.
        destruct (decide (x = k)) as [->|Hne]; intuition.
    + assert (Hk : k ∈ invocation_keys earlier).
      { rewrite elem_of_invocation_keys.
        destruct (decide (Exists (has_key k) earlier)) as [?|Hn]; [done|].
        exfalso. apply He. right. by apply List.Forall_Exists_neg. }
      cbn [length].
      replace (({[k]} ∪ invocation_keys rest) ∖ invocation_keys earlier)
        with (invocation_keys rest ∖ (invocation_keys earlier ∪ {[k]}));
        [lia|].
      apply set_eq. intros x.
      rewrite !elem_of_difference, !elem_of_union, elem_of_singleton.
      destruct (decide (x = k)) as [->|Hne]; intuition.
  - destruct (decide (false = false)) as [_|?]; [|done].
    destruct (decide (emitted_here earlier ev)) as [_|He];
      [|exfalso; apply He; by left].
    cbn [length]. lia.
Qed.

Lemma emission_plan_from_length_le rest : ∀ earlier,
  (length (emission_plan_from earlier rest) ≤ length rest)%nat.
Proof.
  induction rest as [|ev rest IH]; intros earlier; [done|].
  cbn [emission_plan_from]. rewrite length_app.
  specialize (IH (earlier ++ [ev])).
  destruct (decide (emitted_here earlier ev)); cbn [length]; lia.
Qed.

End RecordCounts.

(** X6. How many records a call emits.  [CreateLog] emits one record per
    event of the snapshot.  [CreateTrace] emits one record per event
    without packet detail plus one per distinct invocation key among the
    events with packet detail; so it never emits more records than
    [CreateLog] over the same window, and for an empty snapshot both emit
    none. *)
Theorem record_counts
    (H : Heap) (TS : TimestampApi) (st : Impl.t)
    (buffer : list TraceEvent.t) (begin_time end_time : Time) :
  let snapshot := Impl.Snapshot buffer begin_time end_time in
  let aggregated := Impl.CreateTrace H TS st buffer begin_time end_time in
  let verbatim := Impl.CreateLog H TS st buffer begin_time end_time in
  length (GraphTrace.calculator_trace verbatim.1) = length snapshot ∧
  length (GraphTrace.calculator_trace aggregated.1)
  = (length (filter (fun ev => is_packet_event ev = false) snapshot)
     + size (invocation_keys snapshot))%nat ∧
  (length (GraphTrace.calculator_trace aggregated.1)
   ≤ length (GraphTrace.calculator_trace verbatim.1))%nat.
Proof.
  intros snapshot aggregated verbatim.
  pose proof (CreateLog_records H TS st buffer begin_time end_time) as Hlog.
  destruct (CreateTrace_records H TS st buffer begin_time end_time)
    as [_ Hagg].
  apply list.Forall2_length in Hlog, Hagg.
  fold snapshot aggregated in Hagg. fold snapshot verbatim in Hlog.
  rewrite <- Hlog, <- Hagg. split; [done|]. split.
  - unfold emission_plan. rewrite emission_plan_from_length.
    by rewrite invocation_keys_nil, difference_empty_L.
  - apply emission_plan_from_length_le.
Qed.

(** The example buffer: four events with packet detail of two invocations
    (the [OPEN] of node 1, the [PROCESS] of node 2), preceded by one
    scheduler event. *)
Example record_counts_example :
  let H := example_heap in
  let TS := example_timestamps in
  let buffer := early_ready :: example_buffer in
  length (GraphTrace.calculator_trace
            (Impl.CreateLog H TS (Impl.new H) buffer
               InfinitePast InfiniteFuture).1) = 5%nat ∧
  length (GraphTrace.calculator_trace
            (Impl.CreateTrace H TS (Impl.new H) buffer
               InfinitePast InfiniteFuture).1) = 3%nat.
Proof. vm_compute. done. Qed.

(** * Splitting a verbatim window *)

Section WindowSplit.
Variable H : Heap.
Variable TS : TimestampApi.

Lemma Time_lt_le_trans a b c :
  Time_lt a b = true → Time_lt c b = false → Time_lt a c = true.
Proof.
  destruct a, b, c; simpl; try done.
  rewrite !bool_decide_eq_true, bool_decide_eq_false. lia.
Qed.

Lemma Time_le_lt_trans a b c :
  Time_lt b a = false → Time_lt b c = true → Time_lt a c = true.
Proof.
  destruct a, b, c; simpl; try done.
  rewrite !bool_decide_eq_true, bool_decide_eq_false. lia.
Qed.

Lemma Snapshot_cons ev buffer begin_time end_time :
  Impl.Snapshot (ev :: buffer) begin_time end_time
  = (if Time_ge (TraceEvent.event_time ev) begin_time
        && Time_lt (TraceEvent.event_time ev) end_time
     then [ev] else []) ++ Impl.Snapshot buffer begin_time end_time.
Proof.
  unfold Impl.Snapshot. rewrite filter_cons.
  destruct (Time_ge (TraceEvent.event_time ev) begin_time
            && Time_lt (TraceEvent.event_time ev) end_time) eqn:E.
  - by rewrite decide_True.
  - by rewrite decide_False.
Qed.

(** No event at or after [t] lies in a window that ends at or before [t]. *)
Lemma Snapshot_before buffer begin_time end_time t :
  Forall (fun ev => Time_lt (TraceEvent.event_time ev) t = false) buffer →
  Time_lt t end_time = false →
  Impl.Snapshot buffer begin_time end_time = [].
Proof.
  intros Hall Hend. induction buffer as [|ev l IH]; [done|].
  apply list.Forall_cons in Hall as [Hev Hall].
  rewrite Snapshot_cons, IH by done.
  destruct (Time_lt (TraceEvent.event_time ev) end_time) eqn:E;
    [|by rewrite andb_false_r].
  by rewrite (Time_lt_le_trans _ _ _ E Hend) in Hev.
Qed.

(** The snapshot of a window of a time-ordered buffer is the snapshots of
    its two halves, one after the other. *)
Lemma Snapshot_split buffer begin_time mid_time end_time :
  time_ordered buffer →
  Time_lt mid_time begin_time = false → Time_lt end_time mid_time = false →
  Impl.Snapshot buffer begin_time end_time
  = Impl.Snapshot buffer begin_time mid_time
    ++ Impl.Snapshot buffer mid_time end_time.
Proof.
  intros Hord Hbm Hme. induction buffer as [|ev l IH]; [done|].
  destruct Hord as [Hev Hord]. rewrite !Snapshot_cons, IH by done.
  set (t := TraceEvent.event_time ev) in *. unfold Time_ge.
  destruct (Time_lt t begin_time) eqn:Eb, (Time_lt t mid_time) eqn:Em,
    (Time_lt t end_time) eqn:Ee; cbn [negb andb app]; try done;
    try (by rewrite (Time_lt_le_trans _ _ _ Eb Hbm) in Em);
    try (by rewrite (Time_lt_le_trans _ _ _ Em Hme) in Ee).
  by rewrite (Snapshot_before l begin_time mid_time t).
Qed.

(** The logging loop started with records already in the result. *)
Lemma CreateLog_loop_prefix snapshot : ∀ traces st,
  fold_left (Impl.CreateLog_step H TS) snapshot (traces, st)
  = (traces ++ (fold_left (Impl.CreateLog_step H TS) snapshot ([], st)).1,
     (fold_left (Impl.CreateLog_step H TS) snapshot ([], st)).2).
Proof.
  induction snapshot as [|ev l IH]; intros traces st; cbn [fold_left].
  { by rewrite app_nil_r. }
  rewrite !CreateLog_step_eq. cbn [app].
  rewrite (IH (traces ++ _)), (IH [_]). cbn [fst snd].
  by rewrite <- app_assoc.
Qed.

End WindowSplit.

(** X7. A verbatim window can be split.  On a builder whose time base is
    calibrated (any earlier call has done so) and a buffer in time order,
    logging the window [[begin, end)] in one call of [CreateLog], or in two
    calls over [[begin, mid)] and [[mid, end)], gives the same records in
    the same order, and leaves the same builder, the same stream names and
    the same bases. *)
Theorem verbatim_log_window_split
    (H : Heap) (TS : TimestampApi) (st : Impl.t)
    (buffer : list TraceEvent.t) (begin_time mid_time end_time : Time) :
  Impl.base_time_ st ≠ INT64_MAX →
  time_ordered buffer →
  Time_lt mid_time begin_time = false → Time_lt end_time mid_time = false →
  let whole := Impl.CreateLog H TS st buffer begin_time end_time in
  let first := Impl.CreateLog H TS st buffer begin_time mid_time in
  let second := Impl.CreateLog H TS first.2 buffer mid_time end_time in
  GraphTrace.calculator_trace whole.1
  = GraphTrace.calculator_trace first.1 ++ GraphTrace.calculator_trace second.1 ∧
  whole.2 = second.2 ∧
  GraphTrace.stream_name whole.1 = GraphTrace.stream_name second.1 ∧
  GraphTrace.base_time whole.1 = GraphTrace.base_time second.1 ∧
  GraphTrace.base_timestamp whole.1 = GraphTrace.base_timestamp second.1.
Proof.
  intros Hbase Hord Hbm Hme whole first second.
  destruct (CreateLog_base H TS st buffer begin_time mid_time) as [Hb1 Hb2].
  rewrite SetBaseTime_later in Hb1, Hb2 by done. fold first in Hb1, Hb2.
  assert (Hfirst : Impl.base_time_ first.2 ≠ INT64_MAX) by (by rewrite Hb1).
  unfold whole, second. rewrite !CreateLog_eq. cbv zeta.
  rewrite !SetBaseTime_later by done.
  rewrite (Snapshot_split buffer begin_time mid_time end_time) by done.
  rewrite fold_left_app.
  assert (Hloop : fold_left (Impl.CreateLog_step H TS)
                    (Impl.Snapshot buffer begin_time mid_time) ([], st)
                  = (GraphTrace.calculator_trace first.1, first.2)).
  { unfold first. rewrite CreateLog_eq. cbv zeta.
    rewrite SetBaseTime_later by done. by destruct (fold_left _ _ _). }
  rewrite Hloop, CreateLog_loop_prefix. cbn [fst snd GraphTrace.calculator_trace
    GraphTrace.stream_name GraphTrace.base_time GraphTrace.base_timestamp].
  by rewrite Hb1, Hb2.
Qed.

Lemma verbatim_log_window_split_witness :
  let H := example_heap in
  let TS := example_timestamps in
  let st := (Impl.CreateLog H TS (Impl.new H) [] InfinitePast InfiniteFuture).2 in
  let whole := Impl.CreateLog H TS st example_buffer
                 (UnixMicros 100) (UnixMicros 200) in
  let first := Impl.CreateLog H TS st example_buffer
                 (UnixMicros 100) (UnixMicros 110) in
  let second := Impl.CreateLog H TS first.2 example_buffer
                  (UnixMicros 110) (UnixMicros 200) in
  Impl.base_time_ st ≠ INT64_MAX ∧ time_ordered example_buffer ∧
  GraphTrace.calculator_trace whole.1
  = GraphTrace.calculator_trace first.1 ++ GraphTrace.calculator_trace second.1 ∧
  whole.2 = second.2.
Proof.
  intros H TS st whole first second.
  assert (Hbase : Impl.base_time_ st ≠ INT64_MAX) by (vm_compute; discriminate).
  assert (Hord : time_ordered example_buffer).
  { cbn [time_ordered example_buffer]. repeat split; repeat constructor. }
  destruct (verbatim_log_window_split H TS st example_buffer
              (UnixMicros 100) (UnixMicros 110) (UnixMicros 200)
              Hbase Hord eq_refl eq_refl) as (Htr & Hst & _).
  split; [exact Hbase|]. split; [exact Hord|]. split; [exact Htr|exact Hst].
Defined.

(** * TimestampAfter *)

Section TimestampAfterFacts.
Variable TO : TimestampOrder.

(** The loop does not look past the first event at or after [begin_time]. *)
Lemma TimestampAfter_loop_prefix begin_time pre rest : ∀ max_ts,
  Forall (fun ev => Time_lt (TraceEvent.event_time ev) begin_time = true) pre →
  (∀ ev, head rest = Some ev →
         Time_ge (TraceEvent.event_time ev) begin_time = true) →
  TimestampAfter_loop TO (pre ++ rest) begin_time max_ts
  = TimestampAfter_loop TO pre begin_time max_ts.
Proof.
  induction pre as [|ev pre IH]; intros max_ts Hpre Hrest.
  - destruct rest as [|ev rest]; [done|]. cbn. by rewrite Hrest.
  - apply list.Forall_cons in Hpre as [Hev Hpre]. cbn.
    unfold Time_ge. rewrite Hev. cbn. by apply IH.
Qed.

(** Over events that all lie before [begin_time], the loop computes the
    greatest of the initial value and the input timestamps. *)
Lemma TimestampAfter_loop_max begin_time pre : ∀ max_ts,
  (∀ a b, Timestamp_lt TO a b = bool_decide (a < b)) →
  Forall (fun ev => Time_lt (TraceEvent.event_time ev) begin_time = true) pre →
  let m := TimestampAfter_loop TO pre begin_time max_ts in
  max_ts ≤ m ∧ (∀ ev, ev ∈ pre → TraceEvent.input_ts ev ≤ m) ∧
  (m = max_ts ∨ ∃ ev, ev ∈ pre ∧ m = TraceEvent.input_ts ev).
Proof.
  intros max_ts Hlt Hpre. revert max_ts.
  induction pre as [|ev pre IH]; intros max_ts.
  { cbn. split_and!; [lia| |by left]. intros ev Hin. by apply elem_of_nil in Hin. }
  apply list.Forall_cons in Hpre as [Hev Hpre]. cbn.
  unfold Time_ge. rewrite Hev. cbn.
  destruct (IH Hpre (Timestamp_max TO max_ts (TraceEvent.input_ts ev)))
    as (Hle & Hall & Hm).
  set (m := TimestampAfter_loop TO pre begin_time _) in *.
  assert (Hmax : max_ts ≤ Timestamp_max TO max_ts (TraceEvent.input_ts ev) ∧
                 TraceEvent.input_ts ev
                 ≤ Timestamp_max TO max_ts (TraceEvent.input_ts ev) ∧
                 (Timestamp_max TO max_ts (TraceEvent.input_ts ev) = max_ts ∨
                  Timestamp_max TO max_ts (TraceEvent.input_ts ev)
                  = TraceEvent.input_ts ev)).
  { unfold Timestamp_max. rewrite Hlt. case_bool_decide; lia. }
  destruct Hmax as (H1 & H2 & H3).
  split_and!; [lia| |].
  - intros ev' [->|Hin]%elem_of_cons; [lia|by apply Hall].
  - destruct Hm as [Hm|(ev' & Hin & Hm)].
    + destruct H3 as [H3|H3]; [left; congruence|].
      right. exists ev. split; [apply list_elem_of_here|congruence].
    + right. exists ev'. split; [by apply list_elem_of_further|done].
Qed.

End TimestampAfterFacts.

(** X8. [TimestampAfter] scans the buffer up to the first event at or
    after [begin_time] and no further: with [pre] the events before it
    (all earlier than [begin_time]), the result is what the buffer [pre]
    alone gives, whatever follows.  When timestamps compare by value, it is
    the successor of the greatest of [Timestamp::Min()] and the input
    timestamps of [pre]; so it is [Timestamp::Min() + 1] for an empty buffer
    and for a buffer whose first event is not before [begin_time]. *)
Theorem timestamp_after_prefix
    (TO : TimestampOrder) (begin_time : Time) (pre rest : list TraceEvent.t) :
  (∀ a b, Timestamp_lt TO a b = bool_decide (a < b)) →
  Forall (fun ev => Time_lt (TraceEvent.event_time ev) begin_time = true) pre →
  (∀ ev, head rest = Some ev →
         Time_ge (TraceEvent.event_time ev) begin_time = true) →
  TimestampAfter TO (pre ++ rest) begin_time = TimestampAfter TO pre begin_time ∧
  ∃ m, TimestampAfter TO (pre ++ rest) begin_time = Timestamp_add_one TO m ∧
       Timestamp_Min TO ≤ m ∧
       (∀ ev, ev ∈ pre → TraceEvent.input_ts ev ≤ m) ∧
       (m = Timestamp_Min TO ∨ ∃ ev, ev ∈ pre ∧ m = TraceEvent.input_ts ev) ∧
       (pre = [] → m = Timestamp_Min TO).
Proof.
  intros Hlt Hpre Hrest. unfold TimestampAfter.
  rewrite TimestampAfter_loop_prefix by done.
  split; [done|].
  destruct (TimestampAfter_loop_max TO begin_time pre (Timestamp_Min TO)
              Hlt Hpre) as (Hle & Hall & Hm).
  eexists. split; [reflexivity|]. split_and!; [done..|].
  by intros ->.
Qed.

Lemma timestamp_after_prefix_witness :
  let TO := example_timestamp_order in
  (∀ a b, Timestamp_lt TO a b = bool_decide (a < b)) ∧
  TimestampAfter TO ([open_start; open_send] ++ [process_receive; early_ready])
                 (UnixMicros 110)
  = TimestampAfter TO [open_start; open_send] (UnixMicros 110).
Proof.
  intros TO.
  assert (Hlt : ∀ a b, Timestamp_lt TO a b = bool_decide (a < b)) by done.
  split; [exact Hlt|].
  apply (timestamp_after_prefix TO (UnixMicros 110) [open_start; open_send]
           [process_receive; early_ready] Hlt).
  - repeat constructor.
  - intros ev [= <-]. reflexivity.
Defined.

(** The example buffer seen from 110: the two [OPEN] events of node 1 lie
    before, with input timestamp 0. *)
Example timestamp_after_example :
  TimestampAfter example_timestamp_order example_buffer (UnixMicros 110)
  = Some 1 ∧
  TimestampAfter example_timestamp_order example_buffer (UnixMicros 100)
  = Some (INT64_MIN + 4) ∧
  TimestampAfter example_timestamp_order [] InfiniteFuture
  = Some (INT64_MIN + 4).
Proof. vm_compute. done. Qed.

(** * Clearing the builder *)

(** X9. [Clear] resets the grouping and nothing else.  [Clear] leaves both
    interners and both bases as they are.  A call of [CreateTrace] on the
    cleared builder, whatever the builder had indexed before, groups the
    events of its own snapshot only: the list under a key is the events of
    the snapshot with that key, in order, the record of a planned event
    with packet detail is built from exactly that list, and every producer
    the hop index holds afterwards is an event of the snapshot. *)
Theorem clear_resets_grouping
    (H : Heap) (TS : TimestampApi) (st : Impl.t)
    (buffer : list TraceEvent.t) (begin_time end_time : Time) :
  let snapshot := Impl.Snapshot buffer begin_time end_time in
  let st0 := Impl.Clear st in
  let st2 := indexed_state H TS st0 buffer begin_time end_time in
  let res := Impl.CreateTrace H TS st0 buffer begin_time end_time in
  (Impl.stream_id_map_ st0 = Impl.stream_id_map_ st ∧
   Impl.packet_data_id_map_ st0 = Impl.packet_data_id_map_ st ∧
   Impl.base_ts_ st0 = Impl.base_ts_ st ∧
   Impl.base_time_ st0 = Impl.base_time_ st) ∧
  (∀ k, Impl.task_events_ res.2 !!! k = filter (has_key k) snapshot) ∧
  (∀ k p, hop_lookup res.2 k = Some p → p ∈ snapshot) ∧
  Forall2
    (fun ev r =>
       ∃ sti, build_ext H st2 sti ∧
         r = if is_packet_event ev
             then (Impl.BuildCalculatorTrace H sti
                     (filter (has_key (Impl.task_id_of ev)) snapshot)
                     CalculatorTrace.empty).1
             else (Impl.BuildEventLog H TS sti ev CalculatorTrace.empty).1)
    (emission_plan snapshot) (GraphTrace.calculator_trace res.1).
Proof.
  intros snapshot st0 st2 res.
  assert (Htask : ∀ k, Impl.task_events_ st2 !!! k = filter (has_key k) snapshot).
  { intros k. unfold st2. rewrite indexed_state_task_events.
    unfold st0, Impl.Clear. cbn. by rewrite lookup_total_empty. }
  destruct (CreateTrace_records H TS st0 buffer begin_time end_time)
    as [Hext Hrec].
  fold st2 res snapshot in Hext, Hrec.
  split; [done|]. split_and!.
  - intros k. by rewrite (be_task _ _ _ Hext).
  - intros k p Hp.
    destruct (indexed_entries_in_snapshot H TS st0 buffer begin_time end_time)
      as [_ Hhop]; [done..|].
    apply (Hhop k). apply (be_hop _ _ _ Hext).
    unfold hop_lookup in Hp.
    destruct (Impl.hop_events_ res.2 !! k) as [[q|]|]; cbn in Hp; congruence.
  - eapply Forall2_impl; [|exact Hrec].
    intros ev r (sti & Hsti & ->). exists sti. split; [done|].
    by rewrite Htask.
Qed.

(** The second window of the example after a [Clear]: the record of the
    [OPEN] invocation of node 1 is built from [open_late] alone. *)
Example clear_resets_grouping_example :
  let H := example_heap in
  let TS := example_timestamps in
  let buffer := example_buffer ++ [open_late] in
  let res := Impl.CreateTrace H TS (Impl.new H) buffer
               (UnixMicros 100) (UnixMicros 200) in
  let res' := Impl.CreateTrace H TS (Impl.Clear res.2) buffer
                (UnixMicros 200) (UnixMicros 300) in
  Impl.task_events_ res'.2 !!! open_key = [open_late] ∧
  (fun r => (CalculatorTrace.start_time r, CalculatorTrace.finish_time r,
             length (CalculatorTrace.input_trace r),
             length (CalculatorTrace.output_trace r)))
    <$> GraphTrace.calculator_trace res'.1
  = [(None, Some 110, 0%nat, 1%nat)].
Proof. vm_compute. done. Qed.

(** * The times of a first log *)

Section FirstLogTimes.
Variable H : Heap.
Variable TS : TimestampApi.

(** The first calibration of the base time. *)
Lemma SetBaseTime_first_time st snapshot :
  Impl.base_time_ st = INT64_MAX →
  (∀ t, t ∈ wall_times snapshot → t < INT64_MAX) →
  snapshot ≠ [] →
  is_minimum (Impl.base_time_ (Impl.SetBaseTime TS st snapshot))
             (wall_times snapshot).
Proof.
  intros Hbt Hwall Hne. unfold Impl.SetBaseTime.
  rewrite decide_True by done.
  destruct (SetBaseTime_loop_values TS snapshot st) as [Ht _].
  set (st1 := fold_left (Impl.SetBaseTime_step TS) snapshot st) in *.
  rewrite Hbt in Ht.
  destruct (fold_left_min_spec (wall_times snapshot) INT64_MAX)
    as (_ & Hw2 & Hw3).
  rewrite <- Ht in Hw2, Hw3.
  assert (Hlt : Impl.base_time_ st1 < INT64_MAX).
  { destruct (wall_times snapshot) as [|x l] eqn:Ew.
    { by apply fmap_nil_inv in Ew. }
    pose proof (Hw2 x (list_elem_of_here _ _)).
    pose proof (Hwall x (list_elem_of_here _ _)). lia. }
  destruct (decide (Impl.base_time_ st1 = INT64_MAX)); [lia|].
  assert (Htime :
    Impl.base_time_
      (if decide (Impl.base_ts_ st1 = INT64_MAX)
       then Impl.set_base_ts_ 0 st1 else st1) = Impl.base_time_ st1).
  { by destruct (decide (Impl.base_ts_ st1 = INT64_MAX)). }
  rewrite Htime. destruct Hw3 as [?|Hin]; [lia|]. by split.
Qed.

Lemma Forall2_impl_elem {A B} (P Q : A → B → Prop) (l : list A) (k : list B) :
  Forall2 P l k → (∀ x y, x ∈ l → P x y → Q x y) → Forall2 Q l k.
Proof.
  induction 1 as [|x y l k Hxy Hlk IH]; intros Himp; constructor.
  - apply Himp; [apply list_elem_of_here|done].
  - apply IH. intros x' y' Hin. apply Himp. by apply list_elem_of_further.
Qed.

End FirstLogTimes.

(** X10. The times of a first log start at zero.  On a builder whose base
    time still holds the sentinel, a call of [CreateLog] whose snapshot
    holds wall times in [[0, INT64_MAX)] emits for every event a record
    whose time field ([finish_time] for a finish-side event, [start_time]
    otherwise) is the wall time of the event minus the least wall time of
    the snapshot: no time of the trace is negative, the earliest event is
    logged at 0, and the trace reports that least wall time as its base. *)
Theorem first_log_times_start_at_zero
    (H : Heap) (TS : TimestampApi) (st : Impl.t)
    (buffer : list TraceEvent.t) (begin_time end_time : Time) :
  let snapshot := Impl.Snapshot buffer begin_time end_time in
  let res := Impl.CreateLog H TS st buffer begin_time end_time in
  Impl.base_time_ st = INT64_MAX →
  (∀ t, t ∈ wall_times snapshot → 0 ≤ t < INT64_MAX) →
  GraphTrace.base_time res.1 = Some (Impl.base_time_ res.2) ∧
  (snapshot ≠ [] → is_minimum (Impl.base_time_ res.2) (wall_times snapshot)) ∧
  Forall2
    (fun ev r =>
       let t := ToUnixMicros (TraceEvent.event_time ev) - Impl.base_time_ res.2 in
       0 ≤ t ∧
       (if TraceEvent.is_finish ev
        then CalculatorTrace.finish_time r
        else CalculatorTrace.start_time r) = Some t)
    snapshot (GraphTrace.calculator_trace res.1) ∧
  (snapshot ≠ [] →
   ∃ ev r, ev ∈ snapshot ∧ r ∈ GraphTrace.calculator_trace res.1 ∧
           (if TraceEvent.is_finish ev
            then CalculatorTrace.finish_time r
            else CalculatorTrace.start_time r) = Some 0).
Proof.
  intros snapshot res Hbt Hwall.
  pose proof (CreateLog_records H TS st buffer begin_time end_time) as Hrec.
  destruct (CreateLog_base H TS st buffer begin_time end_time) as [Hbase _].
  fold snapshot res in Hrec, Hbase.
  assert (Hmin : snapshot ≠ [] →
            is_minimum (Impl.base_time_ res.2) (wall_times snapshot)).
  { intros Hne. rewrite Hbase. apply SetBaseTime_first_time; [done| |done].
    intros t Ht. apply Hwall in Ht. lia. }
  assert (Hall : Forall2
    (fun ev r =>
       let t := ToUnixMicros (TraceEvent.event_time ev) - Impl.base_time_ res.2 in
       0 ≤ t ∧
       (if TraceEvent.is_finish ev
        then CalculatorTrace.finish_time r
        else CalculatorTrace.start_time r) = Some t)
    snapshot (GraphTrace.calculator_trace res.1)).
  { eapply Forall2_impl_elem; [exact Hrec|].
    intros ev r Hin Hr. cbv zeta.
    destruct Hmin as [Hmem Hle]; [by intros ->; apply elem_of_nil in Hin|].
    assert (Hev : ToUnixMicros (TraceEvent.event_time ev) ∈ wall_times snapshot).
    { apply list_elem_of_fmap. by exists ev. }
    pose proof (Hle _ Hev). pose proof (Hwall _ Hev). pose proof (Hwall _ Hmem).
    assert (Hlog : Impl.LogTime res.2 (TraceEvent.event_time ev)
                   = ToUnixMicros (TraceEvent.event_time ev)
                     - Impl.base_time_ res.2).
    { unfold Impl.LogTime. apply int64_small. unfold INT64_MAX in *. lia. }
    split; [lia|].
    rewrite (vr_start_time _ _ _ _ Hr), (vr_finish_time _ _ _ _ Hr).
    destruct (TraceEvent.is_finish ev); by rewrite Hlog. }
  split.
  { unfold res. rewrite CreateLog_eq. cbv zeta. cbn [fst snd GraphTrace.base_time].
    f_equal. symmetry. apply CreateLog_loop. }
  split; [done|]. split; [done|].
  intros Hne. destruct (Hmin Hne) as [Hmem _].
  apply list_elem_of_fmap in Hmem as (ev & Heq & Hin).
  apply list_elem_of_lookup in Hin as [i Hi].
  destruct (Forall2_lookup_l _ _ _ _ _ Hall Hi) as (r & Hr & _ & Hfield).
  exists ev, r. split; [by eapply list_elem_of_lookup_2|].
  split; [by eapply list_elem_of_lookup_2|].
  rewrite Hfield. f_equal. lia.
Qed.

Lemma first_log_times_start_at_zero_witness :
  let H := example_heap in
  let TS := example_timestamps in
  let res := Impl.CreateLog H TS (Impl.new H) example_buffer
               (UnixMicros 100) (UnixMicros 200) in
  Impl.base_time_ (Impl.new H) = INT64_MAX ∧
  GraphTrace.base_time res.1 = Some (Impl.base_time_ res.2) ∧
  ∃ ev r, ev ∈ Impl.Snapshot example_buffer (UnixMicros 100) (UnixMicros 200) ∧
          r ∈ GraphTrace.calculator_trace res.1 ∧
          (if TraceEvent.is_finish ev
           then CalculatorTrace.finish_time r
           else CalculatorTrace.start_time r) = Some 0.
Proof.
  intros H TS res.
  assert (Hbt : Impl.base_time_ (Impl.new H) = INT64_MAX) by reflexivity.
  assert (Esnap : Impl.Snapshot example_buffer (UnixMicros 100) (UnixMicros 200)
                  = example_buffer) by (vm_compute; reflexivity).
  assert (Hwall : ∀ t, t ∈ wall_times
                    (Impl.Snapshot example_buffer (UnixMicros 100) (UnixMicros 200))
                  → 0 ≤ t < INT64_MAX).
  { rewrite Esnap. intros t Ht.
    assert (E : wall_times example_buffer = [100; 105; 110; 120])
      by (vm_compute; reflexivity).
    rewrite E in Ht. unfold INT64_MAX.
    repeat (apply elem_of_cons in Ht as [->|Ht]; [lia|]).
    by apply elem_of_nil in Ht. }
  destruct (first_log_times_start_at_zero H TS (Impl.new H) example_buffer
              (UnixMicros 100) (UnixMicros 200) Hbt Hwall)
    as (Hbase & _ & _ & Hzero).
  split; [exact Hbt|]. split; [exact Hbase|].
  apply Hzero. rewrite Esnap. discriminate.
Defined.

(** * The stream names of a trace *)

Section StreamNames.
Variable H : Heap.
Variable S : gset string.
Variable TS : TimestampApi.
Hypothesis S_small : Z.of_nat (size S) ≤ INT32_MAX.

(** A lookup of a pointer to a name of [S] keeps the interner sound: when
    the name is new, the names held are still fewer than those of [S], so
    the counter has room. *)
Lemma op_index_interner_ok (m : StringIdMap.t) (p : Z) :
  interner_ok H S m → p = nullptr ∨ deref H p ∈ S →
  interner_ok H S (StringIdMap.op_index H m p).2.
Proof.
  intros [Hc Hd Hn Hk] Hp.
  destruct (op_index_cases H m p)
    as [[_ ->]|[(_ & v & _ & ->)|[(Hne & _ & v & Hv & Heq)
                                 |(Hne & Hnone & Hfresh & Heq)]]];
    [done|done| |].
  - pose proof (op_index_cache_ok H m p Hc) as Hc'.
    rewrite Heq in Hc' |- *. cbn [snd] in *.
    constructor; [done|by destruct Hd|done|done].
  - destruct Hp as [?|Hin]; [done|].
    assert (Hsize : Z.of_nat (size (StringIdMap.string_id_map_ m)) + 1
                    ≤ Z.of_nat (size S)).
    { assert (Hsub : dom (<[deref H p := StringIdMap.next_id m]>
                            (StringIdMap.string_id_map_ m)) ⊆ S).
      { rewrite dom_insert. apply union_least; [|done].
        by apply singleton_subseteq_l. }
      apply subseteq_size in Hsub.
      rewrite size_dom, map_size_insert_None in Hsub by done. lia. }
    assert (Hroom : StringIdMap.next_id m < INT32_MAX) by lia.
    pose proof (op_index_cache_ok H m p Hc) as Hc'.
    destruct (op_index_dense H m p Hd Hroom) as [Hd' _].
    rewrite Heq in Hc', Hd' |- *. cbn [snd] in *.
    constructor; [done|done| |]; cbn.
    + rewrite dom_insert. apply union_least; [|done].
      by apply singleton_subseteq_l.
    + rewrite map_size_insert_None by done.
      rewrite int32_small; [lia|].
      pose proof (sd_range _ Hd "" 0 (sd_zero _ Hd)). unfold INT32_MAX in *. lia.
Qed.

Lemma string_interner_init_ok :
  "" ∈ S → interner_ok H S (string_interner_init H).
Proof.
  intros Hin. constructor.
  - apply string_interner_init_cache_ok.
  - apply string_interner_init_dense.
  - rewrite string_interner_init_eq. cbn. rewrite dom_singleton.
    by apply singleton_subseteq_l.
  - rewrite string_interner_init_eq. cbn. by rewrite map_size_singleton.
Qed.

(** The vector of names of a sound interner. *)
Lemma interner_ok_names (m : StringIdMap.t) :
  interner_ok H S m →
  length (GetIdNames m) = Z.to_nat (StringIdMap.next_id m) ∧
  GetIdNames m !! 0%nat = Some "" ∧
  (∀ p v, StringIdMap.pointer_id_map_ m !! p = Some v →
          GetIdNames m !! Z.to_nat v = Some (deref H p)).
Proof.
  intros [Hc Hd _ _].
  destruct (GetIdNames_dense m Hd) as (Hlen & Henc & _).
  split_and!; [done| |].
  - apply (Henc "" 0), Hd.
  - intros p v Hp. by apply Henc, Hc.
Qed.


(** *** The verbatim path *)

Lemma BuildEventLog_stream_id_map st ev r0 :
  Impl.stream_id_map_ (Impl.BuildEventLog H TS st ev r0).2
  = if is_stream_event ev && bool_decide (TraceEvent.stream_id ev ≠ nullptr)
    then (StringIdMap.op_index H (Impl.stream_id_map_ st)
            (TraceEvent.stream_id ev)).2
    else Impl.stream_id_map_ st.
Proof.
  unfold Impl.BuildEventLog, is_stream_event.
  destruct (table_at kProfilerStreamEvents (TraceEvent.event_type ev));
    [|done].
  destruct (decide (TraceEvent.stream_id ev ≠ nullptr)) as [Hp|Hp].
  - rewrite bool_decide_eq_true_2 by done.
    rewrite stream_id_eq. cbn [fst snd andb]. rewrite packet_data_id_eq.
    by destruct (TraceEvent.is_finish ev).
  - by rewrite bool_decide_eq_false_2.
Qed.

Lemma BuildEventLog_interner_ok st ev r0 :
  interner_ok H S (Impl.stream_id_map_ st) → stream_named H S ev →
  interner_ok H S (Impl.stream_id_map_ (Impl.BuildEventLog H TS st ev r0).2).
Proof.
  intros Hok Hev. rewrite BuildEventLog_stream_id_map.
  destruct (_ && _); [|done]. by apply op_index_interner_ok.
Qed.

Lemma CreateLog_loop_interner_ok snapshot : ∀ traces st,
  interner_ok H S (Impl.stream_id_map_ st) →
  Forall (stream_named H S) snapshot →
  interner_ok H S
    (Impl.stream_id_map_
       (fold_left (Impl.CreateLog_step H TS) snapshot (traces, st)).2).
Proof.
  induction snapshot as [|ev l IH]; intros traces st Hok Hall; [done|].
  apply list.Forall_cons in Hall as [Hev Hall]. cbn [fold_left].
  rewrite CreateLog_step_eq. apply IH; [|done].
  by apply BuildEventLog_interner_ok.
Qed.

Lemma CreateLog_interner_ok st buffer begin_time end_time :
  interner_ok H S (Impl.stream_id_map_ st) →
  Forall (stream_named H S) (Impl.Snapshot buffer begin_time end_time) →
  interner_ok H S
    (Impl.stream_id_map_
       (Impl.CreateLog H TS st buffer begin_time end_time).2).
Proof.
  intros Hok Hall. rewrite CreateLog_eq. cbv zeta. cbn [snd].
  apply CreateLog_loop_interner_ok; [|done].
  destruct (SetBaseTime_frame TS st
              (Impl.Snapshot buffer begin_time end_time)) as (_ & _ & -> & _).
  done.
Qed.

(** *** The aggregated path *)

Lemma stream_id_interner_ok st p :
  interner_ok H S (Impl.stream_id_map_ st) → p = nullptr ∨ deref H p ∈ S →
  interner_ok H S (Impl.stream_id_map_ (Impl.stream_id H st p).2).
Proof. intros Hok Hp. rewrite stream_id_eq. by apply op_index_interner_ok. Qed.

Lemma packet_data_id_stream_map st a :
  Impl.stream_id_map_ (Impl.packet_data_id st a).2 = Impl.stream_id_map_ st.
Proof. by rewrite packet_data_id_eq. Qed.

Lemma hop_events_at_stream_map st k :
  Impl.stream_id_map_ (Impl.hop_events_at st k).2 = Impl.stream_id_map_ st.
Proof. unfold Impl.hop_events_at. by destruct (Impl.hop_events_ st !! k). Qed.

Lemma task_events_at_stream_map st k :
  Impl.stream_id_map_ (Impl.task_events_at st k).2 = Impl.stream_id_map_ st.
Proof. unfold Impl.task_events_at. by destruct (Impl.task_events_ st !! k). Qed.

Lemma FindOutputEvent_interner_ok st ev :
  interner_ok H S (Impl.stream_id_map_ st) → stream_named H S ev →
  interner_ok H S (Impl.stream_id_map_ (Impl.FindOutputEvent H st ev).2).
Proof.
  intros Hok Hev. unfold Impl.FindOutputEvent. rewrite hop_id_of_eq.
  rewrite hop_events_at_stream_map. by apply op_index_interner_ok.
Qed.

Lemma BuildStreamTrace_interner_ok st ev r0 :
  interner_ok H S (Impl.stream_id_map_ st) → stream_named H S ev →
  interner_ok H S (Impl.stream_id_map_ (Impl.BuildStreamTrace H st ev r0).2).
Proof.
  intros Hok Hev. unfold Impl.BuildStreamTrace.
  pose proof (stream_id_interner_ok st (TraceEvent.stream_id ev) Hok Hev) as H1.
  destruct (Impl.stream_id H st (TraceEvent.stream_id ev)) as [sid st1].
  cbn [snd] in H1.
  destruct (TraceEvent.is_finish ev); [done|].
  pose proof (packet_data_id_stream_map st1 (TraceEvent.packet_data_id ev)) as H2.
  destruct (Impl.packet_data_id st1 (TraceEvent.packet_data_id ev)) as [pid st2].
  cbn [snd] in H2. rewrite <- H2 in H1.
  pose proof (FindOutputEvent_interner_ok st2 ev H1 Hev) as H3.
  destruct (Impl.FindOutputEvent H st2 ev) as [o st3]. cbn [snd] in H3.
  by destruct o.
Qed.

Lemma BuildCalculatorTrace_step_interner_ok acc ev :
  interner_ok H S (Impl.stream_id_map_ (Impl.bl_state acc)) →
  stream_named H S ev →
  interner_ok H S
    (Impl.stream_id_map_
       (Impl.bl_state (Impl.BuildCalculatorTrace_step H acc ev))).
Proof.
  intros Hok Hev. destruct acc as [s f r st].
  rewrite BuildCalculatorTrace_step_eq. cbv zeta.
  destruct (is_stream_event ev); [|done].
  by apply BuildStreamTrace_interner_ok.
Qed.

Lemma BuildCalculatorTrace_loop_interner_ok task_events : ∀ acc,
  interner_ok H S (Impl.stream_id_map_ (Impl.bl_state acc)) →
  Forall (stream_named H S) task_events →
  interner_ok H S
    (Impl.stream_id_map_
       (Impl.bl_state
          (fold_left (Impl.BuildCalculatorTrace_step H) task_events acc))).
Proof.
  induction task_events as [|ev l IH]; intros acc Hok Hall; [done|].
  apply list.Forall_cons in Hall as [Hev Hall]. cbn [fold_left].
  apply IH; [|done]. by apply BuildCalculatorTrace_step_interner_ok.
Qed.

Lemma BuildCalculatorTrace_interner_ok st task_events r0 :
  interner_ok H S (Impl.stream_id_map_ st) →
  Forall (stream_named H S) task_events →
  interner_ok H S
    (Impl.stream_id_map_ (Impl.BuildCalculatorTrace H st task_events r0).2).
Proof.
  intros Hok Hall. rewrite BuildCalculatorTrace_eq. cbv zeta. cbn [snd].
  by apply BuildCalculatorTrace_loop_interner_ok.
Qed.

Lemma index_event_interner_ok st ev :
  interner_ok H S (Impl.stream_id_map_ st) → stream_named H S ev →
  interner_ok H S (Impl.stream_id_map_ (Impl.index_event H st ev)).
Proof.
  intros Hok Hev. rewrite index_event_eq.
  destruct (is_packet_event ev); cbn; [|done].
  by apply op_index_interner_ok.
Qed.

Lemma index_loop_interner_ok snapshot : ∀ st,
  interner_ok H S (Impl.stream_id_map_ st) →
  Forall (stream_named H S) snapshot →
  interner_ok H S
    (Impl.stream_id_map_ (fold_left (Impl.index_event H) snapshot st)).
Proof.
  induction snapshot as [|ev l IH]; intros st Hok Hall; [done|].
  apply list.Forall_cons in Hall as [Hev Hall]. cbn [fold_left].
  apply IH; [|done]. by apply index_event_interner_ok.
Qed.

Lemma index_loop_tasks_named snapshot st :
  tasks_named H S st → Forall (stream_named H S) snapshot →
  tasks_named H S (fold_left (Impl.index_event H) snapshot st).
Proof.
  intros Ht Hall k ev. rewrite index_loop_task_events.
  intros [Hin|Hin]%elem_of_app; [by eapply Ht|].
  apply list_elem_of_filter in Hin as [_ Hin].
  by eapply list.Forall_forall in Hall.
Qed.

(** The indexing loop leaves the stream pointer of every event with packet
    detail in the pointer cache. *)
Lemma index_loop_pointer_known snapshot st c :
  c ∈ snapshot → is_packet_event c = true →
  TraceEvent.stream_id c ≠ nullptr →
  is_Some (StringIdMap.pointer_id_map_
             (Impl.stream_id_map_ (fold_left (Impl.index_event H) snapshot st))
             !! TraceEvent.stream_id c).
Proof.
  intros (pre & post & ->)%list_elem_of_split Hp Hne.
  rewrite fold_left_app. cbn [fold_left].
  set (st1 := fold_left (Impl.index_event H) pre st).
  destruct (index_loop_frame H post (Impl.index_event H st1 c))
    as (_ & _ & _ & [Hsub _] & _).
  eexists. eapply lookup_weaken; [|exact Hsub].
  rewrite index_event_eq, Hp. cbn.
  by apply op_index_pointer_result.
Qed.

Lemma tasks_named_build_ext st st' :
  build_ext H st st' → tasks_named H S st → tasks_named H S st'.
Proof. intros Hext Ht k ev. rewrite (be_task _ _ _ Hext). apply Ht. Qed.

Lemma CreateTrace_step_interner_ok acc ev :
  interner_ok H S (Impl.stream_id_map_ (Impl.tl_state acc)) →
  tasks_named H S (Impl.tl_state acc) → stream_named H S ev →
  interner_ok H S
    (Impl.stream_id_map_ (Impl.tl_state (Impl.CreateTrace_step H TS acc ev))).
Proof.
  intros Hok Ht Hev.
  destruct (CreateTrace_step_cases H TS acc ev)
    as [[_ ->]|[(_ & _ & ->)|(_ & _ & ->)]]; cbn [Impl.tl_state]; [|done|].
  - by apply BuildEventLog_interner_ok.
  - apply BuildCalculatorTrace_interner_ok.
    + by rewrite task_events_at_stream_map.
    + apply list.Forall_forall. intros e He. by eapply Ht.
Qed.

Lemma CreateTrace_loop_interner_ok snapshot : ∀ acc,
  interner_ok H S (Impl.stream_id_map_ (Impl.tl_state acc)) →
  tasks_named H S (Impl.tl_state acc) →
  Forall (stream_named H S) snapshot →
  interner_ok H S
    (Impl.stream_id_map_
       (Impl.tl_state (fold_left (Impl.CreateTrace_step H TS) snapshot acc))).
Proof.
  induction snapshot as [|ev l IH]; intros acc Hok Ht Hall; [done|].
  apply list.Forall_cons in Hall as [Hev Hall]. cbn [fold_left].
  apply IH; [|  |done].
  - by apply CreateTrace_step_interner_ok.
  - eapply tasks_named_build_ext; [apply CreateTrace_step_build_ext|done].
Qed.

(** [CreateTrace] keeps a builder sound for [S]. *)
Lemma CreateTrace_builder_ok st buffer begin_time end_time :
  interner_ok H S (Impl.stream_id_map_ st) → tasks_named H S st →
  Forall (stream_named H S) (Impl.Snapshot buffer begin_time end_time) →
  let res := Impl.CreateTrace H TS st buffer begin_time end_time in
  interner_ok H S (Impl.stream_id_map_ res.2) ∧ tasks_named H S res.2.
Proof.
  intros Hok Ht Hall res.
  set (snapshot := Impl.Snapshot buffer begin_time end_time) in *.
  set (st2 := indexed_state H TS st buffer begin_time end_time).
  destruct (SetBaseTime_frame TS st snapshot) as (Htask & _ & Hmap & _).
  assert (Hok2 : interner_ok H S (Impl.stream_id_map_ st2)).
  { unfold st2. rewrite indexed_state_eq. fold snapshot.
    apply index_loop_interner_ok; [by rewrite Hmap|done]. }
  assert (Ht2 : tasks_named H S st2).
  { unfold st2. rewrite indexed_state_eq. fold snapshot.
    apply index_loop_tasks_named; [|done].
    intros k ev. rewrite Htask. apply Ht. }
  destruct (CreateTrace_records H TS st buffer begin_time end_time)
    as [Hext _]. fold st2 res in Hext.
  split; [|by eapply tasks_named_build_ext].
  unfold res. rewrite CreateTrace_eq. cbv zeta. cbn [snd].
  by apply CreateTrace_loop_interner_ok.
Qed.

(** A new builder is sound for any set of names that holds the empty name,
    and every call whose snapshot names streams of [S] keeps it so. *)
Lemma new_builder_ok :
  "" ∈ S →
  interner_ok H S (Impl.stream_id_map_ (Impl.new H)) ∧
  tasks_named H S (Impl.new H).
Proof.
  intros Hin. split.
  - rewrite new_stream_id_map. by apply string_interner_init_ok.
  - intros k ev Hev. unfold Impl.new in Hev.
    rewrite stream_id_eq, packet_data_id_eq in Hev. cbn in Hev.
    rewrite lookup_total_empty in Hev. by apply elem_of_nil in Hev.
Qed.

Lemma run_calls_builder_ok cs : ∀ st,
  interner_ok H S (Impl.stream_id_map_ st) → tasks_named H S st →
  Forall (fun c => Forall (stream_named H S) (call_snapshot c)) cs →
  interner_ok H S (Impl.stream_id_map_ (run_calls H TS st cs)) ∧
  tasks_named H S (run_calls H TS st cs).
Proof.
  induction cs as [|c cs IH]; intros st Hok Ht Hall; [done|].
  apply list.Forall_cons in Hall as [Hc Hall].
  unfold run_calls. cbn [fold_left]. apply IH; [| |done].
  - destruct c as [buffer b e|buffer b e|]; cbn [run_call call_snapshot] in *.
    + by apply CreateTrace_builder_ok.
    + by apply CreateLog_interner_ok.
    + done.
  - destruct c as [buffer b e|buffer b e|]; cbn [run_call call_snapshot] in *.
    + by apply CreateTrace_builder_ok.
    + intros k ev.
      destruct (CreateLog_log_ext H TS st buffer b e) as (-> & _). apply Ht.
    + intros k ev Hev. unfold Impl.Clear in Hev. cbn in Hev.
      rewrite lookup_total_empty in Hev. by apply elem_of_nil in Hev.
Qed.

End StreamNames.

(** X11. The stream names of a verbatim log decode its stream ids.  Let
    the builder be sound for a set [S] of fewer than 2^31 stream names (a
    new builder is, and every call keeps it so) and let the events of the
    snapshot name streams of [S].  Then in the trace of [CreateLog] the
    vector [stream_name] has one entry per identifier handed out so far,
    entry 0 is the empty name, and the [stream_id] of every transfer entry
    of a record is the position in [stream_name] of the name of the stream
    of its event. *)
Theorem stream_names_decode_log
    (H : Heap) (TS : TimestampApi) (S : gset string) (st : Impl.t)
    (buffer : list TraceEvent.t) (begin_time end_time : Time) :
  let snapshot := Impl.Snapshot buffer begin_time end_time in
  let res := Impl.CreateLog H TS st buffer begin_time end_time in
  Z.of_nat (size S) ≤ INT32_MAX →
  interner_ok H S (Impl.stream_id_map_ st) →
  Forall (stream_named H S) snapshot →
  interner_ok H S (Impl.stream_id_map_ res.2) ∧
  length (GraphTrace.stream_name res.1)
  = Z.to_nat (StringIdMap.next_id (Impl.stream_id_map_ res.2)) ∧
  GraphTrace.stream_name res.1 !! 0%nat = Some "" ∧
  Forall2
    (fun ev r =>
       ∀ t, t ∈ CalculatorTrace.input_trace r ++ CalculatorTrace.output_trace r →
            ∃ sid, StreamTrace.stream_id t = Some sid ∧
                   GraphTrace.stream_name res.1 !! Z.to_nat sid
                   = Some (deref H (TraceEvent.stream_id ev)))
    snapshot (GraphTrace.calculator_trace res.1).
Proof.
  intros snapshot res Hsmall Hok Hall.
  pose proof (CreateLog_interner_ok H S TS Hsmall st buffer begin_time end_time
                Hok Hall) as Hok'.
  fold res in Hok'.
  assert (Hnames : GraphTrace.stream_name res.1
                   = GetIdNames (Impl.stream_id_map_ res.2)).
  { unfold res. by rewrite CreateLog_eq. }
  destruct (interner_ok_names H S _ Hok') as (Hlen & Hzero & Hdec).
  rewrite Hnames. split; [done|]. split; [done|]. split; [done|].
  eapply Forall2_impl;
    [|exact (CreateLog_records H TS st buffer begin_time end_time)].
  intros ev r Hr t Ht. fold res in Hr.
  pose proof (vr_transfer _ _ _ _ Hr) as Hx.
  destruct (is_stream_event ev
            && bool_decide (TraceEvent.stream_id ev ≠ nullptr)).
  - destruct Hx as (sid & pid & Hsid & _ & Hx). cbv zeta in Hx.
    exists sid. split; [|by apply Hdec].
    destruct (TraceEvent.is_finish ev); destruct Hx as [Hx1 Hx2];
      rewrite Hx1, Hx2 in Ht; cbn [app] in Ht;
      apply list_elem_of_singleton in Ht; by subst t.
  - destruct Hx as [Hx1 Hx2]. rewrite Hx1, Hx2 in Ht.
    by apply elem_of_nil in Ht.
Qed.

(** X12. The stream names of an aggregated trace decode its stream ids.
    Under the same conditions, the events the builder has indexed naming
    streams of [S] as well, the trace of [CreateTrace] has a vector
    [stream_name] with one entry per identifier, entry 0 being the empty
    name, and every event of the snapshot of a kind with stream-hop
    sub-records has its transfer entry in some record, in the output list
    when finish-side and in the input list otherwise, whose [stream_id] is
    the position in [stream_name] of the name of the event's stream: the
    empty name at position 0 when the stream pointer is null.  The builder
    the call leaves is sound for [S] again. *)
Theorem stream_names_decode_trace
    (H : Heap) (TS : TimestampApi) (S : gset string) (st : Impl.t)
    (buffer : list TraceEvent.t) (begin_time end_time : Time) :
  let snapshot := Impl.Snapshot buffer begin_time end_time in
  let res := Impl.CreateTrace H TS st buffer begin_time end_time in
  Z.of_nat (size S) ≤ INT32_MAX →
  interner_ok H S (Impl.stream_id_map_ st) → tasks_named H S st →
  Forall (stream_named H S) snapshot →
  (interner_ok H S (Impl.stream_id_map_ res.2) ∧ tasks_named H S res.2) ∧
  length (GraphTrace.stream_name res.1)
  = Z.to_nat (StringIdMap.next_id (Impl.stream_id_map_ res.2)) ∧
  GraphTrace.stream_name res.1 !! 0%nat = Some "" ∧
  (∀ c, c ∈ snapshot → is_stream_event c = true →
        ∃ r t sid,
          r ∈ GraphTrace.calculator_trace res.1 ∧
          (if TraceEvent.is_finish c
           then t ∈ CalculatorTrace.output_trace r
           else t ∈ CalculatorTrace.input_trace r) ∧
          StreamTrace.stream_id t = Some sid ∧
          GraphTrace.stream_name res.1 !! Z.to_nat sid
          = Some (stream_name_of H c)).
Proof.
  intros snapshot res Hsmall Hok Ht Hall.
  pose proof (CreateTrace_builder_ok H S TS Hsmall st buffer begin_time end_time
                Hok Ht Hall) as Hok'.
  cbv zeta in Hok'. fold res in Hok'.
  assert (Hnames : GraphTrace.stream_name res.1
                   = GetIdNames (Impl.stream_id_map_ res.2)).
  { unfold res. by rewrite CreateTrace_eq. }
  destruct (interner_ok_names H S _ (proj1 Hok')) as (Hlen & Hzero & Hdec).
  rewrite Hnames. split; [done|]. split; [done|]. split; [done|].
  intros c Hc Hs.
  destruct (CreateTrace_transfer H TS st buffer begin_time end_time c Hc Hs)
    as (r & t & Hr & Hside & Hsid & _).
  fold res in Hr, Hsid.
  exists r, t, (TaskId.id (transfer_key H res.2 c)).
  split; [done|]. split; [done|]. split; [done|].
  rewrite transfer_key_eq. cbn [TaskId.id]. unfold stream_name_of.
  destruct (decide (TraceEvent.stream_id c = nullptr)) as [->|Hne].
  { by rewrite op_index_null. }
  destruct (CreateTrace_records H TS st buffer begin_time end_time)
    as [Hext _]. fold res in Hext.
  destruct (index_loop_pointer_known H snapshot
              (Impl.SetBaseTime TS st snapshot) c Hc
              (stream_event_is_packet_event c Hs) Hne) as [v Hv].
  destruct (be_strings _ _ _ Hext) as [Hsub _].
  rewrite indexed_state_eq in Hsub. fold snapshot in Hsub.
  pose proof (lookup_weaken _ _ _ _ Hv Hsub) as Hv'.
  assert (Hop : StringIdMap.op_index H (Impl.stream_id_map_ res.2)
                  (TraceEvent.stream_id c) = (v, Impl.stream_id_map_ res.2)).
  { unfold StringIdMap.op_index. rewrite decide_False by done.
    by rewrite Hv'. }
  rewrite Hop. by apply Hdec.
Qed.

Lemma example_names_small : Z.of_nat (size example_names) ≤ INT32_MAX.
Proof.
  assert (Hsize : size example_names = 3%nat) by (vm_compute; reflexivity).
  rewrite Hsize.
  unfold INT32_MAX. lia.
Qed.

Lemma example_buffer_named :
  Forall (stream_named example_heap example_names) example_buffer.
Proof.
  unfold example_buffer, example_names.
  repeat constructor;
    (by left) ||
    (right; cbn; rewrite !elem_of_union, !elem_of_singleton; tauto).
Qed.

Lemma example_names_empty : "" ∈ example_names.
Proof. unfold example_names. rewrite !elem_of_union, !elem_of_singleton. tauto. Qed.

Lemma stream_names_decode_log_witness :
  let H := example_heap in
  let TS := example_timestamps in
  let res := Impl.CreateLog H TS (Impl.new H) example_buffer
               InfinitePast InfiniteFuture in
  Z.of_nat (size example_names) ≤ INT32_MAX ∧
  interner_ok H example_names (Impl.stream_id_map_ (Impl.new H)) ∧
  Forall (stream_named H example_names)
         (Impl.Snapshot example_buffer InfinitePast InfiniteFuture) ∧
  length (GraphTrace.stream_name res.1)
  = Z.to_nat (StringIdMap.next_id (Impl.stream_id_map_ res.2)) ∧
  GraphTrace.stream_name res.1 !! 0%nat = Some "".
Proof.
  intros H TS res.
  pose proof example_names_small as Hsmall.
  destruct (new_builder_ok H example_names example_names_empty) as [Hok _].
  assert (Hall : Forall (stream_named H example_names)
                   (Impl.Snapshot example_buffer InfinitePast InfiniteFuture)).
  { assert (E : Impl.Snapshot example_buffer InfinitePast InfiniteFuture
                = example_buffer) by (vm_compute; reflexivity).
    rewrite E. apply example_buffer_named. }
  destruct (stream_names_decode_log H TS example_names (Impl.new H)
              example_buffer InfinitePast InfiniteFuture Hsmall Hok Hall)
    as (_ & Hlen & Hzero & _).
  split; [exact Hsmall|]. split; [exact Hok|]. split; [exact Hall|].
  split; [exact Hlen|exact Hzero].
Defined.

Lemma stream_names_decode_trace_witness :
  let H := example_heap in
  let TS := example_timestamps in
  let res := Impl.CreateTrace H TS (Impl.new H) example_buffer
               InfinitePast InfiniteFuture in
  Z.of_nat (size example_names) ≤ INT32_MAX ∧
  interner_ok H example_names (Impl.stream_id_map_ (Impl.new H)) ∧
  tasks_named H example_names (Impl.new H) ∧
  Forall (stream_named H example_names)
         (Impl.Snapshot example_buffer InfinitePast InfiniteFuture) ∧
  ∃ r t sid,
    r ∈ GraphTrace.calculator_trace res.1 ∧
    t ∈ CalculatorTrace.input_trace r ∧
    StreamTrace.stream_id t = Some sid ∧
    GraphTrace.stream_name res.1 !! Z.to_nat sid = Some "s1".
Proof.
  intros H TS res.
  pose proof example_names_small as Hsmall.
  destruct (new_builder_ok H example_names example_names_empty) as [Hok Ht].
  assert (E : Impl.Snapshot example_buffer InfinitePast InfiniteFuture
              = example_buffer) by (vm_compute; reflexivity).
  assert (Hall : Forall (stream_named H example_names)
                   (Impl.Snapshot example_buffer InfinitePast InfiniteFuture)).
  { rewrite E. apply example_buffer_named. }
  destruct (stream_names_decode_trace H TS example_names (Impl.new H)
              example_buffer InfinitePast InfiniteFuture Hsmall Hok Ht Hall)
    as (_ & _ & _ & Hdec).
  split; [exact Hsmall|]. split; [exact Hok|]. split; [exact Ht|].
  split; [exact Hall|].
  apply (Hdec process_receive); [|reflexivity].
  rewrite E. unfold example_buffer.
  apply list_elem_of_further, list_elem_of_further, list_elem_of_here.
Defined.

(** The stream names of the example, in both modes. *)
Example stream_names_example :
  let H := example_heap in
  let TS := example_timestamps in
  GraphTrace.stream_name
    (Impl.CreateTrace H TS (Impl.new H) example_buffer
       InfinitePast InfiniteFuture).1 = [""; "s1"; "s2"] ∧
  GraphTrace.stream_name
    (Impl.CreateLog H TS (Impl.new H) example_buffer
       InfinitePast InfiniteFuture).1 = [""; "s1"; "s2"].
Proof. vm_compute. done. Qed.

(** * The identity fields of an aggregated record *)

Section RecordIdentity.
Variable H : Heap.
Variable TS : TimestampApi.

Lemma EventType_to_int_inj (a b : EventType) :
  EventType_to_int a = EventType_to_int b → a = b.
Proof. destruct a, b; simpl; intros; congruence. Qed.

(** Two events of one invocation agree on node, input timestamp and kind. *)
Lemma has_key_same k e1 e2 :
  has_key k e1 → has_key k e2 →
  TraceEvent.node_id e1 = TraceEvent.node_id e2 ∧
  TraceEvent.input_ts e1 = TraceEvent.input_ts e2 ∧
  TraceEvent.event_type e1 = TraceEvent.event_type e2.
Proof.
  intros [_ H1] [_ H2]. rewrite <- H2 in H1. unfold Impl.task_id_of in H1.
  injection H1 as Hn Ht He. apply EventType_to_int_inj in He. done.
Qed.

Lemma has_key_same_stream k e1 e2 :
  has_key k e1 → has_key k e2 → is_stream_event e1 = is_stream_event e2.
Proof.
  intros H1 H2. destruct (has_key_same k e1 e2 H1 H2) as (_ & _ & He).
  unfold is_stream_event. by rewrite He.
Qed.

(** The identity fields of the record built from the events of one
    invocation. *)
Lemma BuildCalculatorTrace_identity_keyed st k l ev first last' :
  Forall (has_key k) l → has_key k ev →
  head l = Some first → list.last l = Some last' →
  identity_of (Impl.BuildCalculatorTrace H st l CalculatorTrace.empty).1
  = (Some (TraceEvent.node_id ev), Some (TraceEvent.event_type ev),
     Some (Impl.LogTimestamp st (TraceEvent.input_ts ev)),
     Some (TraceEvent.thread_id (if is_stream_event ev then first else last'))).
Proof.
  intros Hall Hev Hfirst Hlast.
  destruct (is_stream_event ev) eqn:Hs.
  - apply head_Some in Hfirst as [rest ->].
    apply list.Forall_cons in Hall as [Hf _].
    rewrite BuildCalculatorTrace_identity_stream_kind
      by (by rewrite (has_key_same_stream k first ev)).
    destruct (has_key_same k first ev Hf Hev) as (-> & -> & ->). done.
  - apply last_Some in Hlast as [l' ->].
    rewrite BuildCalculatorTrace_identity_task_kind.
    + apply list.Forall_app in Hall as [_ Hl].
      apply list.Forall_cons in Hl as [Hl _].
      destruct (has_key_same k last' ev Hl Hev) as (-> & -> & ->). done.
    + eapply list.Forall_impl; [exact Hall|]. intros e He.
      by rewrite (has_key_same_stream k e ev).
Qed.

(** *** The invariant *)

Lemma new_tasks_keyed : tasks_keyed (Impl.new H).
Proof.
  intros k ev Hev. unfold Impl.new in Hev.
  rewrite stream_id_eq, packet_data_id_eq in Hev. cbn in Hev.
  rewrite lookup_total_empty in Hev. by apply elem_of_nil in Hev.
Qed.

Lemma indexed_state_tasks_keyed st buffer begin_time end_time :
  tasks_keyed st →
  tasks_keyed (indexed_state H TS st buffer begin_time end_time).
Proof.
  intros Hk k ev. rewrite indexed_state_task_events.
  intros [Hin|Hin]%elem_of_app; [by apply Hk|].
  by apply list_elem_of_filter in Hin as [? _].
Qed.

Lemma tasks_keyed_build_ext st st' :
  build_ext H st st' → tasks_keyed st → tasks_keyed st'.
Proof. intros Hext Hk k ev. rewrite (be_task _ _ _ Hext). apply Hk. Qed.

Lemma run_calls_tasks_keyed cs : ∀ st,
  tasks_keyed st → tasks_keyed (run_calls H TS st cs).
Proof.
  induction cs as [|c cs IH]; intros st Hk; [done|].
  unfold run_calls. cbn [fold_left]. apply IH.
  destruct c as [buffer b e|buffer b e|]; cbn [run_call].
  - destruct (CreateTrace_records H TS st buffer b e) as [Hext _].
    eapply tasks_keyed_build_ext; [exact Hext|].
    by apply indexed_state_tasks_keyed.
  - intros k ev.
    destruct (CreateLog_log_ext H TS st buffer b e) as (-> & _). apply Hk.
  - intros k ev Hev. unfold Impl.Clear in Hev. cbn in Hev.
    rewrite lookup_total_empty in Hev. by apply elem_of_nil in Hev.
Qed.

End RecordIdentity.

(** X13. The identity fields of an aggregated record.  On a builder whose
    invocation index is keyed (a new builder is, and every call keeps it
    so), the record [CreateTrace] emits for a planned event with packet
    detail carries the node, the kind and the relative input timestamp of
    that event, which all events of the invocation share.  Its [thread_id]
    is that of the first event of the list under the key when the kind
    produces stream-hop sub-records, and that of the last event of the list
    for the other kinds (GPU, DSP and TPU tasks). *)
Theorem aggregated_record_identity
    (H : Heap) (TS : TimestampApi) (st : Impl.t)
    (buffer : list TraceEvent.t) (begin_time end_time : Time) :
  let snapshot := Impl.Snapshot buffer begin_time end_time in
  let st2 := indexed_state H TS st buffer begin_time end_time in
  let res := Impl.CreateTrace H TS st buffer begin_time end_time in
  tasks_keyed st →
  Forall2
    (fun ev r =>
       is_packet_event ev = true →
       let l := Impl.task_events_ st2 !!! Impl.task_id_of ev in
       CalculatorTrace.node_id r = Some (TraceEvent.node_id ev) ∧
       CalculatorTrace.event_type r = Some (TraceEvent.event_type ev) ∧
       CalculatorTrace.input_timestamp r
       = Some (Impl.LogTimestamp res.2 (TraceEvent.input_ts ev)) ∧
       ∃ first last',
         head l = Some first ∧ list.last l = Some last' ∧
         CalculatorTrace.thread_id r
         = Some (TraceEvent.thread_id
                   (if is_stream_event ev then first else last')))
    (emission_plan snapshot) (GraphTrace.calculator_trace res.1).
Proof.
  intros snapshot st2 res Hk.
  destruct (CreateTrace_records H TS st buffer begin_time end_time)
    as [Hext Hrec]. fold snapshot st2 res in Hext, Hrec.
  pose proof (indexed_state_tasks_keyed H TS st buffer begin_time end_time Hk)
    as Hk2. fold st2 in Hk2.
  eapply Forall2_impl_elem; [exact Hrec|].
  intros ev r Hplan (sti & Hsti & Hr) Hp. cbv zeta. rewrite Hp in Hr.
  set (l := Impl.task_events_ st2 !!! Impl.task_id_of ev) in *.
  assert (Hev : has_key (Impl.task_id_of ev) ev) by done.
  assert (Hin : ev ∈ l).
  { unfold l, st2. rewrite indexed_state_task_events.
    apply elem_of_app. right. apply list_elem_of_filter. split; [done|].
    by eapply emission_plan_from_elem. }
  assert (Hne : l ≠ []) by (intros E; rewrite E in Hin; by apply elem_of_nil in Hin).
  destruct (proj2 (head_is_Some l) Hne) as [first Hfirst].
  destruct (proj2 (last_is_Some l) Hne) as [last' Hlast].
  assert (Hall : Forall (has_key (Impl.task_id_of ev)) l).
  { apply list.Forall_forall. intros e He. by apply Hk2. }
  pose proof (BuildCalculatorTrace_identity_keyed H sti _ l ev first last'
                Hall Hev Hfirst Hlast) as Hid.
  rewrite <- Hr in Hid. unfold identity_of in Hid.
  injection Hid as Hn He Hi Ht.
  assert (Hts : Impl.LogTimestamp res.2 (TraceEvent.input_ts ev)
                = Impl.LogTimestamp sti (TraceEvent.input_ts ev)).
  { apply LogTimestamp_ext.
    by rewrite (be_base_ts _ _ _ Hext), (be_base_ts _ _ _ Hsti). }
  rewrite Hts. split; [done|]. split; [done|]. split; [done|].
  by exists first, last'.
Qed.

Lemma aggregated_record_identity_witness :
  let H := example_heap in
  let TS := example_timestamps in
  let buffer := [gpu_start; gpu_finish; open_start; open_send] in
  let st2 := indexed_state H TS (Impl.new H) buffer InfinitePast InfiniteFuture in
  let res := Impl.CreateTrace H TS (Impl.new H) buffer
               InfinitePast InfiniteFuture in
  tasks_keyed (Impl.new H) ∧
  Forall2
    (fun ev r =>
       is_packet_event ev = true →
       let l := Impl.task_events_ st2 !!! Impl.task_id_of ev in
       CalculatorTrace.node_id r = Some (TraceEvent.node_id ev) ∧
       CalculatorTrace.event_type r = Some (TraceEvent.event_type ev) ∧
       CalculatorTrace.input_timestamp r
       = Some (Impl.LogTimestamp res.2 (TraceEvent.input_ts ev)) ∧
       ∃ first last',
         head l = Some first ∧ list.last l = Some last' ∧
         CalculatorTrace.thread_id r
         = Some (TraceEvent.thread_id
                   (if is_stream_event ev then first else last')))
    (emission_plan
       (Impl.Snapshot buffer InfinitePast InfiniteFuture))
    (GraphTrace.calculator_trace res.1).
Proof.
  intros H TS buffer st2 res.
  pose proof (new_tasks_keyed H) as Hk.
  split; [exact Hk|].
  exact (aggregated_record_identity H TS (Impl.new H) buffer
           InfinitePast InfiniteFuture Hk).
Defined.

(** The GPU task of node 1 and its [OPEN] invocation: the first record
    carries the thread of the last GPU event, the second the thread of the
    first [OPEN] event. *)
Example aggregated_record_identity_example :
  let res := Impl.CreateTrace example_heap example_timestamps
               (Impl.new example_heap)
               [gpu_start; gpu_finish; open_start; open_send]
               InfinitePast InfiniteFuture in
  identity_of <$> GraphTrace.calculator_trace res.1
  = [(Some 1, Some GPU_TASK, Some 0, Some 9);
     (Some 1, Some OPEN, Some 0, Some 7)].
Proof. vm_compute. done. Qed.

(** * Identifiers across calls *)

Section IdsSurvive.
Variable H : Heap.
Variable TS : TimestampApi.

(** No call of the public interface drops or changes an entry of the two
    interners. *)
Lemma run_call_ids_ext st c :
  string_ext (Impl.stream_id_map_ st) (Impl.stream_id_map_ (run_call H TS st c)) ∧
  AddressIdMap.pointer_id_map_ (Impl.packet_data_id_map_ st)
  ⊆ AddressIdMap.pointer_id_map_ (Impl.packet_data_id_map_ (run_call H TS st c)).
Proof.
  destruct c as [buffer b e|buffer b e|]; cbn [run_call].
  - destruct (indexed_state_frame H TS st buffer b e) as (_ & _ & Hp & Hs & _).
    destruct (CreateTrace_records H TS st buffer b e) as [Hext _].
    split.
    + eapply string_ext_trans; [exact Hs|apply Hext].
    + rewrite <- Hp. apply Hext.
  - rewrite CreateLog_eq. cbv zeta. cbn [snd].
    destruct (SetBaseTime_frame TS st (Impl.Snapshot buffer b e))
      as (_ & _ & Hs & Hp).
    destruct (CreateLog_loop H TS (Impl.Snapshot buffer b e) []
                (Impl.SetBaseTime TS st (Impl.Snapshot buffer b e)))
      as [Hext _].
    split.
    + rewrite <- Hs. apply Hext.
    + rewrite <- Hp. apply Hext.
  - split; [apply string_ext_refl|done].
Qed.

Lemma run_calls_ids_ext cs : ∀ st,
  string_ext (Impl.stream_id_map_ st)
             (Impl.stream_id_map_ (run_calls H TS st cs)) ∧
  AddressIdMap.pointer_id_map_ (Impl.packet_data_id_map_ st)
  ⊆ AddressIdMap.pointer_id_map_
      (Impl.packet_data_id_map_ (run_calls H TS st cs)).
Proof.
  induction cs as [|c cs IH]; intros st.
  { split; [apply string_ext_refl|done]. }
  unfold run_calls. cbn [fold_left].
  destruct (run_call_ids_ext st c) as [Hs Hp].
  destruct (IH (run_call H TS st c)) as [Hs' Hp'].
  split; [by eapply string_ext_trans|by etrans].
Qed.

End IdsSurvive.

(** X14. Identifiers survive every call.  Whatever calls of [CreateTrace],
    [CreateLog] and [Clear] are made on a builder, a stream pointer, a
    stream name and a packet address that had an identifier keep it: the
    builder looks the pointer or the address up to the same identifier
    afterwards, and the name is still bound to it.  In particular [Clear]
    resets the two indices only, never the interners. *)
Theorem ids_survive_calls
    (H : Heap) (TS : TimestampApi) (st : Impl.t) (cs : list Call) :
  let st' := run_calls H TS st cs in
  (∀ p v, p ≠ nullptr →
          StringIdMap.pointer_id_map_ (Impl.stream_id_map_ st) !! p = Some v →
          (Impl.stream_id H st' p).1 = v) ∧
  (∀ s v, StringIdMap.string_id_map_ (Impl.stream_id_map_ st) !! s = Some v →
          StringIdMap.string_id_map_ (Impl.stream_id_map_ st') !! s = Some v) ∧
  (∀ a v, AddressIdMap.pointer_id_map_ (Impl.packet_data_id_map_ st) !! a
          = Some v →
          (Impl.packet_data_id st' a).1 = v) ∧
  Impl.stream_id_map_ (Impl.Clear st) = Impl.stream_id_map_ st ∧
  Impl.packet_data_id_map_ (Impl.Clear st) = Impl.packet_data_id_map_ st.
Proof.
  intros st'.
  destruct (run_calls_ids_ext H TS cs st) as [[Hptr Hstr] Hpkt].
  fold st' in Hptr, Hstr, Hpkt.
  split_and!; [| | |done|done].
  - intros p v Hp Hv. rewrite stream_id_eq. cbn [fst].
    unfold StringIdMap.op_index. rewrite decide_False by done.
    by rewrite (lookup_weaken _ _ _ _ Hv Hptr).
  - intros s v Hv. by eapply lookup_weaken.
  - intros a v Hv. rewrite packet_data_id_eq. cbn [fst].
    by rewrite (address_op_index_stable _ _ _ (lookup_weaken _ _ _ _ Hv Hpkt)).
Qed.

(** The identifier of the stream "s1" across a trace, a [Clear] and a
    log. *)
Example ids_survive_calls_example :
  let H := example_heap in
  let TS := example_timestamps in
  let st1 := run_calls H TS (Impl.new H)
               [CallCreateTrace example_buffer InfinitePast InfiniteFuture] in
  let st2 := run_calls H TS st1
               [CallClear;
                CallCreateLog (example_buffer ++ [open_late])
                  InfinitePast InfiniteFuture] in
  (Impl.stream_id H st1 32).1 = 1 ∧ (Impl.stream_id H st2 32).1 = 1 ∧
  (Impl.packet_data_id st1 4096).1 = 1 ∧ (Impl.packet_data_id st2 4096).1 = 1.
Proof. vm_compute. done. Qed.

(** * The packet ids of a verbatim log *)

Section PacketIds.
Variable H : Heap.
Variable TS : TimestampApi.
Variable A : gset Z.
Hypothesis A_small : Z.of_nat (size A) ≤ INT32_MAX.

(** A lookup of an address of [A] keeps the address interner sound. *)
Lemma address_op_index_ok (m : AddressIdMap.t) (a : Z) :
  address_ok A m → a ∈ A → address_ok A (AddressIdMap.op_index m a).2.
Proof.
  intros [Hd Ha Hk] Hin.
  destruct (address_op_index_cases m a) as [(v & _ & ->)|(Hnone & Heq)];
    [done|].
  assert (Hsize : Z.of_nat (size (AddressIdMap.pointer_id_map_ m)) + 1
                  ≤ Z.of_nat (size A)).
  { assert (Hsub : dom (<[a := AddressIdMap.next_id m]>
                          (AddressIdMap.pointer_id_map_ m)) ⊆ A).
    { rewrite dom_insert. apply union_least; [|done].
      by apply singleton_subseteq_l. }
    apply subseteq_size in Hsub.
    rewrite size_dom, map_size_insert_None in Hsub by done. lia. }
  assert (Hroom : AddressIdMap.next_id m < INT32_MAX) by lia.
  destruct (address_op_index_dense m a Hd Hroom) as [Hd' _].
  rewrite Heq in Hd' |- *. cbn [snd] in *.
  constructor; [done| |]; cbn.
  - rewrite dom_insert. apply union_least; [|done].
    by apply singleton_subseteq_l.
  - rewrite map_size_insert_None by done.
    rewrite int32_small; [lia|].
    pose proof (ad_range _ Hd nullptr 0 (ad_zero _ Hd)).
    unfold INT32_MAX in *. lia.
Qed.

Lemma BuildEventLog_packet_map st ev r0 :
  Impl.packet_data_id_map_ (Impl.BuildEventLog H TS st ev r0).2
  = if is_stream_event ev && bool_decide (TraceEvent.stream_id ev ≠ nullptr)
    then (AddressIdMap.op_index (Impl.packet_data_id_map_ st)
            (TraceEvent.packet_data_id ev)).2
    else Impl.packet_data_id_map_ st.
Proof.
  unfold Impl.BuildEventLog, is_stream_event.
  destruct (table_at kProfilerStreamEvents (TraceEvent.event_type ev));
    [|done].
  destruct (decide (TraceEvent.stream_id ev ≠ nullptr)) as [Hp|Hp].
  - rewrite bool_decide_eq_true_2 by done.
    rewrite stream_id_eq. cbn [fst snd andb]. rewrite packet_data_id_eq.
    by destruct (TraceEvent.is_finish ev).
  - by rewrite bool_decide_eq_false_2.
Qed.

Lemma CreateLog_loop_address_ok snapshot : ∀ traces st,
  address_ok A (Impl.packet_data_id_map_ st) →
  Forall (fun ev => TraceEvent.packet_data_id ev ∈ A) snapshot →
  address_ok A
    (Impl.packet_data_id_map_
       (fold_left (Impl.CreateLog_step H TS) snapshot (traces, st)).2).
Proof.
  induction snapshot as [|ev l IH]; intros traces st Hok Hall; [done|].
  apply list.Forall_cons in Hall as [Hev Hall]. cbn [fold_left].
  rewrite CreateLog_step_eq. apply IH; [|done].
  rewrite BuildEventLog_packet_map.
  destruct (_ && _); [|done]. by apply address_op_index_ok.
Qed.

Lemma CreateLog_address_ok st buffer begin_time end_time :
  address_ok A (Impl.packet_data_id_map_ st) →
  Forall (fun ev => TraceEvent.packet_data_id ev ∈ A)
         (Impl.Snapshot buffer begin_time end_time) →
  address_ok A
    (Impl.packet_data_id_map_
       (Impl.CreateLog H TS st buffer begin_time end_time).2).
Proof.
  intros Hok Hall. rewrite CreateLog_eq. cbv zeta. cbn [snd].
  apply CreateLog_loop_address_ok; [|done].
  destruct (SetBaseTime_frame TS st
              (Impl.Snapshot buffer begin_time end_time)) as (_ & _ & _ & ->).
  done.
Qed.

Lemma address_interner_init_ok : nullptr ∈ A → address_ok A address_interner_init.
Proof.
  intros Hin. constructor.
  - apply address_interner_init_dense.
  - rewrite address_interner_init_eq. cbn [AddressIdMap.pointer_id_map_].
    rewrite dom_singleton. by apply singleton_subseteq_l.
  - rewrite address_interner_init_eq.
    cbn [AddressIdMap.pointer_id_map_ AddressIdMap.next_id].
    by rewrite map_size_singleton.
Qed.

End PacketIds.

(** X15. Packet ids identify packets.  Let the address interner of the
    builder be sound for a set [A] of fewer than 2^31 payload addresses (a
    new builder is) and let the events of the snapshot carry addresses of
    [A].  Then in the trace of [CreateLog] every transfer entry carries the
    identifier its event's payload address has in the builder; the
    identifier is 0 exactly for the null address; and two transfer entries
    of the trace carry the same [packet_id] exactly when their events carry
    the same payload address. *)
Theorem packet_ids_identify_packets
    (H : Heap) (TS : TimestampApi) (A : gset Z) (st : Impl.t)
    (buffer : list TraceEvent.t) (begin_time end_time : Time) :
  let snapshot := Impl.Snapshot buffer begin_time end_time in
  let res := Impl.CreateLog H TS st buffer begin_time end_time in
  Z.of_nat (size A) ≤ INT32_MAX →
  address_ok A (Impl.packet_data_id_map_ st) →
  Forall (fun ev => TraceEvent.packet_data_id ev ∈ A) snapshot →
  address_ok A (Impl.packet_data_id_map_ res.2) ∧
  Forall2
    (fun ev r =>
       ∀ t, t ∈ transfers r →
            ∃ pid, StreamTrace.packet_id t = Some pid ∧
                   (Impl.packet_data_id res.2 (TraceEvent.packet_data_id ev)).1
                   = pid ∧
                   (pid = 0 ↔ TraceEvent.packet_data_id ev = nullptr))
    snapshot (GraphTrace.calculator_trace res.1) ∧
  (∀ i j ev1 ev2 r1 r2 t1 t2,
     snapshot !! i = Some ev1 → snapshot !! j = Some ev2 →
     GraphTrace.calculator_trace res.1 !! i = Some r1 →
     GraphTrace.calculator_trace res.1 !! j = Some r2 →
     t1 ∈ transfers r1 → t2 ∈ transfers r2 →
     StreamTrace.packet_id t1 = StreamTrace.packet_id t2
     ↔ TraceEvent.packet_data_id ev1 = TraceEvent.packet_data_id ev2).
Proof.
  intros snapshot res Hsmall Hok Hall.
  pose proof (CreateLog_address_ok H TS A Hsmall st buffer begin_time end_time
                Hok Hall) as Hok'.
  fold res in Hok'. destruct Hok' as [Hd Ha Hk].
  assert (Hrec : Forall2
    (fun ev r =>
       ∀ t, t ∈ transfers r →
            StreamTrace.packet_id t
            = AddressIdMap.pointer_id_map_ (Impl.packet_data_id_map_ res.2)
                !! TraceEvent.packet_data_id ev ∧
            is_Some (StreamTrace.packet_id t))
    snapshot (GraphTrace.calculator_trace res.1)).
  { eapply Forall2_impl;
      [|exact (CreateLog_records H TS st buffer begin_time end_time)].
    intros ev r Hr t Ht. fold res in Hr. unfold transfers in Ht.
    pose proof (vr_transfer _ _ _ _ Hr) as Hx.
    destruct (is_stream_event ev
              && bool_decide (TraceEvent.stream_id ev ≠ nullptr)).
    - destruct Hx as (sid & pid & _ & Hpid & Hx). cbv zeta in Hx.
      rewrite Hpid.
      destruct (TraceEvent.is_finish ev); destruct Hx as [Hx1 Hx2];
        rewrite Hx1, Hx2 in Ht; cbn [app] in Ht;
        apply list_elem_of_singleton in Ht; subst t; cbn; eauto.
    - destruct Hx as [Hx1 Hx2]. rewrite Hx1, Hx2 in Ht.
      by apply elem_of_nil in Ht. }
  split; [by constructor|]. split.
  - eapply Forall2_impl; [|exact Hrec].
    intros ev r Hr t Ht. destruct (Hr t Ht) as [Heq [pid Hpid]].
    rewrite Hpid in Heq. symmetry in Heq.
    exists pid. split; [done|]. split.
    + rewrite packet_data_id_eq. cbn [fst].
      by rewrite (address_op_index_stable _ _ _ Heq).
    + split.
      * intros ->. by eapply (ad_inj _ Hd); [exact Heq|apply (ad_zero _ Hd)].
      * intros Hnull. rewrite Hnull, (ad_zero _ Hd) in Heq. congruence.
  - intros i j ev1 ev2 r1 r2 t1 t2 Hi Hj Hri Hrj Ht1 Ht2.
    destruct (Forall2_lookup_lr _ _ _ _ _ _ Hrec Hi Hri t1 Ht1) as [E1 [p1 P1]].
    destruct (Forall2_lookup_lr _ _ _ _ _ _ Hrec Hj Hrj t2 Ht2) as [E2 [p2 P2]].
    rewrite P1 in E1. rewrite P2 in E2. rewrite P1, P2. split.
    + intros [= ->].
      by apply (ad_inj _ Hd (TraceEvent.packet_data_id ev1)
                  (TraceEvent.packet_data_id ev2) p2).
    + intros Haddr. rewrite Haddr in E1. congruence.
Qed.

Lemma packet_ids_identify_packets_witness :
  let H := example_heap in
  let TS := example_timestamps in
  let res := Impl.CreateLog H TS (Impl.new H) example_buffer
               InfinitePast InfiniteFuture in
  Z.of_nat (size example_addresses) ≤ INT32_MAX ∧
  address_ok example_addresses (Impl.packet_data_id_map_ (Impl.new H)) ∧
  Forall (fun ev => TraceEvent.packet_data_id ev ∈ example_addresses)
         (Impl.Snapshot example_buffer InfinitePast InfiniteFuture) ∧
  address_ok example_addresses (Impl.packet_data_id_map_ res.2).
Proof.
  intros H TS res.
  assert (Hsmall : Z.of_nat (size example_addresses) ≤ INT32_MAX).
  { assert (Hsize : size example_addresses = 3%nat) by (vm_compute; reflexivity).
    rewrite Hsize. unfold INT32_MAX. lia. }
  assert (Hnull : nullptr ∈ example_addresses).
  { unfold example_addresses, nullptr.
    rewrite !elem_of_union, !elem_of_singleton. tauto. }
  assert (Hok : address_ok example_addresses
                  (Impl.packet_data_id_map_ (Impl.new H))).
  { rewrite new_packet_data_id_map. by apply address_interner_init_ok. }
  assert (Hall : Forall (fun ev => TraceEvent.packet_data_id ev ∈ example_addresses)
                   (Impl.Snapshot example_buffer InfinitePast InfiniteFuture)).
  { assert (E : Impl.Snapshot example_buffer InfinitePast InfiniteFuture
                = example_buffer) by (vm_compute; reflexivity).
    rewrite E. unfold example_buffer, example_addresses.
    repeat constructor; cbn;
      rewrite !elem_of_union, !elem_of_singleton; tauto. }
  destruct (packet_ids_identify_packets H TS example_addresses (Impl.new H)
              example_buffer InfinitePast InfiniteFuture Hsmall Hok Hall)
    as (Hok' & _).
  split; [exact Hsmall|]. split; [exact Hok|]. split; [exact Hall|exact Hok'].
Defined.

(** * An empty window *)

Section EmptyWindow.
(** A window that ends at or before its beginning holds no event. *)
Lemma Snapshot_empty_window buffer begin_time end_time :
  Time_lt begin_time end_time = false →
  Impl.Snapshot buffer begin_time end_time = [].
Proof.
  intros Hwin. induction buffer as [|ev l IH]; [done|].
  rewrite Snapshot_cons, IH. unfold Time_ge.
  destruct (Time_lt (TraceEvent.event_time ev) begin_time) eqn:Eb; [done|].
  destruct (Time_lt (TraceEvent.event_time ev) end_time) eqn:Ee; [|done].
  by rewrite (Time_le_lt_trans _ _ _ Eb Ee) in Hwin.
Qed.

End EmptyWindow.

(** X16. An empty window.  When the window ends at or before its beginning
    the snapshot is empty: [CreateTrace] and [CreateLog] return a trace
    without records, carrying the stream names known so far, and leave
    indices and interners as they are.  The call still calibrates the time
    base: on a builder whose base time holds the sentinel it sets the base
    time to 0 (and the base timestamp to 0 when that holds the sentinel),
    for good; on a calibrated builder it changes nothing at all. *)
Theorem empty_window
    (H : Heap) (TS : TimestampApi) (st : Impl.t)
    (buffer : list TraceEvent.t) (begin_time end_time : Time) :
  Time_lt begin_time end_time = false →
  let aggregated := Impl.CreateTrace H TS st buffer begin_time end_time in
  let verbatim := Impl.CreateLog H TS st buffer begin_time end_time in
  aggregated = verbatim ∧
  GraphTrace.calculator_trace verbatim.1 = [] ∧
  GraphTrace.stream_name verbatim.1 = GetIdNames (Impl.stream_id_map_ st) ∧
  Impl.task_events_ verbatim.2 = Impl.task_events_ st ∧
  Impl.hop_events_ verbatim.2 = Impl.hop_events_ st ∧
  Impl.stream_id_map_ verbatim.2 = Impl.stream_id_map_ st ∧
  Impl.packet_data_id_map_ verbatim.2 = Impl.packet_data_id_map_ st ∧
  (Impl.base_time_ st = INT64_MAX →
   GraphTrace.base_time verbatim.1 = Some 0 ∧
   Impl.base_time_ verbatim.2 = 0 ∧
   Impl.base_ts_ verbatim.2
   = if decide (Impl.base_ts_ st = INT64_MAX) then 0 else Impl.base_ts_ st) ∧
  (Impl.base_time_ st ≠ INT64_MAX → verbatim.2 = st).
Proof.
  intros Hwin aggregated verbatim.
  unfold aggregated, verbatim.
  rewrite CreateTrace_eq, CreateLog_eq, indexed_state_eq. cbv zeta.
  rewrite (Snapshot_empty_window buffer begin_time end_time Hwin).
  cbn [fold_left fst snd Impl.tl_state Impl.tl_traces
       GraphTrace.calculator_trace GraphTrace.stream_name GraphTrace.base_time].
  destruct (SetBaseTime_frame TS st []) as (Ht & Hh & Hs & Hp).
  rewrite Hs. split_and!; try done.
  - intros Hbt. unfold Impl.SetBaseTime. cbn [fold_left].
    destruct (decide (Impl.base_time_ st = INT64_MAX)); [|done].
    cbn [Impl.base_ts_ Impl.set_base_time_].
    by destruct (decide (Impl.base_ts_ st = INT64_MAX)).
  - intros Hbt. by apply SetBaseTime_later.
Qed.

Lemma empty_window_witness :
  let H := example_heap in
  let TS := example_timestamps in
  let verbatim := Impl.CreateLog H TS (Impl.new H) example_buffer
                    (UnixMicros 200) (UnixMicros 100) in
  Time_lt (UnixMicros 200) (UnixMicros 100) = false ∧
  GraphTrace.calculator_trace verbatim.1 = [] ∧
  (Impl.base_time_ (Impl.new H) = INT64_MAX →
   GraphTrace.base_time verbatim.1 = Some 0 ∧
   Impl.base_time_ verbatim.2 = 0 ∧
   Impl.base_ts_ verbatim.2
   = if decide (Impl.base_ts_ (Impl.new H) = INT64_MAX) then 0
     else Impl.base_ts_ (Impl.new H)).
Proof.
  intros H TS verbatim.
  assert (Hwin : Time_lt (UnixMicros 200) (UnixMicros 100) = false)
    by reflexivity.
  destruct (empty_window H TS (Impl.new H) example_buffer
              (UnixMicros 200) (UnixMicros 100) Hwin)
    as (_ & Hrec & _ & _ & _ & _ & _ & Hbase & _).
  split; [exact Hwin|]. split; [exact Hrec|exact Hbase].
Defined.

(** * The number of transfer entries *)

Section TransferCount.
Variable H : Heap.
Variable TS : TimestampApi.

Lemma stream_events_of_cons K ev l :
  stream_events_of K (ev :: l)
  = (if is_stream_event ev && bool_decide (Impl.task_id_of ev ∈ K)
     then [ev] else []) ++ stream_events_of K l.
Proof.
  unfold stream_events_of. rewrite filter_cons.
  destruct (decide (is_stream_event ev = true ∧ Impl.task_id_of ev ∈ K))
    as [[-> Hin]|Hn].
  - by rewrite bool_decide_eq_true_2.
  - destruct (is_stream_event ev); [|done].
    rewrite bool_decide_eq_false_2; [done|]. intros ?. by apply Hn.
Qed.

(** The events of two disjoint sets of keys. *)
Lemma stream_events_of_union K1 K2 l :
  K1 ## K2 →
  length (stream_events_of (K1 ∪ K2) l)
  = (length (stream_events_of K1 l) + length (stream_events_of K2 l))%nat.
Proof.
  intros Hdisj. induction l as [|ev l IH]; [done|].
  rewrite !stream_events_of_cons, !length_app, IH.
  destruct (is_stream_event ev); cbn [andb length]; [|lia].
  destruct (decide (Impl.task_id_of ev ∈ K1)) as [H1|H1],
    (decide (Impl.task_id_of ev ∈ K2)) as [H2|H2].
  - by destruct (Hdisj _ H1 H2).
  - rewrite (bool_decide_eq_true_2 (_ ∈ K1 ∪ K2))
      by (apply elem_of_union; by left).
    rewrite (bool_decide_eq_true_2 (_ ∈ K1)), (bool_decide_eq_false_2 (_ ∈ K2))
      by done.
    cbn [length]. lia.
  - rewrite (bool_decide_eq_true_2 (_ ∈ K1 ∪ K2))
      by (apply elem_of_union; by right).
    rewrite (bool_decide_eq_false_2 (_ ∈ K1)), (bool_decide_eq_true_2 (_ ∈ K2))
      by done.
    cbn [length]. lia.
  - rewrite (bool_decide_eq_false_2 (_ ∈ K1 ∪ K2))
      by (intros [?|?]%elem_of_union; done).
    rewrite (bool_decide_eq_false_2 (_ ∈ K1)), (bool_decide_eq_false_2 (_ ∈ K2))
      by done.
    cbn [length]. lia.
Qed.

(** The events of one key. *)
Lemma stream_events_of_singleton k l :
  length (stream_events_of {[k]} l)
  = length (filter (fun ev => is_stream_event ev = true)
              (filter (has_key k) l)).
Proof.
  induction l as [|ev l IH]; [done|].
  rewrite stream_events_of_cons, length_app, IH, (filter_cons (has_key k)).
  destruct (is_stream_event ev) eqn:Hs; cbn [andb].
  - pose proof (stream_event_is_packet_event ev Hs) as Hp.
    destruct (decide (Impl.task_id_of ev = k)) as [Hk|Hk].
    + rewrite bool_decide_eq_true_2 by (by apply elem_of_singleton).
      rewrite decide_True by done. rewrite filter_cons, decide_True by done.
      done.
    + rewrite bool_decide_eq_false_2
        by (intros ?%elem_of_singleton; done).
      rewrite decide_False by (intros [_ ?]; done). done.
  - destruct (decide (has_key k ev)); [|done].
    rewrite filter_cons, decide_False by congruence. done.
Qed.

(** Every event of a stream-hop kind has its key among the keys of the
    list. *)
Lemma stream_events_of_keys l :
  length (stream_events_of (invocation_keys l) l)
  = length (filter (fun ev => is_stream_event ev = true) l).
Proof.
  assert (Hgen : ∀ K l', (∀ ev, ev ∈ l' → is_stream_event ev = true →
                                 Impl.task_id_of ev ∈ K) →
                 length (stream_events_of K l')
                 = length (filter (fun ev => is_stream_event ev = true) l')).
  { intros K l' Hin. induction l' as [|ev l' IH]; [done|].
    rewrite stream_events_of_cons, filter_cons, length_app, IH.
    - destruct (decide (is_stream_event ev = true)) as [Hs|Hs].
      + rewrite Hs. cbn [andb].
        by rewrite bool_decide_eq_true_2
          by (apply Hin; [apply list_elem_of_here|done]).
      + by apply not_true_is_false in Hs as ->.
    - intros e He. apply Hin. by apply list_elem_of_further. }
  apply Hgen. intros ev Hin Hs. apply elem_of_invocation_keys.
  apply list.Exists_exists. exists ev. split; [done|].
  split; [by apply stream_event_is_packet_event|done].
Qed.

(** The number of transfer entries the record of a planned event carries,
    when the invocation index held nothing before the call. *)
Local Abbreviation planned_entries snapshot :=
  (fun ev : TraceEvent.t =>
     if is_packet_event ev
     then length (filter (fun e => is_stream_event e = true)
                    (filter (has_key (Impl.task_id_of ev)) snapshot))
     else 0%nat).

Lemma planned_entries_sum snapshot rest : ∀ earlier,
  sum_list_with (planned_entries snapshot) (emission_plan_from earlier rest)
  = length (stream_events_of
              (invocation_keys rest ∖ invocation_keys earlier) snapshot).
Proof.
  induction rest as [|ev rest IH]; intros earlier.
  { cbn [emission_plan_from sum_list_with].
    rewrite invocation_keys_nil, empty_difference_L.
    unfold stream_events_of. clear. induction snapshot as [|e l IHl]; [done|].
    rewrite filter_cons, decide_False; [done|].
    intros [_ Hin]. by apply elem_of_empty in Hin. }
  cbn [emission_plan_from]. rewrite sum_list_with_app, IH.
  rewrite invocation_keys_app, !invocation_keys_cons, invocation_keys_nil.
  destruct (is_packet_event ev) eqn:Hp; rewrite ?union_empty_r_L.
  - set (k := Impl.task_id_of ev).
    destruct (decide (emitted_here earlier ev)) as [He|He].
    + destruct He as [He|He]; [congruence|].
      assert (Hk : k ∉ invocation_keys earlier).
      { rewrite elem_of_invocation_keys, <- List.Forall_Exists_neg. done. }
      cbn [sum_list_with]. rewrite Hp. fold k.
      rewrite <- stream_events_of_singleton.
      replace (({[k]} ∪ invocation_keys rest) ∖ invocation_keys earlier)
        with ({[k]} ∪ invocation_keys rest ∖ (invocation_keys earlier ∪ {[k]})).
      * rewrite stream_events_of_union; [lia|].
        apply disjoint_singleton_l.
        rewrite elem_of_difference, elem_of_union, elem_of_singleton.
        intuition.
      * apply set_eq. intros x.
        rewrite !elem_of_union, !elem_of_difference, !elem_of_union,
          elem_of_singleton.
        destruct (decide (x = k)) as [->|Hne]; intuition.
    + assert (Hk : k ∈ invocation_keys earlier).
      { rewrite elem_of_invocation_keys.
        destruct (decide (Exists (has_key k) earlier)) as [?|Hn]; [done|].
        exfalso. apply He. right. by apply List.Forall_Exists_neg. }
      cbn [sum_list_with].
      replace (({[k]} ∪ invocation_keys rest) ∖ invocation_keys earlier)
        with (invocation_keys rest ∖ (invocation_keys earlier ∪ {[k]}));
        [lia|].
      apply set_eq. intros x.
      rewrite !elem_of_difference, !elem_of_union, elem_of_singleton.
      destruct (decide (x = k)) as [->|Hne]; intuition.
  - destruct (decide (emitted_here earlier ev)) as [_|He];
      [|exfalso; apply He; by left].
    cbn [sum_list_with]. rewrite Hp. lia.
Qed.

(** The entries of one record. *)
Lemma BuildCalculatorTrace_entry_count st l :
  length (transfers (Impl.BuildCalculatorTrace H st l CalculatorTrace.empty).1)
  = length (filter (fun ev => is_stream_event ev = true) l).
Proof.
  destruct (BuildCalculatorTrace_entries H st l) as [Hins Houts].
  unfold transfers. rewrite length_app.
  rewrite <- (list.Forall2_length _ _ _ Hins), <- (list.Forall2_length _ _ _ Houts).
  apply transfer_events_count.
Qed.

Lemma verbatim_record_entry_count st ev r :
  verbatim_record TS st ev r →
  length (transfers r)
  = if is_stream_event ev && bool_decide (TraceEvent.stream_id ev ≠ nullptr)
    then 1%nat else 0%nat.
Proof.
  intros Hr. pose proof (vr_transfer _ _ _ _ Hr) as Hx. unfold transfers.
  destruct (is_stream_event ev
            && bool_decide (TraceEvent.stream_id ev ≠ nullptr)).
  - destruct Hx as (sid & pid & _ & _ & Hx). cbv zeta in Hx.
    by destruct (TraceEvent.is_finish ev); destruct Hx as [-> ->].
  - by destruct Hx as [-> ->].
Qed.

Lemma total_transfers_Forall2 {A} (f : A → nat) (l : list A) rs :
  Forall2 (fun x r => length (transfers r) = f x) l rs →
  total_transfers rs = sum_list_with f l.
Proof.
  unfold total_transfers. induction 1 as [|x r l rs Hx _ IH]; [done|].
  cbn [sum_list_with]. by rewrite Hx, IH.
Qed.

Lemma verbatim_entries_sum (l : list TraceEvent.t) :
  sum_list_with
    (fun ev => if is_stream_event ev
                  && bool_decide (TraceEvent.stream_id ev ≠ nullptr)
               then 1%nat else 0%nat) l
  = length (filter (fun ev => is_stream_event ev = true ∧
                              TraceEvent.stream_id ev ≠ nullptr) l).
Proof.
  induction l as [|ev l IH]; [done|].
  cbn [sum_list_with]. rewrite IH, filter_cons.
  destruct (decide (is_stream_event ev = true ∧
                    TraceEvent.stream_id ev ≠ nullptr)) as [[-> Hp]|Hn].
  - by rewrite bool_decide_eq_true_2.
  - destruct (is_stream_event ev); [|done].
    rewrite bool_decide_eq_false_2; [done|]. intros ?. by apply Hn.
Qed.

End TransferCount.

(** X17. No transfer entry is lost or duplicated.  A verbatim log carries,
    over all its records, exactly one transfer entry per event of the
    snapshot of a kind with stream-hop sub-records and a non-null stream
    pointer.  An aggregated trace built on a builder whose invocation index
    is empty (a new or a cleared one) carries exactly one transfer entry
    per event of the snapshot of such a kind, whether its stream pointer is
    null or not: grouping the events by invocation neither drops nor
    repeats an entry. *)
Theorem transfer_entries_conserved
    (H : Heap) (TS : TimestampApi) (st : Impl.t)
    (buffer : list TraceEvent.t) (begin_time end_time : Time) :
  let snapshot := Impl.Snapshot buffer begin_time end_time in
  let aggregated := Impl.CreateTrace H TS st buffer begin_time end_time in
  let verbatim := Impl.CreateLog H TS st buffer begin_time end_time in
  Impl.task_events_ st = ∅ →
  total_transfers (GraphTrace.calculator_trace aggregated.1)
  = length (filter (fun ev => is_stream_event ev = true) snapshot) ∧
  total_transfers (GraphTrace.calculator_trace verbatim.1)
  = length (filter (fun ev => is_stream_event ev = true ∧
                              TraceEvent.stream_id ev ≠ nullptr) snapshot).
Proof.
  intros snapshot aggregated verbatim Hempty. split.
  - destruct (CreateTrace_records H TS st buffer begin_time end_time)
      as [_ Hrec]. fold snapshot aggregated in Hrec.
    rewrite (total_transfers_Forall2
               (fun ev =>
                  if is_packet_event ev
                  then length (filter (fun e => is_stream_event e = true)
                                 (filter (has_key (Impl.task_id_of ev)) snapshot))
                  else 0%nat)
               (emission_plan snapshot)).
    + unfold emission_plan. rewrite planned_entries_sum.
      rewrite invocation_keys_nil, difference_empty_L.
      apply stream_events_of_keys.
    + eapply Forall2_impl; [|exact Hrec].
      intros ev r (sti & _ & ->).
      destruct (is_packet_event ev) eqn:Hp.
      * rewrite BuildCalculatorTrace_entry_count.
        rewrite indexed_state_task_events, Hempty, lookup_total_empty.
        done.
      * rewrite (verbatim_record_entry_count TS _ ev _
                   (BuildEventLog_record H TS sti ev)).
        by rewrite (not_packet_not_stream ev Hp).
  - rewrite (total_transfers_Forall2
               (fun ev =>
                  if is_stream_event ev
                     && bool_decide (TraceEvent.stream_id ev ≠ nullptr)
                  then 1%nat else 0%nat) snapshot).
    + apply verbatim_entries_sum.
    + eapply Forall2_impl;
        [|exact (CreateLog_records H TS st buffer begin_time end_time)].
      intros ev r Hr. by eapply verbatim_record_entry_count.
Qed.

Lemma transfer_entries_conserved_witness :
  let H := example_heap in
  let TS := example_timestamps in
  let snapshot := Impl.Snapshot example_buffer InfinitePast InfiniteFuture in
  Impl.task_events_ (Impl.new H) = ∅ ∧
  total_transfers
    (GraphTrace.calculator_trace
       (Impl.CreateTrace H TS (Impl.new H) example_buffer
          InfinitePast InfiniteFuture).1)
  = length (filter (fun ev => is_stream_event ev = true) snapshot) ∧
  total_transfers
    (GraphTrace.calculator_trace
       (Impl.CreateLog H TS (Impl.new H) example_buffer
          InfinitePast InfiniteFuture).1)
  = length (filter (fun ev => is_stream_event ev = true ∧
                              TraceEvent.stream_id ev ≠ nullptr) snapshot).
Proof.
  intros H TS snapshot.
  assert (Hempty : Impl.task_events_ (Impl.new H) = ∅) by reflexivity.
  split; [exact Hempty|].
  exact (transfer_entries_conserved H TS (Impl.new H) example_buffer
           InfinitePast InfiniteFuture Hempty).
Defined.

(** The example buffer: four events of stream-hop kinds, one of them with
    a null stream pointer. *)
Example transfer_entries_example :
  let H := example_heap in
  let TS := example_timestamps in
  total_transfers
    (GraphTrace.calculator_trace
       (Impl.CreateTrace H TS (Impl.new H) example_buffer
          InfinitePast InfiniteFuture).1) = 4%nat ∧
  total_transfers
    (GraphTrace.calculator_trace
       (Impl.CreateLog H TS (Impl.new H) example_buffer
          InfinitePast InfiniteFuture).1) = 3%nat.
Proof. vm_compute. done. Qed.

(** * Taking an aggregated trace again *)

Section Repeatable.
Variable H : Heap.
Variable TS : TimestampApi.

(** *** Lookups on interners that already hold the answer *)

Lemma op_index_closed (ma mb : StringIdMap.t) (p : Z) :
  string_ext (StringIdMap.op_index H ma p).2 mb →
  StringIdMap.op_index H mb p = ((StringIdMap.op_index H ma p).1, mb).
Proof.
  intros [Hsub _]. destruct (decide (p = nullptr)) as [->|Hp].
  { by rewrite !op_index_null. }
  pose proof (op_index_pointer_result H ma p Hp) as Hres.
  unfold StringIdMap.op_index at 1. rewrite decide_False by done.
  by rewrite (lookup_weaken _ _ _ _ Hres Hsub).
Qed.

Lemma address_op_index_closed (ma mb : AddressIdMap.t) (a : Z) :
  AddressIdMap.pointer_id_map_ (AddressIdMap.op_index ma a).2
  ⊆ AddressIdMap.pointer_id_map_ mb →
  AddressIdMap.op_index mb a = ((AddressIdMap.op_index ma a).1, mb).
Proof.
  intros Hsub. apply address_op_index_stable.
  eapply lookup_weaken; [apply address_op_index_result|done].
Qed.

Lemma set_stream_id_map_same st :
  Impl.set_stream_id_map_ (Impl.stream_id_map_ st) st = st.
Proof. by destruct st. Qed.

Lemma set_packet_data_id_map_same st :
  Impl.set_packet_data_id_map_ (Impl.packet_data_id_map_ st) st = st.
Proof. by destruct st. Qed.

(** *** The relations *)

Lemma answers_as_build_ext a b a' b' :
  answers_as a b → build_ext H a a' → build_ext H b b' → answers_as a' b'.
Proof.
  intros [Ht Hh Hbs Hbt] Ha Hb. constructor.
  - intros k. by rewrite (be_task _ _ _ Hb), (be_task _ _ _ Ha).
  - intros k. by rewrite (hop_lookup_build_ext H _ _ k Hb),
                (hop_lookup_build_ext H _ _ k Ha).
  - by rewrite (be_base_ts _ _ _ Hb), (be_base_ts _ _ _ Ha).
  - by rewrite (be_base_time _ _ _ Hb), (be_base_time _ _ _ Ha).
Qed.

Lemma knows_build_ext b a a' :
  build_ext H a a' → knows b a' → knows b a.
Proof.
  intros Hext [Hs Hp]. split.
  - eapply string_ext_trans; [apply Hext|done].
  - etrans; [apply Hext|done].
Qed.

Lemma knows_same b b' a : same_interners b b' → knows b a → knows b' a.
Proof. intros [Hs Hp] Hk. unfold knows. by rewrite Hs, Hp. Qed.

Lemma same_interners_refl b : same_interners b b.
Proof. done. Qed.

Lemma same_interners_trans b b' b'' :
  same_interners b b' → same_interners b' b'' → same_interners b b''.
Proof. intros [H1 H2] [H3 H4]. split; congruence. Qed.

(** *** BuildStreamTrace *)

Lemma FindOutputEvent_maps st ev :
  Impl.stream_id_map_ (Impl.FindOutputEvent H st ev).2
  = (StringIdMap.op_index H (Impl.stream_id_map_ st)
       (TraceEvent.stream_id ev)).2 ∧
  Impl.packet_data_id_map_ (Impl.FindOutputEvent H st ev).2
  = Impl.packet_data_id_map_ st.
Proof.
  unfold Impl.FindOutputEvent. rewrite hop_id_of_eq.
  unfold Impl.hop_events_at. cbn [Impl.hop_events_ Impl.set_stream_id_map_].
  by destruct (Impl.hop_events_ st !! _).
Qed.

Lemma BuildStreamTrace_maps st ev r0 :
  Impl.stream_id_map_ (Impl.BuildStreamTrace H st ev r0).2
  = (StringIdMap.op_index H (Impl.stream_id_map_ st)
       (TraceEvent.stream_id ev)).2 ∧
  Impl.packet_data_id_map_ (Impl.BuildStreamTrace H st ev r0).2
  = if TraceEvent.is_finish ev then Impl.packet_data_id_map_ st
    else (AddressIdMap.op_index (Impl.packet_data_id_map_ st)
            (TraceEvent.packet_data_id ev)).2.
Proof.
  unfold Impl.BuildStreamTrace. rewrite stream_id_eq.
  destruct (TraceEvent.is_finish ev); [done|].
  cbn [fst snd]. rewrite packet_data_id_eq. cbn [fst snd].
  match goal with
  | |- context [Impl.FindOutputEvent H ?s ev] =>
      destruct (FindOutputEvent_maps s ev) as [Hs Hp];
      destruct (Impl.FindOutputEvent H s ev) as [o st3]
  end.
  cbn [snd] in Hs, Hp.
  cbn [Impl.stream_id_map_ Impl.packet_data_id_map_
       Impl.set_packet_data_id_map_ Impl.set_stream_id_map_] in Hs, Hp.
  rewrite op_index_idem in Hs.
  by destruct o.
Qed.

Lemma BuildStreamTrace_sim a b ev :
  answers_as a b →
  knows b (Impl.BuildStreamTrace H a ev StreamTrace.empty).2 →
  (Impl.BuildStreamTrace H b ev StreamTrace.empty).1
  = (Impl.BuildStreamTrace H a ev StreamTrace.empty).1 ∧
  same_interners b (Impl.BuildStreamTrace H b ev StreamTrace.empty).2.
Proof.
  intros [Ht Hh Hbs Hbt] [Hks Hkp].
  destruct (BuildStreamTrace_maps a ev StreamTrace.empty) as [Eas Eap].
  destruct (BuildStreamTrace_maps b ev StreamTrace.empty) as [Ebs Ebp].
  rewrite Eas in Hks. rewrite Eap in Hkp.
  pose proof (op_index_closed _ _ _ Hks) as Hop.
  unfold same_interners. rewrite Ebs, Ebp, Hop. cbn [snd].
  destruct (TraceEvent.is_finish ev) eqn:Hf.
  - split; [|done].
    rewrite !BuildStreamTrace_finish_side by done. rewrite Hop. cbn [fst].
    by rewrite (LogTimestamp_ext a b).
  - pose proof (address_op_index_closed _ _ _ Hkp) as Hap.
    rewrite Hap. cbn [snd]. split; [|done].
    rewrite !BuildStreamTrace_start_side by done.
    rewrite !hop_id_of_eq, Hop, Hap. cbn [fst].
    rewrite !(LogTime_ext a b), !(LogTimestamp_ext a b) by done.
    specialize (Hh (TaskId.mk
                      (StringIdMap.op_index H (Impl.stream_id_map_ a)
                         (TraceEvent.stream_id ev)).1
                      (TraceEvent.packet_ts ev)
                      (EventType_to_int (TraceEvent.event_type ev)))).
    unfold hop_lookup in Hh. rewrite Hh.
    match goal with
    | |- context [match ?d with Some _ => _ | None => _ end] =>
        destruct d as [o|]
    end; [|done].
    by rewrite (LogTime_ext a b).
Qed.

(** *** BuildCalculatorTrace *)

Lemma BuildCalculatorTrace_step_sim s f r a b ev :
  answers_as a b →
  knows b (Impl.bl_state
             (Impl.BuildCalculatorTrace_step H (Impl.mkBuildLoop s f r a) ev)) →
  ∃ s' f' r' a' b',
    Impl.BuildCalculatorTrace_step H (Impl.mkBuildLoop s f r a) ev
    = Impl.mkBuildLoop s' f' r' a' ∧
    Impl.BuildCalculatorTrace_step H (Impl.mkBuildLoop s f r b) ev
    = Impl.mkBuildLoop s' f' r' b' ∧
    answers_as a' b' ∧ same_interners b b'.
Proof.
  intros Haa Hk.
  pose proof (BuildCalculatorTrace_step_build_ext H
                (Impl.mkBuildLoop s f r a) ev) as Hea.
  pose proof (BuildCalculatorTrace_step_build_ext H
                (Impl.mkBuildLoop s f r b) ev) as Heb.
  rewrite BuildCalculatorTrace_step_eq in Hk, Hea.
  rewrite BuildCalculatorTrace_step_eq in Heb.
  rewrite !BuildCalculatorTrace_step_eq. cbv zeta in *.
  rewrite (LogTimestamp_ext a b) by apply Haa.
  destruct (is_stream_event ev).
  - cbn [Impl.bl_state] in Hk, Hea, Heb.
    destruct (BuildStreamTrace_sim a b ev Haa Hk) as [-> Hsame].
    do 5 eexists. split; [reflexivity|]. split; [reflexivity|].
    split; [|done]. by eapply answers_as_build_ext.
  - do 5 eexists. split; [reflexivity|]. split; [reflexivity|]. done.
Qed.

Lemma BuildCalculatorTrace_loop_sim task_events : ∀ s f r a b,
  answers_as a b →
  knows b (Impl.bl_state
             (fold_left (Impl.BuildCalculatorTrace_step H) task_events
                (Impl.mkBuildLoop s f r a))) →
  ∃ s' f' r' a' b',
    fold_left (Impl.BuildCalculatorTrace_step H) task_events
      (Impl.mkBuildLoop s f r a) = Impl.mkBuildLoop s' f' r' a' ∧
    fold_left (Impl.BuildCalculatorTrace_step H) task_events
      (Impl.mkBuildLoop s f r b) = Impl.mkBuildLoop s' f' r' b' ∧
    answers_as a' b' ∧ same_interners b b'.
Proof.
  induction task_events as [|ev task_events IH]; intros s f r a b Haa Hk.
  { do 5 eexists. split; [reflexivity|]. split; [reflexivity|]. done. }
  cbn [fold_left] in *.
  destruct (BuildCalculatorTrace_step_sim s f r a b ev Haa)
    as (s1 & f1 & r1 & a1 & b1 & Ea & Eb & Haa1 & Hs1).
  { eapply knows_build_ext; [|exact Hk].
    apply BuildCalculatorTrace_loop_build_ext. }
  rewrite Ea in Hk. rewrite Ea, Eb.
  destruct (IH s1 f1 r1 a1 b1 Haa1) as (s2 & f2 & r2 & a2 & b2 & -> & -> & ? & ?).
  { by eapply knows_same. }
  do 5 eexists. split; [reflexivity|]. split; [reflexivity|].
  split; [done|]. by eapply same_interners_trans.
Qed.

Lemma BuildCalculatorTrace_sim a b task_events :
  answers_as a b →
  knows b (Impl.BuildCalculatorTrace H a task_events CalculatorTrace.empty).2 →
  (Impl.BuildCalculatorTrace H b task_events CalculatorTrace.empty).1
  = (Impl.BuildCalculatorTrace H a task_events CalculatorTrace.empty).1 ∧
  answers_as (Impl.BuildCalculatorTrace H a task_events CalculatorTrace.empty).2
    (Impl.BuildCalculatorTrace H b task_events CalculatorTrace.empty).2 ∧
  same_interners b
    (Impl.BuildCalculatorTrace H b task_events CalculatorTrace.empty).2.
Proof.
  intros Haa Hk. rewrite BuildCalculatorTrace_eq in Hk.
  rewrite !BuildCalculatorTrace_eq. cbv zeta in *. cbn [fst snd] in *.
  destruct (BuildCalculatorTrace_loop_sim task_events InfiniteFuture
              InfiniteFuture CalculatorTrace.empty a b Haa Hk)
    as (s' & f' & r' & a' & b' & -> & -> & Haa' & Hs').
  cbn [Impl.bl_state Impl.bl_start_time Impl.bl_finish_time Impl.bl_result].
  by rewrite !(LogTime_ext a' b') by apply Haa'.
Qed.

(** *** The assembly loop of [CreateTrace] *)

Lemma BuildEventLog_plain_sim a b ev r0 :
  is_stream_event ev = false →
  Impl.base_ts_ b = Impl.base_ts_ a → Impl.base_time_ b = Impl.base_time_ a →
  (Impl.BuildEventLog H TS b ev r0).1 = (Impl.BuildEventLog H TS a ev r0).1 ∧
  (Impl.BuildEventLog H TS a ev r0).2 = a ∧
  (Impl.BuildEventLog H TS b ev r0).2 = b.
Proof.
  unfold is_stream_event. intros Hs Hbs Hbt. unfold Impl.BuildEventLog.
  rewrite Hs. cbn [fst snd].
  by rewrite !(LogTime_ext a b), !(LogTimestamp_ext a b).
Qed.

Lemma task_events_at_same_interners st k :
  same_interners st (Impl.task_events_at st k).2.
Proof. unfold Impl.task_events_at. by destruct (Impl.task_events_ st !! k). Qed.

Lemma CreateTrace_step_sim ids traces a b ev :
  answers_as a b →
  knows b (Impl.tl_state
             (Impl.CreateTrace_step H TS (Impl.mkTraceLoop ids traces a) ev)) →
  ∃ ids' traces' a' b',
    Impl.CreateTrace_step H TS (Impl.mkTraceLoop ids traces a) ev
    = Impl.mkTraceLoop ids' traces' a' ∧
    Impl.CreateTrace_step H TS (Impl.mkTraceLoop ids traces b) ev
    = Impl.mkTraceLoop ids' traces' b' ∧
    answers_as a' b' ∧ same_interners b b'.
Proof.
  intros Haa Hk.
  destruct (CreateTrace_step_cases H TS (Impl.mkTraceLoop ids traces a) ev)
    as [[Hpa Ea]|[(Hpa & Hina & Ea)|(Hpa & Hina & Ea)]];
    destruct (CreateTrace_step_cases H TS (Impl.mkTraceLoop ids traces b) ev)
      as [[Hpb Eb]|[(Hpb & Hinb & Eb)|(Hpb & Hinb & Eb)]];
    cbn [Impl.tl_state Impl.tl_traces Impl.tl_task_ids] in *;
    try congruence; try done.
  - destruct (BuildEventLog_plain_sim a b ev CalculatorTrace.empty)
      as (E1 & E2 & E3);
      [by apply not_packet_not_stream|apply Haa..|].
    rewrite Ea, Eb, E1, E2, E3. by do 4 eexists.
  - rewrite Ea, Eb. by do 4 eexists.
  - rewrite Ea in Hk. cbn [Impl.tl_state] in Hk.
    rewrite Ea, Eb. rewrite (aa_task _ _ Haa).
    set (k := Impl.task_id_of ev) in *.
    destruct (BuildCalculatorTrace_sim (Impl.task_events_at a k).2
                (Impl.task_events_at b k).2 (Impl.task_events_ a !!! k))
      as (E1 & Haa' & Hs').
    { eapply answers_as_build_ext; [exact Haa|apply task_events_at_build_ext..]. }
    { eapply knows_same; [apply task_events_at_same_interners|done]. }
    rewrite E1. do 4 eexists. split; [reflexivity|]. split; [reflexivity|].
    split; [done|].
    eapply same_interners_trans; [apply task_events_at_same_interners|done].
Qed.

Lemma CreateTrace_loop_sim snapshot : ∀ ids traces a b,
  answers_as a b →
  knows b (Impl.tl_state
             (fold_left (Impl.CreateTrace_step H TS) snapshot
                (Impl.mkTraceLoop ids traces a))) →
  ∃ ids' traces' a' b',
    fold_left (Impl.CreateTrace_step H TS) snapshot
      (Impl.mkTraceLoop ids traces a) = Impl.mkTraceLoop ids' traces' a' ∧
    fold_left (Impl.CreateTrace_step H TS) snapshot
      (Impl.mkTraceLoop ids traces b) = Impl.mkTraceLoop ids' traces' b' ∧
    answers_as a' b' ∧ same_interners b b'.
Proof.
  induction snapshot as [|ev snapshot IH]; intros ids traces a b Haa Hk.
  { do 4 eexists. split; [reflexivity|]. split; [reflexivity|]. done. }
  cbn [fold_left] in *.
  destruct (CreateTrace_step_sim ids traces a b ev Haa)
    as (ids1 & traces1 & a1 & b1 & Ea & Eb & Haa1 & Hs1).
  { eapply knows_build_ext; [|exact Hk]. apply CreateTrace_loop_build_ext. }
  rewrite Ea in Hk. rewrite Ea, Eb.
  destruct (IH ids1 traces1 a1 b1 Haa1)
    as (ids2 & traces2 & a2 & b2 & -> & -> & ? & ?).
  { by eapply knows_same. }
  do 4 eexists. split; [reflexivity|]. split; [reflexivity|].
  split; [done|]. by eapply same_interners_trans.
Qed.

(** *** The indexing loop *)

Lemma index_event_sim a b ev :
  answers_as a b →
  string_ext (Impl.stream_id_map_ (Impl.index_event H a ev))
    (Impl.stream_id_map_ b) →
  answers_as (Impl.index_event H a ev) (Impl.index_event H b ev) ∧
  same_interners b (Impl.index_event H b ev).
Proof.
  intros [Ht Hh Hbs Hbt] Hk. rewrite index_event_eq in Hk.
  rewrite !index_event_eq.
  destruct (negb (is_packet_event ev)); [by split|].
  cbn [Impl.stream_id_map_] in Hk.
  pose proof (op_index_closed _ _ _ Hk) as Hop.
  rewrite !hop_id_of_eq, Hop. cbn [fst snd].
  split; [|done]. constructor; cbn; [| |done..].
  - intros k. destruct (decide (Impl.task_id_of ev = k)) as [<-|Hne].
    + by rewrite !lookup_total_insert_eq, Ht.
    + by rewrite !lookup_total_insert_ne.
  - intros k. unfold hop_lookup. cbn.
    destruct (TraceEvent.is_finish ev); [|apply Hh].
    match goal with
    | |- context [<[?key := _]> _] =>
        destruct (decide (key = k)) as [<-|Hne]
    end.
    + by rewrite !lookup_insert_eq.
    + rewrite !lookup_insert_ne by done. apply Hh.
Qed.

Lemma index_loop_sim snapshot : ∀ a b,
  answers_as a b →
  string_ext (Impl.stream_id_map_ (fold_left (Impl.index_event H) snapshot a))
    (Impl.stream_id_map_ b) →
  answers_as (fold_left (Impl.index_event H) snapshot a)
    (fold_left (Impl.index_event H) snapshot b) ∧
  same_interners b (fold_left (Impl.index_event H) snapshot b).
Proof.
  induction snapshot as [|ev snapshot IH]; intros a b Haa Hk; [done|].
  cbn [fold_left] in *.
  destruct (index_event_sim a b ev Haa) as [Haa1 Hs1].
  { eapply string_ext_trans; [|exact Hk].
    apply (index_loop_frame H snapshot (Impl.index_event H a ev)). }
  destruct (IH _ _ Haa1) as [Haa2 Hs2].
  { destruct Hs1 as [-> _]. done. }
  split; [done|]. by eapply same_interners_trans.
Qed.

End Repeatable.

(** X18. An aggregated trace can be taken again.  After a call of
    [CreateTrace] on a cleared builder, clearing the builder it leaves and
    calling [CreateTrace] over the same window returns the same trace: the
    same records with the same stream and packet identifiers, the same
    stream names and the same bases.  The second call hands out no new
    identifier, and it leaves the two indices holding the same events under
    every key as the first call did. *)
Theorem aggregated_trace_repeatable
    (H : Heap) (TS : TimestampApi) (st : Impl.t)
    (buffer : list TraceEvent.t) (begin_time end_time : Time) :
  let res := Impl.CreateTrace H TS (Impl.Clear st) buffer begin_time end_time in
  let res' := Impl.CreateTrace H TS (Impl.Clear res.2) buffer
                begin_time end_time in
  res'.1 = res.1 ∧
  Impl.stream_id_map_ res'.2 = Impl.stream_id_map_ res.2 ∧
  Impl.packet_data_id_map_ res'.2 = Impl.packet_data_id_map_ res.2 ∧
  Impl.base_time_ res'.2 = Impl.base_time_ res.2 ∧
  Impl.base_ts_ res'.2 = Impl.base_ts_ res.2 ∧
  (∀ k, Impl.task_events_ res'.2 !!! k = Impl.task_events_ res.2 !!! k) ∧
  (∀ k, hop_lookup res'.2 k = hop_lookup res.2 k).
Proof.
  intros res res'.
  pose proof (CreateTrace_eq H TS (Impl.Clear st) buffer begin_time end_time)
    as Ea.
  pose proof (CreateTrace_eq H TS (Impl.Clear res.2) buffer begin_time end_time)
    as Eb.
  fold res in Ea. fold res' in Eb. cbv zeta in Ea, Eb.
  unfold indexed_state in Ea, Eb.
  set (snapshot := Impl.Snapshot buffer begin_time end_time) in *.
  set (a0 := Impl.SetBaseTime TS (Impl.Clear st) snapshot) in *.
  set (a2 := fold_left (Impl.index_event H) snapshot a0) in *.
  set (accA := fold_left (Impl.CreateTrace_step H TS) snapshot
                 (Impl.mkTraceLoop ∅ [] a2)) in *.
  assert (Hres : res.2 = Impl.tl_state accA) by (by rewrite Ea).
  pose proof (CreateTrace_loop_build_ext H TS snapshot
                (Impl.mkTraceLoop ∅ [] a2)) as Hbuild.
  fold accA in Hbuild. cbn [Impl.tl_state] in Hbuild.
  destruct (index_loop_frame H snapshot a0) as (Hi1 & Hi2 & Hi3 & Hi4 & _).
  fold a2 in Hi1, Hi2, Hi3, Hi4.
  destruct (SetBaseTime_frame TS (Impl.Clear st) snapshot)
    as (Hf1 & Hf2 & _ & _).
  fold a0 in Hf1, Hf2.
  assert (Hbase : Impl.base_time_ (Impl.Clear res.2) ≠ INT64_MAX).
  { rewrite Hres.
    change (Impl.base_time_ (Impl.Clear (Impl.tl_state accA)))
      with (Impl.base_time_ (Impl.tl_state accA)).
    rewrite (be_base_time _ _ _ Hbuild), Hi2. apply SetBaseTime_sets. }
  rewrite (SetBaseTime_later TS _ snapshot Hbase) in Eb.
  set (b0 := Impl.Clear res.2) in *.
  assert (Haa0 : answers_as a0 b0).
  { constructor.
    - intros k. by rewrite Hf1.
    - intros k. unfold hop_lookup. by rewrite Hf2.
    - unfold b0. rewrite Hres.
      change (Impl.base_ts_ (Impl.Clear (Impl.tl_state accA)))
        with (Impl.base_ts_ (Impl.tl_state accA)).
      by rewrite (be_base_ts _ _ _ Hbuild), Hi1.
    - unfold b0. rewrite Hres.
      change (Impl.base_time_ (Impl.Clear (Impl.tl_state accA)))
        with (Impl.base_time_ (Impl.tl_state accA)).
      by rewrite (be_base_time _ _ _ Hbuild), Hi2. }
  assert (Hb0 : same_interners (Impl.tl_state accA) b0).
  { unfold b0. rewrite Hres. done. }
  destruct (index_loop_sim H snapshot a0 b0 Haa0) as [Haa2 Hs2].
  { destruct Hb0 as [-> _]. apply Hbuild. }
  set (b2 := fold_left (Impl.index_event H) snapshot b0) in *.
  destruct (CreateTrace_loop_sim H TS snapshot ∅ [] a2 b2 Haa2)
    as (ids' & traces' & af & bf & EA & EB & Haaf & Hsf).
  { fold accA. eapply knows_same; [exact Hs2|].
    eapply knows_same; [exact Hb0|]. split; [apply string_ext_refl|done]. }
  fold accA in EA. rewrite EB in Eb. rewrite EA in Ea, Hb0.
  cbn [Impl.tl_state Impl.tl_traces] in *.
  assert (Hsame : same_interners af bf).
  { eapply same_interners_trans; [exact Hb0|].
    by eapply same_interners_trans. }
  destruct Hsame as [Hsm Hpk].
  rewrite Ea, Eb. cbn [fst snd].
  rewrite Hsm, (aa_base_time _ _ Haa2), (aa_base_ts _ _ Haa2).
  split_and!; [done..| | | |]; apply Haaf.
Qed.
